(** * FlowchartToPascal: a shallow embedding of the translation pipeline

    The Python backend (lexer.py, parser.py, sema.py, code_generator.py,
    app.py, constants.py) is embedded as Rocq functions:

    - Python [str] values are lists of Unicode code points ([pystr]);
    - objects mutated in place ([PlantUMLLexer], [PlantUMLSyntaxAnalyzer],
      [SemanticAnalyzer], [PascalCodeGenerator]) become records threaded
      through the functions that mutate them;
    - [while] loops take an explicit amount of fuel and return [None] when it
      runs out, so that termination is a theorem and not a convention;
    - the [re] patterns are written in a small regular-expression datatype,
      executed by one backtracking matcher;
    - dictionaries are [gmap]s. *)

From Stdlib Require Import ZArith NArith Ascii String List Lia Bool.
From stdpp Require Import base option list gmap.

Local Open Scope nat_scope.

(* Patterns quoted in comments may contain the two characters that close a
   comment. *)
Set Warnings "-comment-terminator-in-string".

(* ===================================================================== *)
(** * Python strings *)
(* ===================================================================== *)

Module Py.

(** A Python [str]: a sequence of Unicode code points. *)
Abbreviation pystr := (list N).

(** ** Literals

    String literals of this file are UTF-8 text; [lit] decodes them into
    code points, so that [lit "Ввод:"] is the five-character Python string. *)

Definition byte_val (a : ascii) : N := N_of_ascii a.

Fixpoint bytes_of (s : string) : list N :=
  match s with
  | EmptyString => []
  | String a s' => byte_val a :: bytes_of s'
  end.

(** Continuation byte [10xxxxxx]: its six payload bits. *)
Definition cont (b : N) : N := N.land b 63.

Fixpoint utf8_decode (fuel : nat) (bs : list N) : pystr :=
  match fuel with
  | O => []
  | S fuel =>
    match bs with
    | [] => []
    | b0 :: r0 =>
      if (b0 <? 128)%N then b0 :: utf8_decode fuel r0
      else if (b0 <? 224)%N then
        match r0 with
        | b1 :: r1 => (N.land b0 31 * 64 + cont b1)%N :: utf8_decode fuel r1
        | _ => []
        end
      else if (b0 <? 240)%N then
        match r0 with
        | b1 :: b2 :: r2 =>
            (N.land b0 15 * 4096 + cont b1 * 64 + cont b2)%N :: utf8_decode fuel r2
        | _ => []
        end
      else
        match r0 with
        | b1 :: b2 :: b3 :: r3 =>
            (N.land b0 7 * 262144 + cont b1 * 4096 + cont b2 * 64 + cont b3)%N
              :: utf8_decode fuel r3
        | _ => []
        end
    end
  end.

Definition lit (s : string) : pystr :=
  let bs := bytes_of s in utf8_decode (length bs) bs.

(** ** Characters *)

Definition NUL : N := 0%N.
Definition LF : N := 10%N.

Definition chr (a : ascii) : N := N_of_ascii a.

Definition in_range (lo hi c : N) : bool := ((lo <=? c) && (c <=? hi))%N.

Definition is_ascii_upper (c : N) : bool := in_range 65 90 c.
Definition is_ascii_lower (c : N) : bool := in_range 97 122 c.
Definition is_ascii_letter (c : N) : bool := is_ascii_upper c || is_ascii_lower c.
Definition is_ascii_digit (c : N) : bool := in_range 48 57 c.

(** [str.isspace]: the characters CPython's [_PyUnicode_IsWhitespace]
    accepts (bidirectional class WS, B or S, or category Zs).  The same set
    is what [\s] matches in a [str] pattern. *)
Definition isspace (c : N) : bool :=
  in_range 9 13 c || in_range 28 32 c || (c =? 133)%N || (c =? 160)%N
  || (c =? 5760)%N || in_range 8192 8202 c || (c =? 8232)%N || (c =? 8233)%N
  || (c =? 8239)%N || (c =? 8287)%N || (c =? 12288)%N.

(** What Python takes from the Unicode character database for characters
    outside ASCII.  The database is not part of the repository, so the model
    is parametric in it; on ASCII the classification is fixed below. *)
Class UnicodeData := {
  (** [str.isalpha] on a non-ASCII character (categories Lu Ll Lt Lm Lo) *)
  uni_alpha : N -> bool;
  (** non-ASCII characters that [str.isalnum] accepts without being
      alphabetic ([isdecimal], [isdigit] or [isnumeric]) *)
  uni_numeric : N -> bool;
  (** the value of a non-ASCII decimal digit (category Nd) *)
  uni_digit : N -> option N;
  (** [str.lower] of a non-ASCII character (possibly several characters) *)
  uni_lower : N -> list N
}.

Section Classify.
Context {U : UnicodeData}.

Definition isalpha (c : N) : bool :=
  if (c <? 128)%N then is_ascii_letter c else uni_alpha c.

Definition isdecimal (c : N) : bool :=
  if (c <? 128)%N then is_ascii_digit c
  else match uni_digit c with Some _ => true | None => false end.

Definition isalnum (c : N) : bool :=
  isalpha c || isdecimal c || (if (c <? 128)%N then false else uni_numeric c).

Definition lower_char (c : N) : list N :=
  if (c <? 128)%N then [if is_ascii_upper c then (c + 32)%N else c]
  else uni_lower c.

(** [str.lower] (character by character; the one context-dependent rule of
    Unicode, final sigma, maps to non-ASCII letters either way). *)
Definition lower (s : pystr) : pystr := flat_map lower_char s.

(** [str.upper] of ASCII text (the direction keyword of a counting loop) *)
Definition upper (s : pystr) : pystr :=
  map (fun c => if is_ascii_lower c then (c - 32)%N else c) s.

End Classify.

(** A sample of the database, for concrete runs: the Cyrillic letters
    U+0410..U+044F with U+0401 and U+0451 are alphabetic (capitals are
    lowered by 32, U+0401 by 80); nothing else outside ASCII is alphabetic,
    numeric or a digit. *)
Definition cyrillic : UnicodeData := {|
  uni_alpha c := in_range 1040 1103 c || (c =? 1025)%N || (c =? 1105)%N;
  uni_numeric _ := false;
  uni_digit _ := None;
  uni_lower c :=
    [if in_range 1040 1071 c then (c + 32)%N
     else if (c =? 1025)%N then 1105%N else c]
|}.

(** ** String operations *)

Fixpoint eqb (s t : pystr) : bool :=
  match s, t with
  | [], [] => true
  | a :: s', b :: t' => (a =? b)%N && eqb s' t'
  | _, _ => false
  end.

Fixpoint lstrip (s : pystr) : pystr :=
  match s with
  | c :: s' => if isspace c then lstrip s' else s
  | [] => []
  end.

Definition rstrip (s : pystr) : pystr := rev (lstrip (rev s)).

(** [str.strip()] *)
Definition strip (s : pystr) : pystr := rstrip (lstrip s).

(** The truth value of a string *)
Definition nonempty (s : pystr) : bool :=
  match s with [] => false | _ :: _ => true end.

(** [s.startswith(p)] *)
Fixpoint startswith (p s : pystr) : bool :=
  match p, s with
  | [], _ => true
  | a :: p', b :: s' => (a =? b)%N && startswith p' s'
  | _ :: _, [] => false
  end.

Definition endswith (p s : pystr) : bool := startswith (rev p) (rev s).

(** [s.replace(old, new)] for a non-empty [old]: leftmost occurrences,
    not overlapping.  [skip] counts the characters of a replaced occurrence
    still to be dropped. *)
Fixpoint replace_from (old new : pystr) (skip : nat) (s : pystr) : pystr :=
  match s with
  | [] => []
  | c :: s' =>
    match skip with
    | S k => replace_from old new k s'
    | O =>
      if startswith old s then new ++ replace_from old new (length old - 1) s'
      else c :: replace_from old new 0 s'
    end
  end.

Definition replace (old new s : pystr) : pystr := replace_from old new 0 s.

(** [sep.join(parts)] *)
Fixpoint join (sep : pystr) (parts : list pystr) : pystr :=
  match parts with
  | [] => []
  | [p] => p
  | p :: ps => p ++ sep ++ join sep ps
  end.

(** [s.split(',')] on a one-character separator *)
Fixpoint split_on (sep : N) (s : pystr) (cur : pystr) : list pystr :=
  match s with
  | [] => [cur]
  | c :: s' => if (c =? sep)%N then cur :: split_on sep s' [] else split_on sep s' (cur ++ [c])
  end.

(** ** Integers as text *)

Definition digit_char (d : nat) : N := (48 + N.of_nat d)%N.

Fixpoint str_nat_aux (fuel n : nat) (acc : pystr) : pystr :=
  match fuel with
  | O => acc
  | S fuel =>
    let acc' := digit_char (n mod 10) :: acc in
    if n / 10 =? 0 then acc' else str_nat_aux fuel (n / 10) acc'
  end.

(** [str(n)] for a non-negative [int] *)
Definition str_nat (n : nat) : pystr := str_nat_aux (S n) n [].

(** [str(z)] for an [int] *)
Definition str_int (z : Z) : pystr :=
  if (z <? 0)%Z then chr "-" :: str_nat (Z.to_nat (- z)) else str_nat (Z.to_nat z).

End Py.

(* ===================================================================== *)
(** * The regular expressions of the [re] module *)
(* ===================================================================== *)

Module Re.
Import Py.

(** The fragment of pattern syntax the backend uses.  Repetition is only
    ever applied to a character class. *)
Inductive regex : Type :=
| Chr (p : N -> bool)                       (** one character of a class *)
| Eps                                       (** the empty pattern *)
| Seq (r1 r2 : regex)                       (** [r1 r2] *)
| Alt (r1 r2 : regex)                       (** [r1|r2], [r1] tried first *)
| Star (p : N -> bool)                      (** [[p]*], greedy *)
| StarLazy (p : N -> bool)                  (** [[p]*?] *)
| Group (i : nat) (r : regex)               (** capturing group number [i] *)
| Bol                                       (** [^] *)
| Eol                                       (** [$] *)
| Look (f : option N -> option N -> bool).  (** zero-width test of the
                                                characters before and after *)

(** A position of the matcher in the subject string *)
Record mstate := {
  rest : pystr;                       (** the characters still ahead *)
  mpos : nat;                         (** the offset reached *)
  prev : option N;                    (** the character just before it *)
  caps : list (nat * (nat * nat)) }.  (** group, start offset, end offset *)

Definition start_state (s : pystr) : mstate :=
  {| rest := s; mpos := 0; prev := None; caps := [] |}.

Definition step (s : mstate) : option (N * mstate) :=
  match rest s with
  | c :: r => Some (c, {| rest := r; mpos := S (mpos s); prev := Some c; caps := caps s |})
  | [] => None
  end.

Definition close_group (i start : nat) (s : mstate) : mstate :=
  {| rest := rest s; mpos := mpos s; prev := prev s;
     caps := (i, (start, mpos s)) :: caps s |}.

Section Matcher.
Context {A : Type}.

(** [[p]*] followed by the continuation [k]: the longest run first. *)
Fixpoint star_greedy (p : N -> bool) (ahead : pystr) (s : mstate)
    (k : mstate -> option A) : option A :=
  match ahead, step s with
  | _ :: ahead', Some (c, s') =>
    if p c then
      match star_greedy p ahead' s' k with
      | Some a => Some a
      | None => k s
      end
    else k s
  | _, _ => k s
  end.

(** [[p]*?] followed by [k]: the shortest run first. *)
Fixpoint star_lazy (p : N -> bool) (ahead : pystr) (s : mstate)
    (k : mstate -> option A) : option A :=
  match k s with
  | Some a => Some a
  | None =>
    match ahead, step s with
    | _ :: ahead', Some (c, s') => if p c then star_lazy p ahead' s' k else None
    | _, _ => None
    end
  end.

(** The backtracking matcher: [run r s k] matches [r] at [s] and hands the
    state reached to [k]; when [k] fails the next way of matching [r] is
    tried, in the order of [re]. *)
Fixpoint run (r : regex) (s : mstate) (k : mstate -> option A) : option A :=
  match r with
  | Chr p =>
    match step s with
    | Some (c, s') => if p c then k s' else None
    | None => None
    end
  | Eps => k s
  | Seq r1 r2 => run r1 s (fun s' => run r2 s' k)
  | Alt r1 r2 =>
    match run r1 s k with
    | Some a => Some a
    | None => run r2 s k
    end
  | Star p => star_greedy p (rest s) s k
  | StarLazy p => star_lazy p (rest s) s k
  | Group i r => run r s (fun s' => k (close_group i (mpos s) s'))
  | Bol => if mpos s =? 0 then k s else None
  | Eol =>
    match rest s with
    | [] => k s
    | [c] => if (c =? LF)%N then k s else None
    | _ => None
    end
  | Look f => if f (prev s) (head (rest s)) then k s else None
  end.

End Matcher.

(** A successful match: the subject and the final matcher state *)
Record rmatch := { subject : pystr; final : mstate }.

(** The truth value of a match object or [None] *)
Definition matched (m : option rmatch) : bool :=
  match m with Some _ => true | None => false end.

(** [m.group(i)]; [None] when the group took no part in the match *)
Definition group (m : rmatch) (i : nat) : option pystr :=
  match List.find (fun e => fst e =? i) (caps (final m)) with
  | Some (_, (a, b)) => Some (take (b - a) (drop a (subject m)))
  | None => None
  end.

(** [m.group(i)] of a group that always takes part *)
Definition group' (m : rmatch) (i : nat) : pystr :=
  match group m i with Some g => g | None => [] end.

(** [re.match(r, s)] *)
Definition rematch (r : regex) (s : pystr) : option rmatch :=
  f ← run r (start_state s) Some; Some {| subject := s; final := f |}.

(** [re.fullmatch(r, s)] *)
Definition fullmatch (r : regex) (s : pystr) : option rmatch :=
  f ← run r (start_state s)
        (fun s' => match rest s' with [] => Some s' | _ => None end);
  Some {| subject := s; final := f |}.

(** [re.search(r, s)]: the leftmost match *)
Fixpoint search_from (r : regex) (ahead : pystr) (s : mstate) : option mstate :=
  match run r s Some with
  | Some f => Some f
  | None =>
    match ahead, step s with
    | _ :: ahead', Some (_, s') => search_from r ahead' s'
    | _, _ => None
    end
  end.

Definition search (r : regex) (s : pystr) : bool :=
  match search_from r s (start_state s) with Some _ => true | None => false end.

(** The matches of [r] from left to right, not overlapping, as
    [(start, end, state)]; [skip] counts the characters of the last match
    still to be passed.  The patterns of the backend match no empty string. *)
Fixpoint matches_from (r : regex) (ahead : pystr) (s : mstate) (skip : nat)
    : list (nat * nat * mstate) :=
  match ahead, step s with
  | _ :: ahead', Some (_, s') =>
    match skip with
    | S k => matches_from r ahead' s' k
    | O =>
      match run r s Some with
      | Some f => (mpos s, mpos f, f) :: matches_from r ahead' s' (mpos f - mpos s - 1)
      | None => matches_from r ahead' s' 0
      end
    end
  | _, _ => []
  end.

Definition slice (s : pystr) (a b : nat) : pystr := take (b - a) (drop a s).

(** [re.findall(r, s)] for a pattern without groups *)
Definition findall (r : regex) (s : pystr) : list pystr :=
  map (fun '(a, b, _) => slice s a b) (matches_from r s (start_state s) 0).

(** The pieces between the matches, each followed by the text of group 1
    when [with_group] is set. *)
Fixpoint split_pieces (s : pystr) (with_group : bool) (from : nat)
    (ms : list (nat * nat * mstate)) : list pystr :=
  match ms with
  | [] => [drop from s]
  | (a, b, f) :: ms' =>
    slice s from a ::
      (if with_group then [group' {| subject := s; final := f |} 1] else [])
      ++ split_pieces s with_group b ms'
  end.

(** [re.split(r, s)]; [with_group] when [r] is one capturing group *)
Definition split (r : regex) (with_group : bool) (s : pystr) : list pystr :=
  split_pieces s with_group 0 (matches_from r s (start_state s) 0).

(** ** Building blocks *)

Definition ch (c : N) : regex := Chr (N.eqb c).
Definition plus (p : N -> bool) : regex := Seq (Chr p) (Star p).
Definition plus_lazy (p : N -> bool) : regex := Seq (Chr p) (StarLazy p).
Definition opt (r : regex) : regex := Alt r Eps.

Fixpoint seqs (rs : list regex) : regex :=
  match rs with
  | [] => Eps
  | [r] => r
  | r :: rs' => Seq r (seqs rs')
  end.

Fixpoint str (s : pystr) : regex :=
  match s with
  | [] => Eps
  | c :: s' => Seq (ch c) (str s')
  end.

(** [.]: any character but a newline *)
Definition dot (c : N) : bool := negb (c =? LF)%N.
(** [\s] *)
Definition ws : N -> bool := isspace.
(** [[a-zA-Z_]] and [[a-zA-Z0-9_]] *)
Definition ident_start (c : N) : bool := is_ascii_letter c || (c =? 95)%N.
Definition ident_char (c : N) : bool := ident_start c || is_ascii_digit c.
(** the character class of the two quote characters *)
Definition quote (c : N) : bool := (c =? 34)%N || (c =? 39)%N.

(** "[a-zA-Z_][a-zA-Z0-9_]*" *)
Definition identifier : regex := Seq (Chr ident_start) (Star ident_char).

End Re.

(* ===================================================================== *)
(** * Diagnostics: the dictionaries [{type, line, pos, message, source}] *)
(* ===================================================================== *)

Module Diag.
Import Py.

Inductive severity := Error | Warning.
Inductive stage := SrcLexer | SrcParser | SrcSemantic | SrcGenerator | SrcRequest.

Record diagnostic := {
  d_type : severity;
  d_line : Z;
  d_pos : Z;
  d_message : pystr;
  d_source : stage }.

Section Int.
Context {U : UnicodeData}.

Definition digit_value (c : N) : option N :=
  if (c <? 128)%N then (if is_ascii_digit c then Some (c - 48)%N else None)
  else uni_digit c.

(** [int(s)] on a run of decimal digits (what [\d+] captured) *)
Definition int_of (s : pystr) : Z :=
  Z.of_N (fold_left
    (fun acc c => match digit_value c with Some d => acc * 10 + d | None => acc end)%N
    s 0%N).

(** [\d] *)
Definition digit : N -> bool := isdecimal.

End Int.

End Diag.

(* ===================================================================== *)
(** * constants.py *)
(* ===================================================================== *)

Module Constants.
Import Py Re.

(** [ARRAY_ACCESS_PATTERN], the pattern
    "^([a-zA-Z_][a-zA-Z0-9_]*)\s*\[\s*(.+?)\s*\]$" *)
Definition ARRAY_ACCESS_PATTERN : regex :=
  seqs [Bol; Group 1 identifier; Star ws; ch 91; Star ws; Group 2 (plus_lazy dot);
        Star ws; ch 93; Eol].

(** Under [re.IGNORECASE] the classes [[a-z]] and [[A-Z]] of a [str]
    pattern also match U+0130, U+0131, U+017F and U+212A. *)
Definition ci_extra (c : N) : bool :=
  (c =? 304)%N || (c =? 305)%N || (c =? 383)%N || (c =? 8490)%N.
Definition ident_start_ci (c : N) : bool := ident_start c || ci_extra c.
Definition ident_char_ci (c : N) : bool := ident_char c || ci_extra c.

(** An ASCII letter of a pattern under [re.IGNORECASE] (a letter other
    than i, k and s, which have no further case variants) *)
Definition ci (a : ascii) : regex :=
  let c := chr a in
  Chr (fun x => (x =? c)%N || (x =? c - 32)%N).

(** [FOR_LOOP_PATTERN], compiled with [re.IGNORECASE], the pattern
    "^\s*([a-zA-Z_][a-zA-Z0-9_]*)\s*:=\s*(.+?)\s+(to|downto)\s+(.+?)\s*$" *)
Definition FOR_LOOP_PATTERN : regex :=
  seqs [Bol; Star ws;
        Group 1 (Seq (Chr ident_start_ci) (Star ident_char_ci));
        Star ws; ch 58; ch 61; Star ws;
        Group 2 (plus_lazy dot);
        plus ws;
        Group 3 (Alt (seqs [ci "t"; ci "o"])
                     (seqs [ci "d"; ci "o"; ci "w"; ci "n"; ci "t"; ci "o"]));
        plus ws;
        Group 4 (plus_lazy dot);
        Star ws; Eol].

Definition PASCAL_KEYWORDS : list pystr := Eval vm_compute in map lit
  [ "and"; "abs"; "array"; "as"; "begin"; "case"; "class"; "const"; "constructor";
    "continue"; "destructor"; "div"; "do"; "downto"; "else"; "end"; "enum";
    "except"; "exports"; "file"; "finalization"; "finally"; "for"; "foreach";
    "forward"; "function"; "goto"; "if"; "implementation"; "in"; "inherited";
    "initialization"; "inline"; "interface"; "is"; "label"; "mod"; "new";
    "nil"; "not"; "object"; "of"; "operator"; "or"; "packed"; "procedure";
    "program"; "property"; "raise"; "record"; "repeat"; "sealed"; "set";
    "shl"; "shr"; "static"; "string"; "then"; "to"; "try"; "type";
    "unit"; "until"; "uses"; "var"; "while"; "with"; "xor";
    "true"; "false";
    "integer"; "real"; "boolean"; "char";
    "private"; "protected"; "public"; "internal";
    "yield"; "break" ]%string.

(** [w in PASCAL_KEYWORDS] *)
Definition is_pascal_keyword (w : pystr) : bool := existsb (eqb w) PASCAL_KEYWORDS.

End Constants.

(* ===================================================================== *)
(** * lexer.py *)
(* ===================================================================== *)

Module Lexer.
Import Py Re Diag.

(** ** ChainHashMap: the chained hash table kept beside each intern
    dictionary.  An item is [(id_str, data, var_type, is_const)]. *)

Record ChainItem := {
  item_key : pystr; item_data : nat; item_type : pystr; item_const : bool }.

Record ChainHashMap := { chm_size : nat; buckets : list (list ChainItem) }.

Definition chm_new (initial_size : nat) : ChainHashMap :=
  {| chm_size := initial_size; buckets := repeat [] initial_size |}.

(** [_hash]: the sum of the code points modulo the table size *)
Definition chm_hash (t : ChainHashMap) (key : pystr) : nat :=
  N.to_nat (fold_left N.add key 0%N) mod chm_size t.

Fixpoint bucket_get (b : list ChainItem) (k : pystr) : option ChainItem :=
  match b with
  | [] => None
  | it :: b' => if eqb (item_key it) k then Some it else bucket_get b' k
  end.

Definition chm_get (t : ChainHashMap) (k : pystr) : option (nat * pystr * bool) :=
  it ← bucket_get (nth (chm_hash t k) (buckets t) []) k;
  Some (item_data it, item_type it, item_const it).

Fixpoint bucket_update (b : list ChainItem) (it : ChainItem) : option (list ChainItem) :=
  match b with
  | [] => None
  | x :: b' =>
    if eqb (item_key x) (item_key it) then Some (it :: b')
    else b'' ← bucket_update b' it; Some (x :: b'')
  end.

(** [put]: overwrite the item with this key, or insert it at the head of
    its bucket. *)
Definition chm_put (t : ChainHashMap) (k : pystr) (data : nat) : ChainHashMap :=
  let i := chm_hash t k in
  let b := nth i (buckets t) [] in
  let it := {| item_key := k; item_data := data;
               item_type := lit "string"; item_const := true |} in
  let b' := match bucket_update b it with Some b' => b' | None => it :: b end in
  {| chm_size := chm_size t; buckets := <[i := b']> (buckets t) |}.

(** [put(id_str, data, var_type, is_const)] with all its arguments;
    [chm_put] is the call with the two defaults, the only one the scanner
    makes. *)
Definition chm_put_as (t : ChainHashMap) (k : pystr) (data : nat) (var_type : pystr)
    (is_const : bool) : ChainHashMap :=
  let i := chm_hash t k in
  let b := nth i (buckets t) [] in
  let it := {| item_key := k; item_data := data;
               item_type := var_type; item_const := is_const |} in
  let b' := match bucket_update b it with Some b' => b' | None => it :: b end in
  {| chm_size := chm_size t; buckets := <[i := b']> (buckets t) |}.

(** [del bucket[i]] for the first item with this key *)
Fixpoint bucket_delete (b : list ChainItem) (k : pystr) : option (list ChainItem) :=
  match b with
  | [] => None
  | x :: b' =>
    if eqb (item_key x) k then Some b'
    else b'' ← bucket_delete b' k; Some (x :: b'')
  end.

(** [delete]: the value returned and the table after the call *)
Definition chm_delete (t : ChainHashMap) (k : pystr) : bool * ChainHashMap :=
  let i := chm_hash t k in
  match bucket_delete (nth i (buckets t) []) k with
  | Some b' => (true, {| chm_size := chm_size t; buckets := <[i := b']> (buckets t) |})
  | None => (false, t)
  end.

(** ** Tokens: the dictionaries appended to [lex_table] *)

Record Token := {
  tclass : nat; tvalue : nat; ttext : pystr; tline : nat; tpos : nat }.

(** Class 1: the keyword table *)
Definition keywords : list (pystr * nat) := Eval vm_compute in
  [ (lit "@startuml", 1); (lit "start", 2); (lit "stop", 3); (lit "if", 4);
    (lit "then", 5); (lit "else", 6); (lit "endif", 7); (lit "while", 8);
    (lit "is", 9); (lit "endwhile", 10); (lit "repeat", 11);
    (lit "repeatwhile", 12); (lit "@enduml", 13) ].

Fixpoint assoc (tbl : list (pystr * nat)) (k : pystr) : option nat :=
  match tbl with
  | [] => None
  | (k', v) :: tbl' => if eqb k' k then Some v else assoc tbl' k
  end.

Definition c_lparen : N := Eval vm_compute in chr "(".
Definition c_rparen : N := Eval vm_compute in chr ")".
Definition c_semi : N := Eval vm_compute in chr ";".
Definition c_colon : N := Eval vm_compute in chr ":".
Definition c_at : N := Eval vm_compute in chr "@".
Definition c_under : N := Eval vm_compute in chr "_".
Definition c_minus : N := Eval vm_compute in chr "-".

(** Class 2: delimiters, "(": 1, ")": 2, ";": 3, ":": 4 *)
Definition delim_lparen : nat := 1.
Definition delim_rparen : nat := 2.
Definition delim_semi : nat := 3.
Definition delim_colon : nat := 4.

(** ** The scanner object *)

Record lexer := {
  source : pystr;
  position : nat;
  buffer : pystr;
  current_char : N;
  identifier_table : ChainHashMap;
  constant_table : ChainHashMap;
  identifiers : gmap pystr nat;
  constants : gmap pystr nat;
  id_counter : nat;
  const_counter : nat;
  lex_table : list Token;
  line_num : nat;
  char_pos : nat;
  errors : list pystr }.

(** [__init__]: trailing whitespace is removed and the sentinel appended *)
Definition init (source_code : pystr) : lexer :=
  let src := rstrip source_code ++ [NUL] in
  {| source := src; position := 0; buffer := [];
     current_char := nth 0 src NUL;
     identifier_table := chm_new 10; constant_table := chm_new 10;
     identifiers := ∅; constants := ∅;
     id_counter := 1; const_counter := 1;
     lex_table := []; line_num := 1; char_pos := 0; errors := [] |}.

Definition set_buffer (b : pystr) (st : lexer) : lexer :=
  {| source := source st; position := position st; buffer := b;
     current_char := current_char st;
     identifier_table := identifier_table st; constant_table := constant_table st;
     identifiers := identifiers st; constants := constants st;
     id_counter := id_counter st; const_counter := const_counter st;
     lex_table := lex_table st; line_num := line_num st; char_pos := char_pos st;
     errors := errors st |}.

(** [self.position = p] followed by the reload of [current_char] *)
Definition set_position (p : nat) (st : lexer) : lexer :=
  {| source := source st; position := p; buffer := buffer st;
     current_char := if p <? length (source st) then nth p (source st) NUL else NUL;
     identifier_table := identifier_table st; constant_table := constant_table st;
     identifiers := identifiers st; constants := constants st;
     id_counter := id_counter st; const_counter := const_counter st;
     lex_table := lex_table st; line_num := line_num st; char_pos := char_pos st;
     errors := errors st |}.

(** [advance] *)
Definition advance (st : lexer) : lexer :=
  let p := S (position st) in
  {| source := source st; position := p; buffer := buffer st;
     current_char := if length (source st) <=? p then NUL else nth p (source st) NUL;
     identifier_table := identifier_table st; constant_table := constant_table st;
     identifiers := identifiers st; constants := constants st;
     id_counter := id_counter st; const_counter := const_counter st;
     lex_table := lex_table st;
     line_num := if (current_char st =? LF)%N then S (line_num st) else line_num st;
     char_pos := if (current_char st =? LF)%N then 0 else S (char_pos st);
     errors := errors st |}.

(** [make_token]; every call of [scan] passes [line] and [pos]. *)
Definition make_token (token_class token_value : nat) (token_text : pystr)
    (line pos : nat) (st : lexer) : lexer :=
  {| source := source st; position := position st; buffer := buffer st;
     current_char := current_char st;
     identifier_table := identifier_table st; constant_table := constant_table st;
     identifiers := identifiers st; constants := constants st;
     id_counter := id_counter st; const_counter := const_counter st;
     lex_table := lex_table st ++
       [{| tclass := token_class; tvalue := token_value; ttext := token_text;
           tline := line; tpos := pos |}];
     line_num := line_num st; char_pos := char_pos st;
     errors := errors st |}.

Definition add_error (msg : pystr) (st : lexer) : lexer :=
  {| source := source st; position := position st; buffer := buffer st;
     current_char := current_char st;
     identifier_table := identifier_table st; constant_table := constant_table st;
     identifiers := identifiers st; constants := constants st;
     id_counter := id_counter st; const_counter := const_counter st;
     lex_table := lex_table st; line_num := line_num st; char_pos := char_pos st;
     errors := errors st ++ [msg] |}.

(** [while cond(self.current_char): self.advance()] *)
Fixpoint advance_while (fuel : nat) (cond : N -> bool) (st : lexer) : option lexer :=
  if cond (current_char st) then
    match fuel with
    | O => None
    | S fuel => advance_while fuel cond (advance st)
    end
  else Some st.

(** [while cond(self.current_char): self.buffer += self.current_char; self.advance()] *)
Fixpoint collect_while (fuel : nat) (cond : N -> bool) (st : lexer) : option lexer :=
  if cond (current_char st) then
    match fuel with
    | O => None
    | S fuel =>
        collect_while fuel cond (advance (set_buffer (buffer st ++ [current_char st]) st))
    end
  else Some st.

(** Every inner loop advances once per turn, so the length of the source
    bounds its turns. *)
Definition loop_fuel (st : lexer) : nat := length (source st).

Definition not_nul (c : N) : bool := negb (c =? NUL)%N.

Definition is_space_char (c : N) : bool := not_nul c && isspace c.

Definition skip_whitespace (st : lexer) : option lexer :=
  advance_while (loop_fuel st) is_space_char st.

Definition is_delim_or_at (c : N) : bool :=
  (c =? c_lparen)%N || (c =? c_rparen)%N || (c =? c_semi)%N || (c =? c_colon)%N
  || (c =? c_at)%N.

Definition error_skip (c : N) : bool :=
  not_nul c && negb (isspace c) && negb (is_delim_or_at c).

Definition error_prefix : pystr := Eval vm_compute in lit "Ошибка (".

(** [error]: the message records the current line and column, then the
    scanner skips to the next blank, delimiter or ["@"]. *)
Definition error (message : pystr) (st : lexer) : option lexer :=
  let error_msg :=
    error_prefix ++ str_nat (line_num st) ++ lit "," ++ str_nat (char_pos st)
      ++ lit "): " ++ message in
  advance_while (loop_fuel st) error_skip (add_error error_msg st).

Section Scan.
Context {U : UnicodeData}.

Definition word_char (c : N) : bool :=
  isalnum c || (c =? c_at)%N || (c =? c_under)%N || (c =? c_minus)%N.

Definition word_start (c : N) : bool := isalpha c || (c =? c_at)%N.

(** The lookahead loop over [temp_pos]: [rest] is [source[temp_pos+1:]]. *)
Fixpoint peek_word (rest : pystr) (temp_char : N) (temp_buffer : pystr) : pystr :=
  if word_char temp_char then
    match rest with
    | c :: rest' => peek_word rest' c (temp_buffer ++ [temp_char])
    | [] => temp_buffer ++ [temp_char]
    end
  else temp_buffer.

Definition peek (st : lexer) : pystr :=
  peek_word (drop (S (position st)) (source st)) (current_char st) [].

Definition kw_repeat : pystr := Eval vm_compute in lit "repeat".
Definition kw_while : pystr := Eval vm_compute in lit "while".
Definition text_repeat_while : pystr := Eval vm_compute in lit "repeat while".

(** The tail of the word branch: an ordinary keyword or an unknown word. *)
Definition plain_word (word : pystr) (start_line start_pos : nat) (st : lexer)
    : option lexer :=
  match assoc keywords (lower word) with
  | Some code => Some (make_token 1 code word start_line start_pos st)
  | None => error (lit "Неизвестное ключевое слово: '" ++ word ++ lit "'") st
  end.

(** The word branch after the word has been collected into [buffer]:
    the lookahead for the compound keyword, then [plain_word]. *)
Definition after_word (start_line start_pos : nat) (st : lexer) : option lexer :=
  let potential_word := strip (buffer st) in
  if eqb (lower potential_word) kw_repeat && isspace (current_char st) then
    let saved_pos := position st in
    st2 ← skip_whitespace st;
    if isalpha (current_char st2) && eqb (strip (lower (peek st2))) kw_while then
      st4 ← skip_whitespace (set_position saved_pos st2);
      st5 ← advance_while (loop_fuel st4) word_char st4;
      Some (make_token 1 12 text_repeat_while start_line start_pos st5)
    else plain_word potential_word start_line start_pos st2
  else plain_word potential_word start_line start_pos st.

Definition scan_word (st : lexer) : option lexer :=
  let start_pos := char_pos st in
  let start_line := line_num st in
  st1 ← collect_while (loop_fuel st) word_char (set_buffer [] st);
  after_word start_line start_pos st1.

End Scan.

(** Interning of an action payload: a new id on first sight. *)
Definition intern_identifier (content : pystr) (st : lexer) : nat * lexer :=
  match identifiers st !! content with
  | None =>
    (id_counter st,
     {| source := source st; position := position st; buffer := buffer st;
        current_char := current_char st;
        identifier_table := chm_put (identifier_table st) content (id_counter st);
        constant_table := constant_table st;
        identifiers := <[content := id_counter st]> (identifiers st);
        constants := constants st;
        id_counter := S (id_counter st); const_counter := const_counter st;
        lex_table := lex_table st; line_num := line_num st; char_pos := char_pos st;
        errors := errors st |})
  | Some id_num => (id_num, st)
  end.

(** Interning of a condition or label payload, in its own table. *)
Definition intern_constant (content : pystr) (st : lexer) : nat * lexer :=
  match constants st !! content with
  | None =>
    (const_counter st,
     {| source := source st; position := position st; buffer := buffer st;
        current_char := current_char st;
        identifier_table := identifier_table st;
        constant_table := chm_put (constant_table st) content (const_counter st);
        identifiers := identifiers st;
        constants := <[content := const_counter st]> (constants st);
        id_counter := id_counter st; const_counter := S (const_counter st);
        lex_table := lex_table st; line_num := line_num st; char_pos := char_pos st;
        errors := errors st |})
  | Some const_num => (const_num, st)
  end.

Definition until_char (stop : N) (c : N) : bool := not_nul c && negb (c =? stop)%N.

(** The branch of [scan] for [":"] (payload up to [";"]) and for ["("]
    (payload up to [")"]): the two differ in the delimiters, the token class
    and the intern table. *)
Definition scan_payload (open_code : nat) (open_text : pystr)
    (close : N) (close_code : nat) (payload_class : nat)
    (intern : pystr -> lexer -> nat * lexer) (missing : pystr)
    (st : lexer) : option lexer :=
  let st := make_token 2 open_code open_text (line_num st) (char_pos st) st in
  let st := advance st in
  let start_content_pos := char_pos st in
  let start_content_line := line_num st in
  st ← collect_while (loop_fuel st) (until_char close) (set_buffer [] st);
  let content := strip (buffer st) in
  let st :=
    match content with
    | [] => st
    | _ :: _ =>
      let '(num, st) := intern content st in
      make_token payload_class num content start_content_line start_content_pos st
    end in
  if (current_char st =? close)%N then
    Some (advance (make_token 2 close_code [close] (line_num st) (char_pos st) st))
  else error missing st.

Definition scan_action : lexer -> option lexer :=
  scan_payload delim_colon [c_colon] c_semi delim_semi 4 intern_identifier
    (lit "Ожидается ';' в конце действия").

Definition scan_condition : lexer -> option lexer :=
  scan_payload delim_lparen [c_lparen] c_rparen delim_rparen 5 intern_constant
    (lit "Ожидается ')' в конце условия").

Section ScanLoop.
Context {U : UnicodeData}.

(** One turn of the main loop of [scan] (its guard already checked). *)
Definition scan_body (st : lexer) : option lexer :=
  st ← skip_whitespace st;
  let c := current_char st in
  if (c =? NUL)%N then Some st
  else if word_start c then scan_word st
  else if (c =? c_colon)%N then scan_action st
  else if (c =? c_lparen)%N then scan_condition st
  else if (c =? c_semi)%N then
    Some (advance (make_token 2 delim_semi [c_semi] (line_num st) (char_pos st) st))
  else
    st ← error (lit "Неожиданный символ: '" ++ [c] ++ lit "'") st;
    Some (advance st).

Fixpoint scan_loop (fuel : nat) (st : lexer) : option lexer :=
  if (current_char st =? NUL)%N then Some st
  else
    match fuel with
    | O => None
    | S fuel => st' ← scan_body st; scan_loop fuel st'
    end.

(** [PlantUMLLexer(source_code).scan()]: the scanner after the scan; the
    value [scan] returns is [scan_ok] of it. *)
Definition scan (source_code : pystr) : option lexer :=
  let st := init source_code in
  scan_loop (length (source st)) st.

End ScanLoop.

Definition scan_ok (st : lexer) : bool :=
  match errors st with [] => true | _ => false end.

Definition get_lex_table (st : lexer) : list Token := lex_table st.

Section Errors.
Context {U : UnicodeData}.

(** "Ошибка\s*\((\d+),(\d+)\):\s*(.+)" *)
Definition RE_ERROR : regex :=
  seqs [str (lit "Ошибка"); Star ws; ch 40; Group 1 (plus digit); ch 44;
        Group 2 (plus digit); ch 41; ch 58; Star ws; Group 3 (plus dot)].

(** [get_detailed_errors] *)
Definition get_detailed_errors (st : lexer) : list diagnostic :=
  map (fun error_msg =>
         match rematch RE_ERROR error_msg with
         | Some m =>
           {| d_type := Error; d_line := int_of (group' m 1); d_pos := int_of (group' m 2);
              d_message := group' m 3; d_source := SrcLexer |}
         | None =>
           {| d_type := Error; d_line := (-1)%Z; d_pos := (-1)%Z;
              d_message := replace (lit "Ошибка: ") [] error_msg; d_source := SrcLexer |}
         end)
      (errors st).

End Errors.

End Lexer.

(* ===================================================================== *)
(** * parser.py *)
(* ===================================================================== *)

Module Parser.
Import Py Re Diag Lexer.

#[local] Set Warnings "-register-all".

(** ** Node: a node of the syntax tree *)

Inductive Node : Type :=
  mkNode (type : pystr) (value : option pystr) (children : list Node) (line pos : nat).

Definition ntype (n : Node) : pystr := let 'mkNode t _ _ _ _ := n in t.
Definition nvalue (n : Node) : option pystr := let 'mkNode _ v _ _ _ := n in v.
Definition children (n : Node) : list Node := let 'mkNode _ _ c _ _ := n in c.
Definition nline (n : Node) : nat := let 'mkNode _ _ _ l _ := n in l.
Definition npos (n : Node) : nat := let 'mkNode _ _ _ _ p := n in p.

(** [Node(node_type, value, line, pos)]: no children yet *)
Definition new_node (node_type : pystr) (value : option pystr) (line pos : nat) : Node :=
  mkNode node_type value [] line pos.

(** [node.add_child(child)] *)
Definition add_child (child : Node) (n : Node) : Node :=
  let 'mkNode t v c l p := n in mkNode t v (c ++ [child]) l p.

(** [node.type = t] *)
Definition set_type (t : pystr) (n : Node) : Node :=
  let 'mkNode _ v c l p := n in mkNode t v c l p.

(** A node made from a token: its text, line and position *)
Definition token_node (node_type : pystr) (t : Token) : Node :=
  new_node node_type (Some (ttext t)) (tline t) (tpos t).

(** ** The node kinds *)

Definition t_program : pystr := Eval vm_compute in lit "program".
Definition t_startuml : pystr := Eval vm_compute in lit "startuml_keyword".
Definition t_enduml : pystr := Eval vm_compute in lit "enduml_keyword".
Definition t_start : pystr := Eval vm_compute in lit "start_node".
Definition t_stop : pystr := Eval vm_compute in lit "stop_node".
Definition t_action : pystr := Eval vm_compute in lit "action_node".
Definition t_action_content : pystr := Eval vm_compute in lit "action_content".
Definition t_if : pystr := Eval vm_compute in lit "if_statement".
Definition t_condition_content : pystr := Eval vm_compute in lit "condition_content".
Definition t_branch_label : pystr := Eval vm_compute in lit "branch_label".
Definition t_else_branch_label : pystr := Eval vm_compute in lit "else_branch_label".
Definition t_then_branch : pystr := Eval vm_compute in lit "then_branch".
Definition t_else_branch : pystr := Eval vm_compute in lit "else_branch".
Definition t_while : pystr := Eval vm_compute in lit "while_loop_node".
Definition t_while_body : pystr := Eval vm_compute in lit "while_body".
Definition t_repeat : pystr := Eval vm_compute in lit "repeat_until_loop_node".
Definition t_repeat_body : pystr := Eval vm_compute in lit "repeat_body".
Definition t_repeat_label : pystr := Eval vm_compute in lit "repeat_until_branch_label".

(** ** The analyzer object ([error_recovery_mode] is written once and never
    read; it is left out) *)

Record parser := {
  p_lex_table : list Token;
  p_position : nat;
  p_errors : list pystr }.

Definition p_error (msg : pystr) (st : parser) : parser :=
  {| p_lex_table := p_lex_table st; p_position := p_position st;
     p_errors := p_errors st ++ [msg] |}.

Definition current_token (st : parser) : option Token :=
  p_lex_table st !! p_position st.

Definition next_token (st : parser) : option Token * parser :=
  match current_token st with
  | Some t =>
      (Some t, {| p_lex_table := p_lex_table st; p_position := S (p_position st);
                  p_errors := p_errors st |})
  | None => (None, st)
  end.

(** [match(token_class, token_value)] *)
Definition matches (token_class : nat) (token_value : option nat) (st : parser) : bool :=
  match current_token st with
  | None => false
  | Some t =>
    (tclass t =? token_class) &&
    match token_value with Some v => tvalue t =? v | None => true end
  end.

(** The header of a positioned message, ["Ошибка (line,pos): "] *)
Definition at_pos (line pos : nat) : pystr :=
  error_prefix ++ str_nat line ++ lit "," ++ str_nat pos ++ lit "): ".

(** The header written by the payload checks, with a blank after the
    comma: ["Ошибка (line, pos): "], or ["Ошибка (EOF, 0): "] at the end *)
Definition at_pos_spaced (t : option Token) : pystr :=
  match t with
  | Some t => error_prefix ++ str_nat (tline t) ++ lit ", " ++ str_nat (tpos t) ++ lit "): "
  | None => error_prefix ++ lit "EOF, 0): "
  end.

Definition at_eof : pystr := Eval vm_compute in lit "Ошибка (конец файла): ".

(** [message or default] *)
Definition or_default (message : option pystr) (default : pystr) : pystr :=
  match message with
  | Some (c :: m) => c :: m
  | _ => default
  end.

(** [expect(token_class, token_value, message)] *)
Definition expect (token_class : nat) (token_value : option nat)
    (message : option pystr) (st : parser) : option Token * parser :=
  match current_token st with
  | None =>
    (None, p_error (at_eof ++ or_default message
              (lit "Ожидается лексема класса " ++ str_nat token_class)) st)
  | Some t =>
    if negb (tclass t =? token_class) then
      (None, p_error (at_pos (tline t) (tpos t) ++ or_default message
                (lit "Ожидается лексема класса " ++ str_nat token_class
                   ++ lit ", получено " ++ str_nat (tclass t))) st)
    else
      match token_value with
      | Some v =>
        if negb (tvalue t =? v) then
          (None, p_error (at_pos (tline t) (tpos t) ++ or_default message
                    (lit "Ожидается значение " ++ str_nat v
                       ++ lit ", получено " ++ str_nat (tvalue t))) st)
        else next_token st
      | None => next_token st
      end
  end.

(** The check of a payload token of class 5 (a condition or a label):
    [None] with a diagnostic when the current token is something else. *)
Definition payload5 (what : pystr) (st : parser) : option Token * parser :=
  match current_token st with
  | Some t =>
    if tclass t =? 5 then next_token st
    else (None, p_error (at_pos_spaced (Some t) ++ what) st)
  | None => (None, p_error (at_pos_spaced None ++ what) st)
  end.

(** [parse_action]; [token] is the current token, a [":"]. *)
Definition parse_action (token : Token) (st : parser) : Node * parser :=
  let node := new_node t_action None (tline token) (tpos token) in
  let '(colon_token, st) :=
    expect 2 (Some 4) (Some (lit "Ожидается ':' для начала действия")) st in
  match colon_token with
  | None => (node, st)
  | Some _ =>
    match current_token st with
    | Some content_token =>
      if tclass content_token =? 4 then
        let '(_, st) := next_token st in
        let node := add_child (token_node t_action_content content_token) node in
        let '(_, st) :=
          expect 2 (Some 3) (Some (lit "Ожидается ';' после содержимого действия")) st in
        (node, st)
      else
        (node, p_error (at_pos_spaced (Some content_token)
                          ++ lit "Ожидается содержимое действия после ':'") st)
    | None =>
      (node, p_error (at_pos_spaced None
                        ++ lit "Ожидается содержимое действия после ':'") st)
    end
  end.

(** [parse_branch_label] *)
Definition parse_branch_label (st : parser) : option Node * parser :=
  let '(open_bracket, st) :=
    expect 2 (Some 1) (Some (lit "Ожидается '(' перед ярлыком ветвления")) st in
  match open_bracket with
  | None => (None, st)
  | Some _ =>
    match payload5 (lit "Ожидается ярлык ветвления после '('") st with
    | (None, st) =>
        if matches 2 (Some 2) st then (None, snd (next_token st)) else (None, st)
    | (Some branch_label_token, st) =>
      let branch_label_node := token_node t_branch_label branch_label_token in
      let '(close_bracket, st) :=
        expect 2 (Some 2) (Some (lit "Ожидается ')' после ярлыка ветвления")) st in
      match close_bracket with
      | None => (None, st)
      | Some _ => (Some branch_label_node, st)
      end
    end
  end.

(** A statement parser: [None] when the fuel is spent, otherwise the
    statement (or Python's [None]) and the analyzer after it. *)
Definition stmt_parser := parser -> option (option Node * parser).

(** The loops that collect the statements of a body:
    [while not stop: stmt = parse_statement(); if stmt: append else: break] *)
Fixpoint body_loop (fuel : nat) (stop : parser -> bool) (parse_statement : stmt_parser)
    (st : parser) (body_nodes : list Node) : option (list Node * parser) :=
  if stop st then Some (body_nodes, st)
  else
    match fuel with
    | O => None
    | S fuel =>
      r ← parse_statement st;
      match r with
      | (Some stmt, st) => body_loop fuel stop parse_statement st (body_nodes ++ [stmt])
      | (None, st) => Some (body_nodes, st)
      end
    end.

(** A body turn consumes a token, so the table bounds the turns. *)
Definition body_fuel (st : parser) : nat := S (length (p_lex_table st)).

(** [if body_nodes: body_node = Node(kind); ...; node.add_child(body_node)] *)
Definition add_body (kind : pystr) (body_nodes : list Node) (node : Node) : Node :=
  match body_nodes with
  | [] => node
  | _ :: _ => add_child (mkNode kind None body_nodes 0 0) node
  end.

Section Statements.
Variable parse_statement : stmt_parser.

(** [parse_if_statement]; [token] is the current token, the [if]. *)
Definition parse_if_statement (token : Token) (st : parser) : option (Node * parser) :=
  let node := new_node t_if None (tline token) (tpos token) in
  let '(if_token, st) :=
    expect 1 (Some 4) (Some (lit "Ожидается ключевое слово 'if'")) st in
  match if_token with None => Some (node, st) | Some _ =>
  let '(open_paren_token, st) :=
    expect 2 (Some 1) (Some (lit "Ожидается '(' после 'if'")) st in
  match open_paren_token with None => Some (node, st) | Some _ =>
  match payload5 (lit "Ожидается условие в скобках после 'if'") st with
  | (None, st) => Some (node, st)
  | (Some cond_token, st) =>
  let node := add_child (token_node t_condition_content cond_token) node in
  let '(close_paren_token, st) :=
    expect 2 (Some 2) (Some (lit "Ожидается ')' после условия")) st in
  match close_paren_token with None => Some (node, st) | Some _ =>
  let '(then_token, st) :=
    expect 1 (Some 5) (Some (lit "Ожидается ключевое слово 'then'")) st in
  match then_token with None => Some (node, st) | Some _ =>
  let '(open_bracket, st) :=
    expect 2 (Some 1) (Some (lit "Ожидается '(' перед ярлыком ветвления 'then'")) st in
  match open_bracket with None => Some (node, st) | Some _ =>
  match payload5 (lit "Ожидается ярлык ветвления после '('") st with
  | (None, st) => Some (node, st)
  | (Some branch_label_token, st) =>
  let node := add_child (token_node t_branch_label branch_label_token) node in
  let '(close_bracket, st) :=
    expect 2 (Some 2) (Some (lit "Ожидается ')' после ярлыка ветвления 'then'")) st in
  match close_bracket with None => Some (node, st) | Some _ =>
  '(then_body_nodes, st) ←
    body_loop (body_fuel st)
      (fun st => matches 1 (Some 6) st || matches 1 (Some 7) st) parse_statement st [];
  let node := add_body t_then_branch then_body_nodes node in
  r ← (if matches 1 (Some 6) st then
         let '(_, st) := next_token st in
         let '(_, st) :=
           expect 2 (Some 1) (Some (lit "Ожидается '(' перед ярлыком ветвления 'else'")) st in
         let '(node, st) :=
           match current_token st with
           | Some t =>
             if tclass t =? 5 then
               (add_child (token_node t_else_branch_label t) node, snd (next_token st))
             else (node, st)
           | None => (node, st)
           end in
         let st := if matches 2 (Some 2) st then snd (next_token st) else st in
         '(else_body_nodes, st) ←
           body_loop (body_fuel st) (matches 1 (Some 7)) parse_statement st [];
         Some (add_body t_else_branch else_body_nodes node, st)
       else Some (node, st));
  let '(node, st) := r in
  let '(_, st) :=
    expect 1 (Some 7) (Some (lit "Ожидается ключевое слово 'endif'")) st in
  Some (node, st)
  end end end end end end end end.

(** [parse_while_loop]; [token] is the current token, the [while]. *)
Definition parse_while_loop (token : Token) (st : parser) : option (Node * parser) :=
  let node := new_node t_while None (tline token) (tpos token) in
  let '(while_token, st) :=
    expect 1 (Some 8) (Some (lit "Ожидается ключевое слово 'while'")) st in
  match while_token with None => Some (node, st) | Some _ =>
  let '(open_paren_token, st) :=
    expect 2 (Some 1) (Some (lit "Ожидается '(' после 'while'")) st in
  match open_paren_token with None => Some (node, st) | Some _ =>
  match payload5 (lit "Ожидается условие в скобках после 'while'") st with
  | (None, st) => Some (node, st)
  | (Some cond_token, st) =>
  let node := add_child (token_node t_condition_content cond_token) node in
  let '(close_paren_token, st) :=
    expect 2 (Some 2) (Some (lit "Ожидается ')' после условия")) st in
  match close_paren_token with None => Some (node, st) | Some _ =>
  let '(is_token, st) :=
    expect 1 (Some 9) (Some (lit "Ожидается ключевое слово 'is'")) st in
  match is_token with None => Some (node, st) | Some _ =>
  match parse_branch_label st with
  | (None, st) => Some (node, st)
  | (Some branch_label_node, st) =>
  let node := add_child branch_label_node node in
  '(body_nodes, st) ←
    body_loop (body_fuel st)
      (fun st => matches 1 (Some 10) st
                 || (length (p_lex_table st) <=? p_position st)
                 || matches 1 (Some 3) st || matches 1 (Some 13) st)
      parse_statement st [];
  let node := add_body t_while_body body_nodes node in
  let '(endwhile_token, st) :=
    expect 1 (Some 10) (Some (lit "Ожидается ключевое слово 'endwhile'")) st in
  match endwhile_token with None => Some (node, st) | Some _ =>
  match parse_branch_label st with
  | (Some end_branch_label_node, st) => Some (add_child end_branch_label_node node, st)
  | (None, st) => Some (node, st)
  end
  end end end end end end end.

(** [parse_repeat_until_loop]; [token] is the current token, the [repeat]. *)
Definition parse_repeat_until_loop (token : Token) (st : parser) : option (Node * parser) :=
  let node := new_node t_repeat None (tline token) (tpos token) in
  let '(repeat_token, st) :=
    expect 1 (Some 11) (Some (lit "Ожидается ключевое слово 'repeat'")) st in
  match repeat_token with
  | None =>
    Some (node, p_error (lit
      "Ошибка (конец файла): Ожидается ключевое слово 'repeat while' после тела цикла") st)
  | Some _ =>
  '(body_nodes, st) ←
    body_loop (body_fuel st)
      (fun st => matches 1 (Some 12) st || matches 1 (Some 3) st || matches 1 (Some 13) st)
      parse_statement st [];
  let node := add_body t_repeat_body body_nodes node in
  let '(repeat_while_token, st) :=
    expect 1 (Some 12) (Some (lit "Ожидается ключевое слово 'repeat while'")) st in
  match repeat_while_token with None => Some (node, st) | Some _ =>
  let '(open_paren_token, st) :=
    expect 2 (Some 1) (Some (lit "Ожидается '(' после 'repeat while'")) st in
  match open_paren_token with None => Some (node, st) | Some _ =>
  match payload5 (lit "Ожидается условие в скобках после 'repeat while'") st with
  | (None, st) => Some (node, st)
  | (Some cond_token, st) =>
  let node := add_child (token_node t_condition_content cond_token) node in
  let '(close_paren_token, st) :=
    expect 2 (Some 2) (Some (lit "Ожидается ')' после условия")) st in
  match close_paren_token with None => Some (node, st) | Some _ =>
  let '(is_token, st) :=
    expect 1 (Some 9) (Some (lit "Ожидается ключевое слово 'is'")) st in
  match is_token with None => Some (node, st) | Some _ =>
  match parse_branch_label st with
  | (Some branch_label_node, st) =>
      Some (add_child (set_type t_repeat_label branch_label_node) node, st)
  | (None, st) => Some (node, st)
  end
  end end end end end end.

End Statements.

(** [parse_statement]; each nested statement spends one unit of fuel. *)
Fixpoint parse_statement (fuel : nat) (st : parser) : option (option Node * parser) :=
  match fuel with
  | O => None
  | S fuel =>
    match current_token st with
    | None => Some (None, st)
    | Some token =>
      if matches 2 (Some 4) st then
        let '(node, st) := parse_action token st in Some (Some node, st)
      else if matches 1 (Some 4) st then
        '(node, st) ← parse_if_statement (parse_statement fuel) token st;
        Some (Some node, st)
      else if matches 1 (Some 11) st then
        '(node, st) ← parse_repeat_until_loop (parse_statement fuel) token st;
        Some (Some node, st)
      else if matches 1 (Some 8) st then
        '(node, st) ← parse_while_loop (parse_statement fuel) token st;
        Some (Some node, st)
      else if matches 1 (Some 7) st then Some (None, st)
      else if matches 1 (Some 10) st then Some (None, st)
      else
        Some (None, p_error (at_pos (tline token) (tpos token)
                ++ lit "Неожиданный токен '" ++ ttext token ++ lit "' типа "
                ++ str_nat (tclass token) ++ lit ".") st)
    end
  end.

(** The statement loop of [parse_program]: a statement that yields nothing
    is answered by skipping one token. *)
Fixpoint program_loop (fuel : nat) (parse_statement : stmt_parser)
    (st : parser) (node : Node) : option (Node * parser) :=
  if matches 1 (Some 3) st then Some (node, st)
  else if length (p_lex_table st) <=? p_position st then Some (node, st)
  else if matches 1 (Some 3) st || matches 1 (Some 13) st then Some (node, st)
  else
    match fuel with
    | O => None
    | S fuel =>
      r ← parse_statement st;
      match r with
      | (Some stmt, st) => program_loop fuel parse_statement st (add_child stmt node)
      | (None, st) =>
        let st := if p_position st <? length (p_lex_table st)
                  then snd (next_token st) else st in
        program_loop fuel parse_statement st node
      end
    end.

(** The fuel given to the statements of a program: more than its tokens. *)
Definition stmt_fuel (st : parser) : nat := S (length (p_lex_table st)).

(** [parse_program] *)
Definition parse_program (st : parser) : option (Node * parser) :=
  let node := new_node t_program None 1 1 in
  let '(startuml_token, st) := expect 1 (Some 1) (Some (lit "Ожидается '@startuml'")) st in
  match startuml_token with None => Some (node, st) | Some startuml_token =>
  let node := add_child (token_node t_startuml startuml_token) node in
  let '(start_token, st) := expect 1 (Some 2) (Some (lit "Ожидается 'start'")) st in
  match start_token with None => Some (node, st) | Some start_token =>
  let node := add_child (token_node t_start start_token) node in
  '(node, st) ← program_loop (body_fuel st) (parse_statement (stmt_fuel st)) st node;
  let '(stop_token, st) := expect 1 (Some 3) (Some (lit "Ожидается 'stop'")) st in
  match stop_token with None => Some (node, st) | Some stop_token =>
  let node := add_child (token_node t_stop stop_token) node in
  let '(enduml_token, st) := expect 1 (Some 13) (Some (lit "Ожидается '@enduml'")) st in
  match enduml_token with None => Some (node, st) | Some enduml_token =>
  Some (add_child (token_node t_enduml enduml_token) node, st)
  end end end end.

(** [PlantUMLSyntaxAnalyzer(lexer).parse()]: the root and the analyzer after
    the parse; the value [parse] returns is [parse_ok] of it. *)
Definition parse (lex_table : list Token) : option (Node * parser) :=
  parse_program {| p_lex_table := lex_table; p_position := 0; p_errors := [] |}.

Definition parse_ok (st : parser) : bool :=
  match p_errors st with [] => true | _ => false end.

Section Errors.
Context {U : UnicodeData}.

(** "Ошибка\s*\(([^)]+)\):\s*(.+)" *)
Definition RE_ERROR : regex :=
  seqs [str (lit "Ошибка"); Star ws; ch 40; Group 1 (plus (fun c => negb (c =? 41)%N));
        ch 41; ch 58; Star ws; Group 2 (plus dot)].

(** "(\d+),(\d+)" *)
Definition RE_POSITION : regex :=
  seqs [Group 1 (plus digit); ch 44; Group 2 (plus digit)].

Definition unattributed (message : pystr) : diagnostic :=
  {| d_type := Error; d_line := (-1)%Z; d_pos := (-1)%Z;
     d_message := message; d_source := SrcParser |}.

(** The body of the loop of [get_detailed_errors] *)
Definition detailed_error (error_msg : pystr) : diagnostic :=
  match rematch RE_ERROR error_msg with
  | None => unattributed error_msg
  | Some m =>
    let position_info := group' m 1 in
    let message := group' m 2 in
    if eqb (lower position_info) (lit "конец файла") then unattributed message
    else
      match rematch RE_POSITION position_info with
      | Some pos_match =>
        {| d_type := Error; d_line := int_of (group' pos_match 1);
           d_pos := int_of (group' pos_match 2);
           d_message := message; d_source := SrcParser |}
      | None => unattributed error_msg
      end
  end.

(** [get_detailed_errors] *)
Definition get_detailed_errors (st : parser) : list diagnostic :=
  map detailed_error (p_errors st).

End Errors.

End Parser.

(* ===================================================================== *)
(** * sema.py *)
(* ===================================================================== *)

Module Sema.
Import Py Re Constants Diag Parser.

Definition s_integer : pystr := Eval vm_compute in lit "integer".
Definition s_real : pystr := Eval vm_compute in lit "real".
Definition s_boolean : pystr := Eval vm_compute in lit "boolean".
Definition s_string : pystr := Eval vm_compute in lit "string".

(** ** Symbol *)

Record Symbol := {
  name : pystr;
  base_type : pystr;
  is_array : bool;
  array_size : nat * nat;
  declared : bool;
  line : option nat;
  pos : option nat }.

(** The property [Symbol.type] *)
Definition type_of (s : Symbol) : pystr :=
  if is_array s then
    lit "array[" ++ str_nat (fst (array_size s)) ++ lit ".."
      ++ str_nat (snd (array_size s)) ++ lit "] of " ++ base_type s
  else base_type s.

(** ** SymbolTable: the dictionary [symbols] *)

Abbreviation SymbolTable := (gmap pystr Symbol).

(** The widening step of [define]: [integer] becomes [real] on [real]
    evidence, and nothing else changes the base type. *)
Definition widen (var_type : pystr) (existing_type : pystr) : pystr :=
  if eqb var_type s_real && eqb existing_type s_integer then s_real else existing_type.

(** [SymbolTable.define] *)
Definition define (nm : pystr) (var_type : pystr) (is_arr : bool)
    (arr_size : option (nat * nat)) (decl : bool) (ln ps : option nat)
    (t : SymbolTable) : SymbolTable :=
  match t !! nm with
  | None =>
    <[nm := {| name := nm; base_type := var_type; is_array := is_arr;
               array_size := match arr_size with Some sz => sz | None => (0, 100) end;
               declared := decl; line := ln; pos := ps |}]> t
  | Some existing =>
    let replace_pos :=
      match ln, ps with
      | Some l, Some _ =>
        match line existing with
        | None => true
        | Some l0 => l <? l0
        end
      | _, _ => false
      end in
    <[nm := {| name := name existing;
               base_type := widen var_type (base_type existing);
               is_array := if is_arr then true else is_array existing;
               array_size :=
                 if is_arr then
                   match arr_size with Some sz => sz | None => array_size existing end
                 else array_size existing;
               declared := if decl then true else declared existing;
               line := if replace_pos then ln else line existing;
               pos := if replace_pos then ps else pos existing |}]> t
  end.

(** [define(name, line=line, pos=pos)]: all the other defaults *)
Definition define_default (nm : pystr) (ln ps : nat) : SymbolTable -> SymbolTable :=
  define nm s_integer false None false (Some ln) (Some ps).

Definition lookup (nm : pystr) (t : SymbolTable) : option Symbol := t !! nm.

(** ** SemanticAnalyzer *)

Record analyzer := {
  symbol_table : SymbolTable;
  errors : list pystr;
  warnings : list pystr }.

Definition with_table (f : SymbolTable -> SymbolTable) (a : analyzer) : analyzer :=
  {| symbol_table := f (symbol_table a); errors := errors a; warnings := warnings a |}.

Definition add_error (msg : pystr) (a : analyzer) : analyzer :=
  {| symbol_table := symbol_table a; errors := errors a ++ [msg]; warnings := warnings a |}.

Definition add_warning (msg : pystr) (a : analyzer) : analyzer :=
  {| symbol_table := symbol_table a; errors := errors a; warnings := warnings a ++ [msg] |}.

Definition error_at (ln ps : nat) : pystr :=
  lit "Ошибка (" ++ str_nat ln ++ lit "," ++ str_nat ps ++ lit "): ".

Definition warning_at (ln ps : nat) : pystr :=
  lit "Предупреждение (" ++ str_nat ln ++ lit "," ++ str_nat ps ++ lit "): ".

Definition in_input : pystr := Eval vm_compute in lit "Ввод:".
Definition in_output : pystr := Eval vm_compute in lit "Вывод:".

(** The patterns of the analyzer *)

(** "^[a-zA-Z_][a-zA-Z0-9_]*$" *)
Definition RE_IDENT : regex := seqs [Bol; identifier; Eol].

(** a quote, ".*", a quote, anchored at both ends *)
Definition RE_QUOTED : regex := seqs [Bol; Chr quote; Star dot; Chr quote; Eol].

(** ",\s*" *)
Definition RE_COMMA : regex := Seq (ch 44) (Star ws).

(** "(:?=)" as group [i] *)
Definition assign_op (i : nat) : regex := Group i (Seq (opt (ch 58)) (ch 61)).

(** "^([a-zA-Z_][a-zA-Z0-9_]*)\s*\[\s*(.+?)\s*\]\s*(:?=)\s*(.+)$" *)
Definition RE_ARRAY_ASSIGN : regex :=
  seqs [Bol; Group 1 identifier; Star ws; ch 91; Star ws; Group 2 (plus_lazy dot);
        Star ws; ch 93; Star ws; assign_op 3; Star ws; Group 4 (plus dot); Eol].

(** "^([a-zA-Z_][a-zA-Z0-9_]*)\s*(:?=)\s*(.+)$" *)
Definition RE_ASSIGN : regex :=
  seqs [Bol; Group 1 identifier; Star ws; assign_op 2; Star ws; Group 3 (plus dot); Eol].

Section Analysis.
Context {U : UnicodeData}.

(** [\w]: alphanumeric or underscore *)
Definition is_word (c : option N) : bool :=
  match c with Some c => isalnum c || (c =? 95)%N | None => false end.

(** [\b] *)
Definition word_boundary : regex := Look (fun p n => xorb (is_word p) (is_word n)).

(** "\b[a-zA-Z_][a-zA-Z0-9_]*\b" *)
Definition RE_WORD : regex := seqs [word_boundary; identifier; word_boundary].

Definition sign (c : N) : bool := (c =? 43)%N || (c =? 45)%N.

(** "[+-]?(\d+\.?\d*|\.\d+)" *)
Definition unsigned_number (i : nat) : regex :=
  Seq (opt (Chr sign))
      (Group i (Alt (seqs [plus digit; opt (ch 46); Star digit])
                    (Seq (ch 46) (plus digit)))).

(** "^[+-]?(\d+\.?\d*|\.\d+)([eE][+-]?\d+)?$" *)
Definition RE_NUMBER : regex :=
  seqs [Bol; unsigned_number 1;
        opt (Group 2 (seqs [Chr (fun c => (c =? 101)%N || (c =? 69)%N);
                            opt (Chr sign); plus digit]));
        Eol].

(** "^[+-]?(\d+\.?\d*|\.\d+)$" *)
Definition RE_DECIMAL : regex := seqs [Bol; unsigned_number 1; Eol].

Definition slash (c : N) : bool := (c =? 47)%N.

(** "[^/]=/\s*[^/]" *)
Definition RE_DIV_ASSIGN : regex :=
  seqs [Chr (fun c => negb (slash c)); ch 61; ch 47; Star ws; Chr (fun c => negb (slash c))].

(** "[^<>=]/[^=]" *)
Definition RE_DIV : regex :=
  seqs [Chr (fun c => negb ((c =? 60)%N || (c =? 62)%N || (c =? 61)%N)); ch 47;
        Chr (fun c => negb (c =? 61)%N)].

(** "[+\-*/()]" *)
Definition operator (c : N) : bool :=
  (c =? 43)%N || (c =? 45)%N || (c =? 42)%N || (c =? 47)%N || (c =? 40)%N || (c =? 41)%N.

(** "[a-zA-Z_][a-zA-Z0-9_]*|[\d.]+|[+\-*/()]" *)
Definition RE_OPERAND : regex :=
  Alt identifier (Alt (plus (fun c => digit c || (c =? 46)%N)) (Chr operator)).

Definition contains (c : N) (s : pystr) : bool := existsb (N.eqb c) s.

Definition is_arith (t : pystr) : bool :=
  eqb t [43%N] || eqb t [45%N] || eqb t [42%N] || eqb t [47%N].

(** The last loop of [infer_type]: a known [real] operand or a literal with
    a decimal point makes the expression [real]. *)
Fixpoint operands_real (t : SymbolTable) (tokens : list pystr) : bool :=
  match tokens with
  | [] => false
  | token :: tokens' =>
    if is_arith token then operands_real t tokens'
    else
      match rematch RE_IDENT token with
      | Some _ =>
        match lookup token t with
        | Some symbol => if eqb (type_of symbol) s_real then true else operands_real t tokens'
        | None => operands_real t tokens'
        end
      | None =>
        match rematch RE_DECIMAL token with
        | Some _ => if contains 46 token then true else operands_real t tokens'
        | None => operands_real t tokens'
        end
      end
  end.

(** [infer_type]; the recursive call is on the argument of [abs(...)], a
    shorter text, and [fuel] bounds the nesting. *)
Fixpoint infer_type (fuel : nat) (expression_str : pystr) (t : SymbolTable)
    : option pystr :=
  match fuel with
  | O => None
  | S fuel =>
    let expr := strip expression_str in
    if startswith (lit "abs(") expr && endswith (lit ")") expr then
      infer_type fuel (strip (take (length expr - 5) (drop 4 expr))) t
    else
      match rematch ARRAY_ACCESS_PATTERN expr with
      | Some array_match =>
        match lookup (group' array_match 1) t with
        | Some symbol => Some (if is_array symbol then base_type symbol else s_integer)
        | None => Some s_integer
        end
      | None =>
        if matched (rematch RE_QUOTED expr) then Some s_string
        else if eqb (lower expr) (lit "true") || eqb (lower expr) (lit "false")
        then Some s_boolean
        else if matched (rematch RE_NUMBER expr) then
          Some (if contains 46 expr || contains 101 (lower expr) then s_real else s_integer)
        else if matched (rematch RE_IDENT expr) then
          Some (match lookup expr t with
                | Some symbol => type_of symbol
                | None => s_integer
                end)
        else if (search RE_DIV_ASSIGN expr || search RE_DIV expr)
                && existsb (fun token => eqb (strip token) [47%N])
                     (split (Group 1 (Chr operator)) true expr)
        then Some s_real
        else
          Some (if operands_real t (findall RE_OPERAND expr) then s_real else s_integer)
      end
  end.

Definition infer (expression_str : pystr) (t : SymbolTable) : option pystr :=
  infer_type (S (length expression_str)) expression_str t.

(** [symbol = lookup(nm); if not symbol: warnings.append(...)]; [used] is
    the text of the warning after the name. *)
Definition lookup_warn (used : pystr) (nm : pystr) (ln ps : nat)
    (a : analyzer) : analyzer :=
  match lookup nm (symbol_table a) with
  | Some _ => a
  | None => add_warning (warning_at ln ps ++ lit "Переменная '" ++ nm ++ used) a
  end.

(** The loop of the input form over the names of the list *)
Definition analyze_input_var (ln ps : nat) (a : analyzer) (var_name : pystr) : analyzer :=
  if matched (rematch RE_IDENT var_name) then
    with_table (define var_name s_integer false None true (Some ln) (Some ps)) a
  else
    add_error (error_at ln ps ++ lit "Неверное имя переменной в Ввод: '"
                 ++ var_name ++ lit "'") a.

(** The loop of the output form over the items of the list *)
Definition analyze_output_part (ln ps : nat) (a : analyzer) (part : pystr) : analyzer :=
  match part with
  | [] => a
  | _ :: _ =>
    if matched (rematch RE_QUOTED part) then a
    else if matched (fullmatch RE_IDENT part) then
      with_table (define_default part ln ps)
        (lookup_warn (lit "' используется в 'Вывод:', но не объявлена ранее.")
           part ln ps a)
    else a
  end.

(** The loop of the array form over the identifiers of the index *)
Definition analyze_index_var (ln ps : nat) (a : analyzer) (idx_var : pystr) : analyzer :=
  if is_pascal_keyword (lower idx_var) then a
  else with_table (define_default idx_var ln ps) a.

(** The loop of the scalar form over the identifiers of the expression *)
Definition analyze_used_var (var_name : pystr) (ln ps : nat) (a : analyzer)
    (used_var : pystr) : analyzer :=
  if eqb used_var var_name then a
  else
    with_table (define_default used_var ln ps)
      (lookup_warn (lit "' используется в выражении, но не объявлена ранее.")
         used_var ln ps a).

Definition invalid_content (content : pystr) (ln ps : nat) : pystr :=
  error_at ln ps ++ lit "Недопустимое содержимое блока: '" ++ content
    ++ lit "'. Разрешены только: 'Ввод: ...', 'Вывод: ...', или 'переменная := выражение'.".

(** [_analyze_action_content] *)
Definition analyze_action_content (content : pystr) (ln ps : nat) (a : analyzer)
    : option analyzer :=
  let content := strip content in
  if startswith in_input content then
    let vars_str := strip (drop 5 content) in
    let var_names :=
      List.filter nonempty (map strip (split RE_COMMA false vars_str)) in
    Some (fold_left (analyze_input_var ln ps) var_names a)
  else if startswith in_output content then
    let output_content := strip (drop 6 content) in
    match output_content with
    | [] => Some (add_warning (warning_at ln ps ++ lit "Пустой вывод") a)
    | _ :: _ =>
      let parts := map strip (split_on 44 output_content []) in
      Some (fold_left (analyze_output_part ln ps) parts a)
    end
  else
    match rematch RE_ARRAY_ASSIGN content with
    | Some array_assign_match =>
      let arr_name := group' array_assign_match 1 in
      let index_expr := strip (group' array_assign_match 2) in
      let value_expr := strip (group' array_assign_match 4) in
      value_type ← infer value_expr (symbol_table a);
      let a := with_table (define arr_name value_type true None true (Some ln) (Some ps)) a in
      Some (fold_left (analyze_index_var ln ps) (findall RE_WORD index_expr) a)
    | None =>
      match rematch RE_ASSIGN content with
      | Some assignment_match =>
        let var_name := group' assignment_match 1 in
        let expression := strip (group' assignment_match 3) in
        var_type ← infer expression (symbol_table a);
        let a := with_table (define var_name var_type false None true (Some ln) (Some ps)) a in
        Some (fold_left (analyze_used_var var_name ln ps) (findall RE_WORD expression) a)
      | None => Some (add_error (invalid_content content ln ps) a)
      end
    end.

(** The loop of a counting-loop condition over the identifiers of a bound *)
Definition analyze_bound_var (ln ps : nat) (a : analyzer) (v : pystr) : analyzer :=
  if is_pascal_keyword (lower v) then a
  else with_table (define_default v ln ps) a.

(** The loop of an ordinary condition over its identifiers *)
Definition analyze_cond_var (ln ps : nat) (a : analyzer) (var_name : pystr) : analyzer :=
  if is_pascal_keyword (lower var_name) then a
  else
    with_table (define var_name s_integer false None true (Some ln) (Some ps))
      (lookup_warn (lit "' используется в условии, но не объявлена ранее.")
         var_name ln ps a).

Definition neq_py : pystr := Eval vm_compute in lit "!=".
Definition neq_pascal : pystr := Eval vm_compute in lit "<>".

(** [_analyze_condition_content] *)
Definition analyze_condition_content (content : pystr) (ln ps : nat) (a : analyzer)
    : analyzer :=
  let content := replace neq_py neq_pascal content in
  match rematch FOR_LOOP_PATTERN content with
  | Some for_match =>
    let counter_var := group' for_match 1 in
    let start_expr := strip (group' for_match 2) in
    let end_expr := strip (group' for_match 4) in
    let a := with_table (define counter_var s_integer false None true (Some ln) (Some ps)) a in
    fold_left
      (fun a expr => fold_left (analyze_bound_var ln ps) (findall RE_WORD expr) a)
      [start_expr; end_expr] a
  | None =>
    fold_left (analyze_cond_var ln ps) (findall RE_WORD content) a
  end.

(** [node_value] is true: a non-empty string *)
Definition truthy (v : option pystr) : option pystr :=
  match v with
  | Some (c :: s) => Some (c :: s)
  | _ => None
  end.

(** [_process_node] *)
Definition process_node (node : Node) (a : analyzer) : option analyzer :=
  match truthy (nvalue node) with
  | Some node_value =>
    if eqb (ntype node) t_action_content then
      analyze_action_content node_value (nline node) (npos node) a
    else if eqb (ntype node) t_condition_content then
      Some (analyze_condition_content node_value (nline node) (npos node) a)
    else Some a
  | None => Some a
  end.

(** [_visit]: the node, then its children from left to right *)
Fixpoint visit (node : Node) (a : analyzer) : option analyzer :=
  a ← process_node node a;
  (fix visit_all (cs : list Node) (a : analyzer) : option analyzer :=
     match cs with
     | [] => Some a
     | child :: cs' => a ← visit child a; visit_all cs' a
     end) (children node) a.

(** [analyze] *)
Definition analyze (ast_root_node : option Node) : option analyzer :=
  let a := {| symbol_table := ∅; errors := []; warnings := [] |} in
  match ast_root_node with
  | Some root => visit root a
  | None => Some a
  end.

(** "Ошибка \((\d+),(\d+)\): (.+)" and the same for a warning *)
Definition RE_ISSUE (head : pystr) : regex :=
  seqs [str head; ch 32; ch 40; Group 1 (plus digit); ch 44; Group 2 (plus digit);
        ch 41; ch 58; ch 32; Group 3 (plus dot)].

Definition issue_of (sev : severity) (head : pystr) (msg : pystr) : list diagnostic :=
  match rematch (RE_ISSUE head) msg with
  | Some m =>
    [{| d_type := sev; d_line := int_of (group' m 1); d_pos := int_of (group' m 2);
        d_message := group' m 3; d_source := SrcSemantic |}]
  | None => []
  end.

(** [get_all_issues]: a message that does not have the expected shape is
    dropped. *)
Definition get_all_issues (a : analyzer) : list diagnostic :=
  flat_map (issue_of Error (lit "Ошибка")) (errors a)
  ++ flat_map (issue_of Warning (lit "Предупреждение")) (warnings a).

End Analysis.

End Sema.

(* ===================================================================== *)
(** * code_generator.py *)
(* ===================================================================== *)

Module CodeGen.
Import Py Re Constants Diag Parser Sema.

(** ** PascalCodeGenerator: the fields written during generation *)

Record gen := {
  code_lines : list pystr;
  gerrors : list diagnostic;
  indent_level : nat }.

(** [_record_error(message, source_line)]; [source_pos] is never passed and
    keeps its default [-1]. *)
Definition record_error (message : pystr) (source_line : Z) (g : gen) : gen :=
  {| code_lines := code_lines g;
     gerrors := gerrors g ++
       [{| d_type := Error; d_line := source_line; d_pos := (-1)%Z;
           d_message := message; d_source := SrcGenerator |}];
     indent_level := indent_level g |}.

Definition indent_unit : pystr := Eval vm_compute in lit "    ".

(** ["    " * n] *)
Fixpoint indent (n : nat) : pystr :=
  match n with
  | O => []
  | S n => indent_unit ++ indent n
  end.

(** [_add_line] *)
Definition add_line (ln : pystr) (g : gen) : gen :=
  {| code_lines := code_lines g ++ [indent (indent_level g) ++ ln];
     gerrors := gerrors g; indent_level := indent_level g |}.

Definition indent_more (g : gen) : gen :=
  {| code_lines := code_lines g; gerrors := gerrors g; indent_level := S (indent_level g) |}.

Definition indent_less (g : gen) : gen :=
  {| code_lines := code_lines g; gerrors := gerrors g; indent_level := pred (indent_level g) |}.

Definition apostrophe : pystr := [39%N].

(** ['...'] with the apostrophes inside doubled *)
Definition pascal_quote (inner : pystr) : pystr :=
  apostrophe ++ replace apostrophe (apostrophe ++ apostrophe) inner ++ apostrophe.

(** [part[1:-1]] *)
Definition strip_ends (part : pystr) : pystr := take (length part - 2) (drop 1 part).

(** a quote, ".*?", a quote, as group 1 *)
Definition RE_LITERAL : regex := Group 1 (seqs [Chr quote; StarLazy dot; Chr quote]).

(** [_process_string_literals] *)
Definition process_string_literals (expr : pystr) : pystr :=
  match expr with
  | [] => expr
  | _ :: _ =>
    concat (map
      (fun part => if matched (rematch RE_QUOTED part) then pascal_quote (strip_ends part)
                   else part)
      (List.filter nonempty (split RE_LITERAL true expr)))
  end.

(** ** The declarations *)

(** The order of [sorted] on strings: by code point, a prefix first *)
Fixpoint str_leb (s t : pystr) : bool :=
  match s, t with
  | [], _ => true
  | _ :: _, [] => false
  | a :: s', b :: t' => (a <? b)%N || ((a =? b)%N && str_leb s' t')
  end.

Fixpoint insert_sorted (x : pystr) (l : list pystr) : list pystr :=
  match l with
  | [] => [x]
  | y :: l' => if str_leb x y then x :: l else y :: insert_sorted x l'
  end.

(** [sorted] of a set of strings *)
Definition sorted_set (l : list pystr) : list pystr :=
  fold_right (fun x acc => if existsb (eqb x) acc then acc else insert_sorted x acc) [] l.

(** What the first loop of [_generate_if], [_generate_while] and
    [_generate_repeat_until] has found; [value.replace] on a child without
    a value raises [AttributeError]. *)
Inductive found (A : Type) := Found (a : A) | Raised.
Arguments Found {A} a.
Arguments Raised {A}.

Section Generator.
Context {U : UnicodeData}.

(** [_generate_var_section]: the symbols that are no reserved words,
    grouped by declared type. *)
Definition generate_var_section (symbols : list Symbol) (g : gen) : gen :=
  let declared := List.filter (fun s => negb (is_pascal_keyword (lower (name s)))) symbols in
  match declared with
  | [] => g
  | _ :: _ =>
    let g := add_line (lit "VAR") g in
    let g :=
      fold_left
        (fun g var_type =>
           let names :=
             sorted_set (map name (List.filter (fun s => eqb (type_of s) var_type) declared)) in
           add_line (join (lit ", ") names ++ lit ": " ++ var_type ++ lit ";") g)
        (sorted_set (map type_of declared)) g in
    add_line [] g
  end.

(** [_generate_action] *)
Definition generate_action (content : option pystr) (line : nat) (g : gen) : gen :=
  match truthy content with
  | None => record_error (lit "Пустое содержимое действия") (Z.of_nat line) g
  | Some content =>
    let content := replace neq_py neq_pascal (strip content) in
    if startswith in_input content then
      let vars_str := strip (drop 5 content) in
      match vars_str with
      | [] => record_error (lit "Пустой список переменных в Ввод:") (Z.of_nat line) g
      | _ :: _ =>
        let var_names := List.filter nonempty (map strip (split RE_COMMA false vars_str)) in
        match var_names with
        | [] => g
        | _ :: _ => add_line (lit "readln(" ++ join (lit ", ") var_names ++ lit ");") g
        end
      end
    else if startswith in_output content then
      let output_content := strip (drop 6 content) in
      match output_content with
      | [] => add_line (lit "writeln();") g
      | _ :: _ =>
        let parts := map strip (split_on 44 output_content []) in
        let processed_parts :=
          map (fun part =>
                 if matched (rematch RE_QUOTED part) then pascal_quote (strip_ends part)
                 else if matched (fullmatch RE_IDENT part) then part
                 else pascal_quote part)
              (List.filter nonempty parts) in
        add_line (lit "writeln(" ++ join (lit ", ") processed_parts ++ lit ");") g
      end
    else
      match rematch RE_ASSIGN content with
      | Some assignment_match =>
        let var_name := group' assignment_match 1 in
        let expression := strip (group' assignment_match 3) in
        if matched (rematch RE_QUOTED expression) then
          let inner :=
            if (startswith [34%N] expression && endswith [34%N] expression)
               || (startswith apostrophe expression && endswith apostrophe expression)
            then strip_ends expression else expression in
          add_line (var_name ++ lit " := " ++ pascal_quote inner ++ lit ";") g
        else add_line (var_name ++ lit " := " ++ expression ++ lit ";") g
      | None =>
        match content with
        | [] => g
        | _ :: _ => add_line (content ++ lit ";") g
        end
      end
  end.

(** A child of the node being lowered, with the generator run over the
    child ([_visit(child)]) and over its own children
    ([for stmt in child.children: _visit(stmt)]). *)
Record kid := {
  k_node : Node;
  k_visit : gen -> gen;
  k_visit_children : gen -> gen }.

Definition no_replace : pystr :=
  Eval vm_compute in lit "'NoneType' object has no attribute 'replace'".

(** The children of an [if]: the condition, the [then] and the [else]
    branch; a later child of a kind replaces an earlier one. *)
Fixpoint if_parts (kids : list kid) (condition : pystr) (then_branch else_branch : option kid)
    : found (pystr * option kid * option kid) :=
  match kids with
  | [] => Found (condition, then_branch, else_branch)
  | child :: kids' =>
    if eqb (ntype (k_node child)) t_condition_content then
      match nvalue (k_node child) with
      | Some v => if_parts kids' (replace neq_py neq_pascal v) then_branch else_branch
      | None => Raised
      end
    else if eqb (ntype (k_node child)) t_then_branch then
      if_parts kids' condition (Some child) else_branch
    else if eqb (ntype (k_node child)) t_else_branch then
      if_parts kids' condition then_branch (Some child)
    else if_parts kids' condition then_branch else_branch
  end.

(** [for stmt in node.children: _visit(stmt)], given [_visit] *)
Fixpoint visit_each (visit : Node -> gen -> gen) (cs : list Node) : gen -> gen :=
  match cs with
  | [] => fun g => g
  | c :: cs' => fun g => visit_each visit cs' (visit c g)
  end.

Definition visit_branch (branch : option kid) (g : gen) : gen :=
  match branch with
  | Some b => k_visit_children b g
  | None => g
  end.

(** [_generate_if] *)
Definition generate_if (kids : list kid) (line : nat) (g : gen) : gen :=
  match if_parts kids [] None None with
  | Raised =>
    record_error (lit "Ошибка генерации IF-оператора: " ++ no_replace) (Z.of_nat line) g
  | Found (condition, then_branch, else_branch) =>
    match condition with
    | [] => record_error (lit "Отсутствует условие в IF-операторе") (Z.of_nat line) g
    | _ :: _ =>
      let g := add_line (lit "IF (" ++ condition ++ lit ") THEN") g in
      let g := add_line (lit "BEGIN") g in
      let g := indent_more g in
      let g := visit_branch then_branch g in
      let g := indent_less g in
      let g := add_line (lit "END") g in
      let g :=
        match else_branch with
        | Some b =>
          let g := add_line (lit "ELSE") g in
          let g := add_line (lit "BEGIN") g in
          let g := indent_more g in
          let g := k_visit_children b g in
          let g := indent_less g in
          add_line (lit "END") g
        | None => g
        end in
      add_line (lit ";") g
    end
  end.

(** The children of a loop: the condition and the body of kind [body_kind];
    in [_generate_repeat_until] the test of the body comes first. *)
Fixpoint loop_parts (body_kind : pystr) (body_first : bool) (kids : list kid)
    (condition : pystr) (body : option kid) : found (pystr * option kid) :=
  match kids with
  | [] => Found (condition, body)
  | child :: kids' =>
    let is_cond := eqb (ntype (k_node child)) t_condition_content in
    let is_body := eqb (ntype (k_node child)) body_kind in
    if (if body_first then is_body else false) then
      loop_parts body_kind body_first kids' condition (Some child)
    else if is_cond then
      match nvalue (k_node child) with
      | Some v => loop_parts body_kind body_first kids' (replace neq_py neq_pascal v) body
      | None => Raised
      end
    else if is_body then loop_parts body_kind body_first kids' condition (Some child)
    else loop_parts body_kind body_first kids' condition body
  end.

(** [_generate_while] *)
Definition generate_while (kids : list kid) (line : nat) (g : gen) : gen :=
  match loop_parts t_while_body false kids [] None with
  | Raised => record_error (lit "Ошибка генерации цикла: " ++ no_replace) (Z.of_nat line) g
  | Found (condition, body) =>
    match condition, body with
    | [], _ => record_error (lit "Отсутствует условие в цикле") (Z.of_nat line) g
    | _ :: _, None => record_error (lit "Отсутствует тело цикла") (Z.of_nat line) g
    | _ :: _, Some body =>
      match rematch FOR_LOOP_PATTERN condition with
      | Some for_match =>
        let counter_var := group' for_match 1 in
        let start_value := process_string_literals (strip (group' for_match 2)) in
        let direction := upper (group' for_match 3) in
        let end_value := process_string_literals (strip (group' for_match 4)) in
        let g := add_line (lit "FOR " ++ counter_var ++ lit " := " ++ start_value
                             ++ lit " " ++ direction ++ lit " " ++ end_value ++ lit " DO") g in
        let g := add_line (lit "BEGIN") g in
        let g := indent_more g in
        let g := k_visit_children body g in
        let g := indent_less g in
        add_line (lit "END;") g
      | None =>
        let g := add_line (lit "WHILE (" ++ condition ++ lit ") DO") g in
        let g := add_line (lit "BEGIN") g in
        let g := indent_more g in
        let g := k_visit_children body g in
        let g := indent_less g in
        add_line (lit "END;") g
      end
    end
  end.

(** [_generate_repeat_until] *)
Definition generate_repeat_until (kids : list kid) (line : nat) (g : gen) : gen :=
  match loop_parts t_repeat_body true kids [] None with
  | Raised =>
    record_error (lit "Ошибка генерации REPEAT-UNTIL цикла: " ++ no_replace) (Z.of_nat line) g
  | Found (condition, body) =>
    match body, condition with
    | None, _ => record_error (lit "Отсутствует тело REPEAT-UNTIL цикла") (Z.of_nat line) g
    | Some _, [] => record_error (lit "Отсутствует условие UNTIL") (Z.of_nat line) g
    | Some body, _ :: _ =>
      let g := add_line (lit "REPEAT") g in
      let g := indent_more g in
      let g := k_visit_children body g in
      let g := indent_less g in
      add_line (lit "UNTIL (" ++ condition ++ lit ");") g
    end
  end.

(** The dispatch of [_visit] on the node kind, the children already
    paired with their visits. *)
Definition visit_node (node : Node) (kids : list kid) (g : gen) : gen :=
  let node_type := ntype node in
  let visit_all := fold_left (fun g child => k_visit child g) kids in
  if eqb node_type t_program then visit_all g
  else if eqb node_type t_start then g
  else if eqb node_type t_action then
    fold_left
      (fun g child =>
         if eqb (ntype (k_node child)) t_action_content
         then generate_action (nvalue (k_node child)) (nline node) g else g)
      kids g
  else if eqb node_type t_if then generate_if kids (nline node) g
  else if eqb node_type t_while then generate_while kids (nline node) g
  else if eqb node_type t_repeat then generate_repeat_until kids (nline node) g
  else if eqb node_type t_stop then g
  else if eqb node_type t_then_branch || eqb node_type t_else_branch
          || eqb node_type t_while_body || eqb node_type t_repeat_body then visit_all g
  else if eqb node_type t_startuml || eqb node_type t_enduml
          || eqb node_type t_condition_content || eqb node_type t_branch_label then g
  else visit_all g.

(** [_visit].  The recursion of [_visit] through [_generate_if],
    [_generate_while] and [_generate_repeat_until] reaches children and
    grandchildren of the node; both are prepared here as [kid]s. *)
Fixpoint visit (node : Node) : gen -> gen :=
  match node with
  | mkNode _ _ cs _ _ =>
    visit_node node
      (map (fun c => {| k_node := c; k_visit := visit c;
                        k_visit_children := visit_each visit (children c) |}) cs)
  end.

(** The children of a node as [visit] prepares them *)
Definition kids_of (cs : list Node) : list kid :=
  map (fun c => {| k_node := c; k_visit := visit c;
                   k_visit_children := visit_each visit (children c) |}) cs.

Definition generated_header : pystr :=
  Eval vm_compute in lit "(* ОШИБКИ ГЕНЕРАЦИИ: ".

(** The comment that summarises the diagnostics *)
Definition error_comment (errs : list diagnostic) : pystr :=
  generated_header ++ join (lit "; ") (map d_message errs) ++ lit " *)".

Definition no_tree : pystr := Eval vm_compute in lit "Ошибка генерации: отсутствует AST дерево.".

(** [_validate_program_node] for a node that is there *)
Definition validate_program_node (node : Node) (g : gen) : bool * gen :=
  if eqb (ntype node) t_program then (true, g)
  else (false, record_error (lit "Ожидался узел типа 'program', получен '"
                               ++ ntype node ++ lit "'") (-1) g).

(** [PascalCodeGenerator(ast_root, symbol_table).generate()] for a root
    that is [None] or a tree of the parser: the text returned and the
    generator after it.  On such a root nothing is raised in the [try]
    block; [generate_any] below has the [except] branch. *)
Definition generate (ast_root : option Node) (symbol_table : SymbolTable) : pystr * gen :=
  let g := {| code_lines := []; gerrors := []; indent_level := 0 |} in
  match ast_root with
  | None => (no_tree, record_error (lit "Корневой узел AST отсутствует") (-1) g)
  | Some program_node =>
    let g := add_line (lit "PROGRAM Generated;") g in
    let g := add_line [] g in
    let g := generate_var_section (map snd (map_to_list symbol_table)) g in
    let g := add_line (lit "BEGIN") g in
    let g := indent_more g in
    let '(ok, g) := validate_program_node program_node g in
    let g :=
      if ok then
        fold_left
          (fun g child =>
             if eqb (ntype child) t_startuml || eqb (ntype child) t_enduml then g
             else visit child g)
          (children program_node) g
      else g in
    let g := indent_less g in
    let g := add_line (lit "END.") g in
    match gerrors g with
    | [] => (join [LF] (code_lines g), g)
    | _ :: _ => (error_comment (gerrors g) ++ [LF] ++ join [LF] (code_lines g), g)
    end
  end.

(** ** [generate] on whatever is handed to it as root *)

(** What the loop of [generate] finds among the children of the root: a
    node, or something whose [type] cannot be read ([None], an object
    without the attribute); [exc] is the text of the exception raised. *)
Inductive child := Child (n : Node) | NoType (exc : pystr).








End Generator.

End CodeGen.

(* ===================================================================== *)
(** * app.py: the pipeline behind [/generate-pascal] *)
(* ===================================================================== *)

Module App.
Import Py Diag.

(** The JSON answer, without the dumps of the symbols and of the tree *)
Record response := {
  success : bool;
  pascal_code : pystr;
  r_errors : list diagnostic;
  r_warnings : list diagnostic;
  status : nat }.

Definition failure (errs warns : list diagnostic) : response :=
  {| success := false; pascal_code := []; r_errors := errs; r_warnings := warns;
     status := 400 |}.

Definition is_error (d : diagnostic) : bool :=
  match d_type d with Error => true | Warning => false end.

Section Pipeline.
Context {U : UnicodeData}.

(** [generate_pascal] on a request whose body is a JSON object:
    [plantuml] is the field of that name when it is a string, [None] when
    the body is empty or has no such field.  (A field that is no string
    makes [PlantUMLLexer.__init__] raise; [response] leaves out the dumps of
    the tree and of the symbols, which exceed the recursion limit of the
    interpreter on a deeply nested diagram.)  The result is [None] only if
    a stage runs out of fuel. *)
Definition generate_pascal (plantuml : option pystr) : option response :=
  match plantuml with
  | None =>
    Some (failure [{| d_type := Error; d_line := (-1)%Z; d_pos := (-1)%Z;
                      d_message := lit "Не предоставлен код PlantUML";
                      d_source := SrcRequest |}] [])
  | Some plantuml_code =>
    lexer ← Lexer.scan plantuml_code;
    if negb (Lexer.scan_ok lexer) then
      Some (failure (Lexer.get_detailed_errors lexer) [])
    else
      '(ast_root, parser) ← Parser.parse (Lexer.get_lex_table lexer);
      if negb (Parser.parse_ok parser) then
        Some (failure (Parser.get_detailed_errors parser) [])
      else
        analyzer ← Sema.analyze (Some ast_root);
        let issues := Sema.get_all_issues analyzer in
        let all_errors := List.filter is_error issues in
        let all_warnings := List.filter (fun d => negb (is_error d)) issues in
        match all_errors with
        | _ :: _ => Some (failure all_errors all_warnings)
        | [] =>
          let '(code, g) := CodeGen.generate (Some ast_root) (Sema.symbol_table analyzer) in
          let all_errors := CodeGen.gerrors g in
          Some {| success := match all_errors with [] => true | _ => false end;
                  pascal_code := code;
                  r_errors := all_errors;
                  r_warnings := all_warnings;
                  status := 200 |}
        end
  end.



End Pipeline.

End App.

(* ===================================================================== *)
(** * Properties *)
(* ===================================================================== *)

Import Py Re Diag Constants.

(** The diagram of the round-trip example *)
Definition minimal_program : pystr :=
  lit "@startuml start :Ввод: x; stop @enduml".

(** The children of a node that are actions *)
Definition action_children (n : Parser.Node) : list Parser.Node :=
  List.filter (fun c => eqb (Parser.ntype c) Parser.t_action) (Parser.children n).

(** ** The code generator unfolds as written *)

Lemma visit_unfold (n : Parser.Node) :
  CodeGen.visit n = CodeGen.visit_node n (CodeGen.kids_of (Parser.children n)).
Proof. destruct n as [t v cs l p]. reflexivity. Qed.

(** C1: the minimal program scans without lexical errors, parses into a
    program node with exactly one action child, and the analysis declares
    [x] with base type integer and [declared = true]. *)
Theorem C1_minimal_program_round_trip (U : UnicodeData) :
  exists lx root ps an sym,
    Lexer.scan minimal_program = Some lx /\
    Lexer.errors lx = [] /\
    Parser.parse (Lexer.lex_table lx) = Some (root, ps) /\
    Parser.p_errors ps = [] /\
    Parser.ntype root = Parser.t_program /\
    length (action_children root) = 1 /\
    Sema.analyze (Some root) = Some an /\
    Sema.errors an = [] /\
    Sema.symbol_table an !! lit "x" = Some sym /\
    Sema.base_type sym = lit "integer" /\
    Sema.declared sym = true.
Proof.
  do 5 eexists.
  split; [vm_compute; reflexivity|].
  split; [reflexivity|].
  split; [vm_compute; reflexivity|].
  split; [reflexivity|].
  split; [reflexivity|].
  split; [reflexivity|].
  split; [vm_compute; reflexivity|].
  split; [reflexivity|].
  split; [vm_compute; reflexivity|].
  split; reflexivity.
Qed.

(** ** Strings *)

(** Replaces the literals of the goal by the code points they stand for. *)
Ltac norm_lit :=
  repeat match goal with
  | |- context [lit ?s] =>
    let v := eval vm_compute in (lit s) in
    replace (lit s) with v by (vm_compute; reflexivity)
  end.

Lemma eqb_eq (s t : pystr) : eqb s t = true <-> s = t.
Proof.
  revert t. induction s as [|a s IH]; intros [|b t]; simpl; split; try congruence; try done.
  - intros H. apply andb_true_iff in H as [H1 H2].
    apply N.eqb_eq in H1. apply IH in H2. congruence.
  - intros H. injection H as -> ->. rewrite N.eqb_refl. simpl. by apply IH.
Qed.

Lemma eqb_refl (s : pystr) : eqb s s = true.
Proof. by apply eqb_eq. Qed.

Lemma eqb_neq (s t : pystr) : eqb s t = false <-> s <> t.
Proof.
  split.
  - intros H E. apply eqb_eq in E. congruence.
  - intros H. destruct (eqb s t) eqn:E; [|done]. apply eqb_eq in E. done.
Qed.

(** ** The symbol table *)

(** The arguments of one call of [SymbolTable.define] on a given name *)
Record define_call := {
  c_type : pystr;
  c_is_array : bool;
  c_size : option (nat * nat);
  c_declared : bool;
  c_line : option nat;
  c_pos : option nat }.

Definition call (nm : pystr) (t : Sema.SymbolTable) (c : define_call) : Sema.SymbolTable :=
  Sema.define nm (c_type c) (c_is_array c) (c_size c) (c_declared c) (c_line c) (c_pos c) t.

(** A sequence of calls of [define] on the same name *)
Definition calls (nm : pystr) (cs : list define_call) (t : Sema.SymbolTable)
    : Sema.SymbolTable :=
  fold_left (call nm) cs t.

(** The four primitive kinds *)
Definition primitive (b : pystr) : Prop :=
  b = Sema.s_integer \/ b = Sema.s_real \/ b = Sema.s_boolean \/ b = Sema.s_string.

(** The only change of a base type: none, or integer to real *)
Definition widened (b b' : pystr) : Prop :=
  b' = b \/ (b = Sema.s_integer /\ b' = Sema.s_real).

Lemma widen_widened (v b : pystr) : widened b (Sema.widen v b).
Proof.
  unfold widened, Sema.widen.
  destruct (eqb v Sema.s_real); simpl; [|by left].
  destruct (eqb b Sema.s_integer) eqn:E; [|by left].
  apply eqb_eq in E. by right.
Qed.

Lemma widened_trans (a b c : pystr) : widened a b -> widened b c -> widened a c.
Proof.
  unfold widened. intros H1 H2.
  destruct H1 as [E1|[E1 E2]], H2 as [E3|[E3 E4]]; subst; auto.
Qed.

Lemma widened_primitive (b b' : pystr) : widened b b' -> primitive b -> primitive b'.
Proof. intros [->|[_ ->]] H; [done|]. right. by left. Qed.

Lemma widened_real (b b' : pystr) : widened b b' -> b = Sema.s_real -> b' = Sema.s_real.
Proof. intros [->|[-> ->]]; [done|]. discriminate. Qed.

Lemma call_existing (nm : pystr) (t : Sema.SymbolTable) (c : define_call) (s : Sema.Symbol) :
  t !! nm = Some s ->
  exists s', call nm t c !! nm = Some s' /\
    Sema.base_type s' = Sema.widen (c_type c) (Sema.base_type s) /\
    Sema.is_array s' = (if c_is_array c then true else Sema.is_array s).
Proof.
  intros H. unfold call, Sema.define. rewrite H.
  eexists. rewrite lookup_insert_eq. split; [reflexivity|]. by simpl.
Qed.

Lemma calls_existing (nm : pystr) (cs : list define_call) (t : Sema.SymbolTable)
    (s : Sema.Symbol) :
  t !! nm = Some s ->
  exists s', calls nm cs t !! nm = Some s' /\
    widened (Sema.base_type s) (Sema.base_type s') /\
    (Sema.is_array s = true -> Sema.is_array s' = true) /\
    (Sema.is_array s = false -> Forall (fun c => c_is_array c = false) cs ->
     Sema.is_array s' = false).
Proof.
  revert t s. induction cs as [|c cs IH]; intros t s H; simpl.
  - exists s. repeat split; auto. by left.
  - destruct (call_existing nm t c s H) as (s1 & H1 & Hb & Ha).
    destruct (IH _ _ H1) as (s' & H' & Hw & Harr & Hno).
    exists s'. split; [done|]. split; [|split].
    + eapply widened_trans; [|exact Hw]. rewrite Hb. apply widen_widened.
    + intros E. apply Harr. rewrite Ha, E. by destruct (c_is_array c).
    + intros E Hall. inversion Hall as [|? ? Hc Hcs]; subst.
      apply Hno; [|done]. by rewrite Ha, Hc.
Qed.

(** C3: over any sequence of [define] calls on a name that is in the table,
    the base type changes at most from integer to real (so real never goes
    back to integer, and a primitive kind stays primitive), a symbol marked
    as an array stays one, and real evidence on an integer symbol makes the
    final type real whatever follows. *)
Theorem C3_define_only_widens (nm : pystr) (cs : list define_call)
    (t : Sema.SymbolTable) (s : Sema.Symbol) (H : t !! nm = Some s) :
  exists s', calls nm cs t !! nm = Some s' /\
    widened (Sema.base_type s) (Sema.base_type s') /\
    (Sema.base_type s = Sema.s_real -> Sema.base_type s' = Sema.s_real) /\
    (primitive (Sema.base_type s) -> primitive (Sema.base_type s')) /\
    (Sema.is_array s = true -> Sema.is_array s' = true) /\
    (forall c, Sema.base_type s = Sema.s_integer -> c_type c = Sema.s_real ->
       exists s'', calls nm (c :: cs) t !! nm = Some s'' /\
         Sema.base_type s'' = Sema.s_real /\
         (Sema.is_array s = false ->
          Forall (fun c => c_is_array c = false) (c :: cs) ->
          Sema.type_of s'' = Sema.s_real)).
Proof.
  destruct (calls_existing nm cs t s H) as (s' & H' & Hw & Harr & _).
  exists s'. split; [done|]. split; [done|].
  split; [by apply widened_real|]. split; [by apply widened_primitive|].
  split; [done|].
  intros c Hint Hreal. simpl.
  destruct (call_existing nm t c s H) as (s1 & H1 & Hb & Ha).
  destruct (calls_existing nm cs _ s1 H1) as (s2 & H2 & Hw2 & _ & Hno).
  exists s2. split; [done|].
  assert (Sema.base_type s1 = Sema.s_real) as E1.
  { rewrite Hb, Hint, Hreal. reflexivity. }
  assert (Sema.base_type s2 = Sema.s_real) as E2 by (by apply (widened_real _ _ Hw2)).
  split; [done|].
  intros Hna Hall. inversion Hall as [|? ? Hc Hcs]; subst.
  unfold Sema.type_of. rewrite Hno; [done| |done]. by rewrite Ha, Hc.
Qed.

(** A table with the integer symbol [x], and real then integer evidence *)
Definition table_x : gmap pystr Sema.Symbol :=
  Sema.define (lit "x") Sema.s_integer false None true (Some 1) (Some 0) ∅.

Definition symbol_x : Sema.Symbol :=
  {| Sema.name := lit "x"; Sema.base_type := Sema.s_integer; Sema.is_array := false;
     Sema.array_size := (0, 100); Sema.declared := true;
     Sema.line := Some 1; Sema.pos := Some 0 |}.

Definition real_then_integer : list define_call :=
  [ {| c_type := Sema.s_real; c_is_array := false; c_size := None;
       c_declared := true; c_line := Some 2; c_pos := Some 0 |};
    {| c_type := Sema.s_integer; c_is_array := false; c_size := None;
       c_declared := true; c_line := Some 3; c_pos := Some 0 |} ].

Lemma C3_define_only_widens_witness :
  exists s', calls (lit "x") real_then_integer table_x !! lit "x" = Some s' /\
    Sema.base_type s' = Sema.s_real.
Proof.
  destruct (C3_define_only_widens (lit "x") real_then_integer table_x symbol_x
              ltac:(vm_compute; reflexivity)) as (s' & H & _ & _ & _ & _ & Hreal).
  exists s'. split; [exact H|].
  vm_compute in H. injection H as <-. reflexivity.
Defined.

(** ** The code generator *)

Definition g0 : CodeGen.gen :=
  {| CodeGen.code_lines := []; CodeGen.gerrors := []; CodeGen.indent_level := 0 |}.

Lemma visit_while (v : option pystr) (cs : list Parser.Node) (l p : nat) (g : CodeGen.gen) :
  CodeGen.visit (Parser.mkNode Parser.t_while v cs l p) g =
  CodeGen.generate_while (CodeGen.kids_of cs) l g.
Proof. rewrite visit_unfold. reflexivity. Qed.

(** The condition text of the counting-loop example *)
Definition for_condition : pystr := lit "i := 1 to 10".

(** What a counting loop over [body] looks like with the header [header] *)
Definition counting_loop (header : pystr) (body : CodeGen.kid) (g : CodeGen.gen)
    : CodeGen.gen :=
  CodeGen.add_line (lit "END;")
    (CodeGen.indent_less
       (CodeGen.k_visit_children body
          (CodeGen.indent_more
             (CodeGen.add_line (lit "BEGIN") (CodeGen.add_line header g))))).

(** A [while] node with the condition of the example, a label and no body:
    what the parser builds for [while (i := 1 to 10) is (y) endwhile (n)]. *)
Definition while_without_body : Parser.Node :=
  Parser.mkNode Parser.t_while None
    [ Parser.mkNode Parser.t_condition_content (Some for_condition) [] 1 23;
      Parser.mkNode Parser.t_branch_label (Some (lit "y")) [] 1 41;
      Parser.mkNode Parser.t_branch_label (Some (lit "n")) [] 1 54 ] 1 16.

Definition program_without_body : pystr :=
  lit "@startuml start while (i := 1 to 10) is (y) endwhile (n) stop @enduml".

(** C2, as stated, fails: a pre-test loop with the condition [i := 1 to 10]
    and an empty body is a program the parser accepts, and the generator
    emits no line at all for it (no counting loop), recording a diagnostic
    instead. *)
Lemma C2_counterexample_empty_body :
  (exists lx ps,
     Lexer.scan (U := cyrillic) program_without_body = Some lx /\
     Lexer.errors lx = [] /\
     Parser.parse (Lexer.lex_table lx) =
       Some (Parser.mkNode Parser.t_program None
               [ Parser.mkNode Parser.t_startuml (Some (lit "@startuml")) [] 1 0;
                 Parser.mkNode Parser.t_start (Some (lit "start")) [] 1 10;
                 while_without_body;
                 Parser.mkNode Parser.t_stop (Some (lit "stop")) [] 1 57;
                 Parser.mkNode Parser.t_enduml (Some (lit "@enduml")) [] 1 62 ] 1 1, ps) /\
     Parser.p_errors ps = []) /\
  CodeGen.code_lines (CodeGen.visit while_without_body g0) = [] /\
  map d_message (CodeGen.gerrors (CodeGen.visit while_without_body g0))
    = [lit "Отсутствует тело цикла"].
Proof.
  split; [|split; vm_compute; reflexivity].
  do 2 eexists. split; [vm_compute; reflexivity|].
  split; [reflexivity|]. split; [vm_compute; reflexivity|]. reflexivity.
Qed.

(** C2 (amended): a pre-test loop whose condition text is [i := 1 to 10]
    and that has a body is lowered to the counting loop
    [FOR i := 1 TO 10 DO] around the lowered body, never to a [WHILE] header;
    without a body nothing is emitted and a diagnostic is recorded. *)
Theorem C2_counting_loop_detected (v : option pystr) (cs : list Parser.Node)
    (l p : nat) (g : CodeGen.gen) (body : option CodeGen.kid)
    (H : CodeGen.loop_parts Parser.t_while_body false (CodeGen.kids_of cs) [] None
         = CodeGen.Found (for_condition, body)) :
  CodeGen.visit (Parser.mkNode Parser.t_while v cs l p) g =
  match body with
  | Some b => counting_loop (lit "FOR i := 1 TO 10 DO") b g
  | None => CodeGen.record_error (lit "Отсутствует тело цикла") (Z.of_nat l) g
  end.
Proof.
  rewrite visit_while. unfold CodeGen.generate_while. rewrite H.
  destruct body as [b|]; reflexivity.
Qed.

(** The loop [while (i := 1 to 10) is (y) :s := s + i; endwhile (n)] *)
Definition while_with_body : Parser.Node :=
  Parser.mkNode Parser.t_while None
    [ Parser.mkNode Parser.t_condition_content (Some for_condition) [] 1 23;
      Parser.mkNode Parser.t_branch_label (Some (lit "y")) [] 1 41;
      Parser.mkNode Parser.t_while_body None
        [ Parser.mkNode Parser.t_action None
            [ Parser.mkNode Parser.t_action_content (Some (lit "s := s + i")) [] 1 45 ]
            1 44 ] 0 0;
      Parser.mkNode Parser.t_branch_label (Some (lit "n")) [] 1 66 ] 1 16.

(** The body of that loop, as [visit] prepares it *)
Definition while_body_kid : CodeGen.kid :=
  let body :=
    Parser.mkNode Parser.t_while_body None
      [ Parser.mkNode Parser.t_action None
          [ Parser.mkNode Parser.t_action_content (Some (lit "s := s + i")) [] 1 45 ]
          1 44 ] 0 0 in
  {| CodeGen.k_node := body; CodeGen.k_visit := CodeGen.visit body;
     CodeGen.k_visit_children := CodeGen.visit_each CodeGen.visit (Parser.children body) |}.

Lemma C2_counting_loop_detected_witness :
  CodeGen.code_lines (CodeGen.visit while_with_body g0) =
  [ lit "FOR i := 1 TO 10 DO"; lit "BEGIN"; lit "    s := s + i;"; lit "END;" ].
Proof.
  pose proof (C2_counting_loop_detected None (Parser.children while_with_body)
                1 16 g0 (Some while_body_kid) eq_refl) as H.
  exact (eq_trans (f_equal CodeGen.code_lines H) eq_refl).
Defined.


(** ** Action payloads that have none of the three forms *)

(** C10, as stated, fails: the payload [a != b] has none of the three
    forms, and the statement emitted for it is [a <> b;], not the payload
    followed by a semicolon. *)
Lemma C10_counterexample_rewritten_payload :
  startswith Sema.in_input (lit "a != b") = false /\
  startswith Sema.in_output (lit "a != b") = false /\
  rematch Sema.RE_ASSIGN (lit "a != b") = None /\
  CodeGen.code_lines (CodeGen.generate_action (Some (lit "a != b")) 1 g0)
    = [lit "a <> b;"] /\
  lit "a <> b;" <> lit "a != b" ++ lit ";".
Proof. repeat split; try reflexivity. discriminate. Qed.

(** C10 (amended): for a non-empty payload whose text, trimmed and with
    [!=] rewritten to [<>], has none of the input, output and assignment
    forms, [_generate_action] emits that trimmed and rewritten text followed
    by a semicolon at the current indent (nothing when the text is empty),
    and records no diagnostic. *)
Theorem C10_other_payload_is_emitted_normalised (content : pystr) (line : nat)
    (g : CodeGen.gen)
    (Hne : content <> [])
    (Hin : startswith Sema.in_input
             (replace Sema.neq_py Sema.neq_pascal (strip content)) = false)
    (Hout : startswith Sema.in_output
              (replace Sema.neq_py Sema.neq_pascal (strip content)) = false)
    (Hassign : rematch Sema.RE_ASSIGN
                 (replace Sema.neq_py Sema.neq_pascal (strip content)) = None) :
  let text := replace Sema.neq_py Sema.neq_pascal (strip content) in
  CodeGen.generate_action (Some content) line g =
    match text with
    | [] => g
    | _ :: _ =>
      {| CodeGen.code_lines :=
           CodeGen.code_lines g
             ++ [CodeGen.indent (CodeGen.indent_level g) ++ text ++ lit ";"];
         CodeGen.gerrors := CodeGen.gerrors g;
         CodeGen.indent_level := CodeGen.indent_level g |}
    end /\
  CodeGen.gerrors (CodeGen.generate_action (Some content) line g) = CodeGen.gerrors g.
Proof.
  intros text. unfold CodeGen.generate_action.
  destruct content as [|c content]; [done|]. simpl Sema.truthy. cbv iota beta.
  fold text. fold text in Hin, Hout, Hassign.
  rewrite Hin, Hout, Hassign.
  destruct text; split; reflexivity.
Qed.

Lemma C10_other_payload_is_emitted_normalised_witness :
  CodeGen.code_lines (CodeGen.generate_action (Some (lit " a != b ")) 1 g0)
    = [lit "a <> b;"].
Proof.
  destruct (C10_other_payload_is_emitted_normalised (lit " a != b ") 1 g0
              ltac:(discriminate) ltac:(reflexivity) ltac:(reflexivity)
              ltac:(reflexivity)) as [H _].
  rewrite H. reflexivity.
Defined.

(** ** Trees *)

(** Induction over a tree and the trees below it *)
Lemma Node_induction (P : Parser.Node -> Prop) :
  (forall t v cs l p, Forall P cs -> P (Parser.mkNode t v cs l p)) ->
  forall n, P n.
Proof.
  intros step. fix IH 1. intros [t v cs l p]. apply step.
  induction cs as [|c cs IHcs]; constructor; [apply IH | exact IHcs].
Qed.

(** The action payloads of a tree, in the order of the traversal, each
    with the line and position of its node *)
Fixpoint action_payloads (n : Parser.Node) : list (pystr * nat * nat) :=
  match n with
  | Parser.mkNode t v cs l p =>
    (match Sema.truthy v with
     | Some payload => if eqb t Parser.t_action_content then [(payload, l, p)] else []
     | None => []
     end) ++ flat_map action_payloads cs
  end.

(** A payload that has none of the forms the analyzer accepts *)
Definition no_form (payload : pystr) : Prop :=
  startswith Sema.in_input (strip payload) = false /\
  startswith Sema.in_output (strip payload) = false /\
  rematch Sema.RE_ARRAY_ASSIGN (strip payload) = None /\
  rematch Sema.RE_ASSIGN (strip payload) = None.

(** The diagnostic of the analyzer for such a payload *)
Definition invalid (e : pystr * nat * nat) : pystr :=
  let '(payload, l, p) := e in Sema.invalid_content (strip payload) l p.

Section SemaFacts.
Context {U : UnicodeData}.

Lemma fold_errors {A : Type} (f : Sema.analyzer -> A -> Sema.analyzer) (l : list A)
    (a : Sema.analyzer) :
  (forall a x, Sema.errors (f a x) = Sema.errors a) ->
  Sema.errors (fold_left f l a) = Sema.errors a.
Proof.
  intros Hf. revert a. induction l as [|x l IH]; intros a; simpl; [done|].
  by rewrite IH, Hf.
Qed.

Lemma lookup_warn_errors (used nm : pystr) (ln ps : nat) (a : Sema.analyzer) :
  Sema.errors (Sema.lookup_warn used nm ln ps a) = Sema.errors a.
Proof. unfold Sema.lookup_warn. by destruct (Sema.lookup nm _). Qed.

(** The analysis of a condition records no error. *)
Lemma condition_errors (content : pystr) (ln ps : nat) (a : Sema.analyzer) :
  Sema.errors (Sema.analyze_condition_content content ln ps a) = Sema.errors a.
Proof.
  unfold Sema.analyze_condition_content.
  destruct (rematch FOR_LOOP_PATTERN _) as [m|].
  - rewrite fold_errors; [done|]. intros a' expr. rewrite fold_errors; [done|].
    intros a'' v. unfold Sema.analyze_bound_var. by destruct (is_pascal_keyword _).
  - rewrite fold_errors; [done|]. intros a' v. unfold Sema.analyze_cond_var.
    destruct (is_pascal_keyword _); [done|]. simpl. apply lookup_warn_errors.
Qed.

(** A payload of no form is answered by exactly one error. *)
Lemma action_no_form (payload : pystr) (ln ps : nat) (a : Sema.analyzer) :
  no_form payload ->
  Sema.analyze_action_content payload ln ps a =
  Some (Sema.add_error (Sema.invalid_content (strip payload) ln ps) a).
Proof.
  intros (Hin & Hout & Harr & Hassign). unfold Sema.analyze_action_content.
  by rewrite Hin, Hout, Harr, Hassign.
Qed.

Lemma visit_all_errors (cs : list Parser.Node) :
  Forall (fun n => Forall (fun e => no_form (fst (fst e))) (action_payloads n) ->
            forall a, exists a', Sema.visit n a = Some a' /\
              Sema.errors a' = Sema.errors a ++ map invalid (action_payloads n)) cs ->
  Forall (fun e => no_form (fst (fst e))) (flat_map action_payloads cs) ->
  forall a, exists a',
    (fix visit_all (cs : list Parser.Node) (a : Sema.analyzer) : option Sema.analyzer :=
       match cs with
       | [] => Some a
       | child :: cs' => a ← Sema.visit child a; visit_all cs' a
       end) cs a = Some a' /\
    Sema.errors a' = Sema.errors a ++ map invalid (flat_map action_payloads cs).
Proof.
  induction 1 as [|c cs Hc _ IH]; intros Hall a.
  - exists a. split; [done|]. simpl. by rewrite app_nil_r.
  - simpl in Hall. apply Forall_app in Hall as [Hall1 Hall2].
    destruct (Hc Hall1 a) as (a1 & E1 & Herr1).
    destruct (IH Hall2 a1) as (a2 & E2 & Herr2).
    exists a2. split.
    + rewrite E1. simpl. exact E2.
    + rewrite Herr2, Herr1. simpl. by rewrite map_app, app_assoc.
Qed.

(** The errors of the analysis of a tree whose action payloads all have no
    form: one per payload, in order. *)
Lemma visit_errors (n : Parser.Node) :
  Forall (fun e => no_form (fst (fst e))) (action_payloads n) ->
  forall a, exists a', Sema.visit n a = Some a' /\
    Sema.errors a' = Sema.errors a ++ map invalid (action_payloads n).
Proof.
  induction n as [t v cs l p IH] using Node_induction. intros Hall a.
  simpl in Hall. apply Forall_app in Hall as [Hhere Hbelow].
  assert (exists a1, Sema.process_node (Parser.mkNode t v cs l p) a = Some a1 /\
            Sema.errors a1 = Sema.errors a ++
              map invalid (match Sema.truthy v with
                           | Some payload =>
                             if eqb t Parser.t_action_content then [(payload, l, p)] else []
                           | None => []
                           end)) as (a1 & E1 & Herr1).
  { unfold Sema.process_node. simpl Parser.nvalue. simpl Parser.ntype.
    simpl Parser.nline. simpl Parser.npos.
    destruct (Sema.truthy v) as [payload|].
    - destruct (eqb t Parser.t_action_content).
      + inversion Hhere as [|? ? Hp _]; subst. simpl in Hp.
        rewrite (action_no_form _ _ _ _ Hp). eexists. split; [done|]. reflexivity.
      + destruct (eqb t Parser.t_condition_content).
        * eexists. split; [done|]. rewrite condition_errors. simpl. by rewrite app_nil_r.
        * eexists. split; [done|]. simpl. by rewrite app_nil_r.
    - eexists. split; [done|]. simpl. by rewrite app_nil_r. }
  destruct (visit_all_errors cs IH Hbelow a1) as (a2 & E2 & Herr2).
  exists a2. split.
  - simpl. simpl in E1. rewrite E1. simpl. exact E2.
  - rewrite Herr2, Herr1. simpl. by rewrite map_app, app_assoc.
Qed.

End SemaFacts.

(** ** The matcher on texts of a known shape *)

(** The matcher state after the characters [w] *)
Definition after (s : mstate) (w : pystr) : mstate :=
  fold_left
    (fun s c => {| rest := tail (rest s); mpos := S (mpos s); prev := Some c;
                   caps := caps s |}) w s.

Lemma after_app (s : mstate) (v w : pystr) : after s (v ++ w) = after (after s v) w.
Proof. unfold after. by rewrite fold_left_app. Qed.

Lemma rest_after (w tl : pystr) (s : mstate) :
  rest s = w ++ tl -> rest (after s w) = tl.
Proof.
  revert s. induction w as [|c w IH]; intros s H; simpl; [done|].
  apply IH. simpl. by rewrite H.
Qed.

Lemma step_after (c : N) (tl : pystr) (s : mstate) :
  rest s = c :: tl -> step s = Some (c, after s [c]).
Proof. intros H. unfold step, after. simpl. by rewrite H. Qed.

Section MatcherFacts.
Context {A : Type}.
Implicit Types (k : mstate -> option A) (s : mstate).

Lemma some_chr (p : N -> bool) (c : N) (tl : pystr) s k :
  rest s = c :: tl -> p c = true -> is_Some (k (after s [c])) ->
  is_Some (run (Chr p) s k).
Proof. intros H Hp Hk. simpl. by rewrite (step_after c tl s H), Hp. Qed.

Lemma some_ch (c : N) (tl : pystr) s k :
  rest s = c :: tl -> is_Some (k (after s [c])) -> is_Some (run (ch c) s k).
Proof. intros H. apply (some_chr _ c tl); [done|]. apply N.eqb_refl. Qed.

Lemma some_str (w tl : pystr) s k :
  rest s = w ++ tl -> is_Some (k (after s w)) -> is_Some (run (str w) s k).
Proof.
  revert s k. induction w as [|c w IH]; intros s k H Hk; simpl; [done|].
  rewrite (step_after c (w ++ tl) s H), N.eqb_refl.
  apply (IH _ _ (rest_after [c] _ _ H)). exact Hk.
Qed.

(** A greedy repetition succeeds as soon as the continuation succeeds
    after some run of characters of the class. *)
Lemma some_star_greedy (p : N -> bool) (ds tl : pystr) s k :
  rest s = ds ++ tl -> Forall (fun c => p c = true) ds ->
  is_Some (k (after s ds)) -> is_Some (star_greedy p (rest s) s k).
Proof.
  revert s. induction ds as [|d ds IH]; intros s H Hds Hk.
  - simpl in Hk. destruct (rest s) as [|c r] eqn:E; simpl; [done|].
    unfold step. rewrite E. destruct (p c); [|done].
    match goal with |- is_Some (match ?x with _ => _ end) => destruct x end; done.
  - inversion Hds as [|? ? Hd Hds']; subst.
    rewrite H. simpl. rewrite (step_after d (ds ++ tl) s H), Hd.
    assert (is_Some (star_greedy p (ds ++ tl) (after s [d]) k)) as [a Ha].
    { rewrite <- (rest_after [d] (ds ++ tl) s H).
      apply IH; [by apply (rest_after [d]) | done | done]. }
    by rewrite Ha.
Qed.

Lemma some_plus (p : N -> bool) (d : N) (ds tl : pystr) s k :
  rest s = d :: ds ++ tl -> p d = true -> Forall (fun c => p c = true) ds ->
  is_Some (k (after s (d :: ds))) -> is_Some (run (plus p) s k).
Proof.
  intros H Hd Hds Hk. unfold plus. simpl.
  rewrite (step_after d (ds ++ tl) s H), Hd.
  apply (some_star_greedy p ds tl); [by apply (rest_after [d]) | done | done].
Qed.

End MatcherFacts.

Lemma rest_close_group (i a : nat) (s : mstate) : rest (close_group i a s) = rest s.
Proof. reflexivity. Qed.

(** ** Numbers as text *)

Definition ascii_digit (c : N) : Prop := is_ascii_digit c = true.

Lemma digit_char_digit (n : nat) : ascii_digit (digit_char (n mod 10)).
Proof.
  unfold ascii_digit, digit_char, is_ascii_digit, in_range.
  pose proof (Nat.mod_upper_bound n 10 ltac:(lia)).
  apply andb_true_iff. split; apply N.leb_le; lia.
Qed.

Lemma str_nat_aux_step (fuel n : nat) (acc : pystr) :
  str_nat_aux (S fuel) n acc =
  if n / 10 =? 0 then digit_char (n mod 10) :: acc
  else str_nat_aux fuel (n / 10) (digit_char (n mod 10) :: acc).
Proof. reflexivity. Qed.

Lemma str_nat_aux_digits (fuel n : nat) (acc : pystr) :
  Forall ascii_digit acc -> Forall ascii_digit (str_nat_aux fuel n acc).
Proof.
  revert n acc. induction fuel as [|fuel IH]; intros n acc Hacc; [done|].
  rewrite str_nat_aux_step. destruct (n / 10 =? 0).
  - constructor; [apply digit_char_digit | done].
  - apply IH. constructor; [apply digit_char_digit | done].
Qed.

Lemma str_nat_aux_nonempty (fuel n : nat) (acc : pystr) :
  str_nat_aux (S fuel) n acc <> [].
Proof.
  revert n acc. induction fuel as [|fuel IH]; intros n acc;
    rewrite str_nat_aux_step; destruct (n / 10 =? 0); done.
Qed.

(** [str(n)] is a non-empty run of ASCII digits. *)
Lemma str_nat_shape (n : nat) :
  exists d ds, str_nat n = d :: ds /\ ascii_digit d /\ Forall ascii_digit ds.
Proof.
  pose proof (str_nat_aux_digits (S n) n [] ltac:(constructor)) as H.
  pose proof (str_nat_aux_nonempty n n []) as Hne.
  unfold str_nat. destruct (str_nat_aux (S n) n []) as [|d ds]; [done|].
  inversion H; subst. by exists d, ds.
Qed.

Lemma ascii_digit_digit {U : UnicodeData} (c : N) : ascii_digit c -> digit c = true.
Proof.
  unfold ascii_digit, digit, isdecimal, is_ascii_digit, in_range. intros H.
  apply andb_true_iff in H as [H1 H2]. apply N.leb_le in H1, H2.
  assert ((c <? 128)%N = true) as -> by (apply N.ltb_lt; lia).
  apply andb_true_iff. split; apply N.leb_le; lia.
Qed.

Lemma ascii_digits_digit {U : UnicodeData} (ds : pystr) :
  Forall ascii_digit ds -> Forall (fun c => digit c = true) ds.
Proof. intros H. eapply Forall_impl; [exact H|]. intros c. apply ascii_digit_digit. Qed.

Lemma run_seq {A : Type} (r1 r2 : regex) (s : mstate) (k : mstate -> option A) :
  run (Seq r1 r2) s k = run r1 s (fun s' => run r2 s' k).
Proof. reflexivity. Qed.

Lemma run_group {A : Type} (i : nat) (r : regex) (s : mstate) (k : mstate -> option A) :
  run (Group i r) s k = run r s (fun s' => k (close_group i (mpos s) s')).
Proof. reflexivity. Qed.

Section IssueFacts.
Context {U : UnicodeData}.

(** A message that starts with a position header is read back by
    [get_all_issues]. *)
Lemma header_matches (head : pystr) (ln ps : nat) (c : N) (msg : pystr) :
  c <> LF ->
  is_Some (rematch (Sema.RE_ISSUE head)
             (head ++ [32%N] ++ [40%N] ++ str_nat ln ++ [44%N] ++ str_nat ps
                ++ [41%N] ++ [58%N] ++ [32%N] ++ c :: msg)).
Proof.
  intros Hc.
  destruct (str_nat_shape ln) as (d1 & ds1 & -> & Hd1 & Hds1).
  destruct (str_nat_shape ps) as (d2 & ds2 & -> & Hd2 & Hds2).
  unfold rematch.
  match goal with
  | |- is_Some (?x ≫= _) => assert (is_Some x) as [f Hf]; [|rewrite Hf; done]
  end.
  unfold Sema.RE_ISSUE. cbn [seqs]. rewrite run_seq.
  set (s0 := start_state _).
  assert (rest s0 = head ++ [32%N] ++ [40%N] ++ (d1 :: ds1) ++ [44%N] ++ (d2 :: ds2)
                      ++ [41%N] ++ [58%N] ++ [32%N] ++ c :: msg) as R0 by reflexivity.
  eapply some_str; [exact R0|]. apply rest_after in R0.
  cbv beta; rewrite run_seq.
  eapply some_ch; [exact R0|]. apply (rest_after [32%N]) in R0.
  cbv beta; rewrite run_seq.
  eapply some_ch; [exact R0|]. apply (rest_after [40%N]) in R0.
  cbv beta; rewrite run_seq, run_group.
  eapply (some_plus _ d1 ds1);
    [exact R0 | by apply ascii_digit_digit | by apply ascii_digits_digit |].
  apply (rest_after (d1 :: ds1)) in R0.
  cbv beta; rewrite run_seq.
  eapply some_ch; [rewrite rest_close_group; exact R0|].
  match goal with
  | |- context [after ?s [44%N]] =>
    assert (rest (after s [44%N]) = (d2 :: ds2) ++ [41%N] ++ [58%N] ++ [32%N] ++ c :: msg)
      as R1 by (apply (rest_after [44%N]); rewrite rest_close_group; exact R0)
  end.
  cbv beta; rewrite run_seq, run_group.
  eapply (some_plus _ d2 ds2);
    [exact R1 | by apply ascii_digit_digit | by apply ascii_digits_digit |].
  apply (rest_after (d2 :: ds2)) in R1.
  cbv beta; rewrite run_seq.
  eapply some_ch; [rewrite rest_close_group; exact R1|].
  match goal with
  | |- context [after ?s [41%N]] =>
    assert (rest (after s [41%N]) = [58%N] ++ [32%N] ++ c :: msg)
      as R2 by (apply (rest_after [41%N]); rewrite rest_close_group; exact R1)
  end.
  cbv beta; rewrite run_seq.
  eapply some_ch; [exact R2|]. apply (rest_after [58%N]) in R2.
  cbv beta; rewrite run_seq.
  eapply some_ch; [exact R2|]. apply (rest_after [32%N]) in R2.
  cbv beta; rewrite run_group.
  eapply (some_plus _ c [] msg); [exact R2 | | constructor | done].
  unfold dot. apply negb_true_iff, N.eqb_neq. exact Hc.
Qed.

(** Every error the analyzer records for a payload of no form becomes a
    diagnostic of the answer. *)
Lemma invalid_issue (e : pystr * nat * nat) :
  exists d, Sema.issue_of Error (lit "Ошибка") (invalid e) = [d] /\
    d_type d = Error /\ d_source d = SrcSemantic.
Proof.
  destruct e as [[payload l] p]. unfold invalid, Sema.issue_of.
  destruct (header_matches (lit "Ошибка") l p 1053%N
              (lit "едопустимое содержимое блока: '" ++ strip payload
                 ++ lit "'. Разрешены только: 'Ввод: ...', 'Вывод: ...', или 'переменная := выражение'.")
              ltac:(discriminate)) as [m Hm].
  replace (Sema.invalid_content (strip payload) l p)
    with (lit "Ошибка" ++ [32%N] ++ [40%N] ++ str_nat l ++ [44%N] ++ str_nat p
            ++ [41%N] ++ [58%N] ++ [32%N] ++ 1053%N ::
            (lit "едопустимое содержимое блока: '" ++ strip payload
               ++ lit "'. Разрешены только: 'Ввод: ...', 'Вывод: ...', или 'переменная := выражение'.")).
  - rewrite Hm. eexists. split; [reflexivity|]. split; reflexivity.
  - unfold Sema.invalid_content, Sema.error_at. norm_lit.
    rewrite <- !app_assoc. reflexivity.
Qed.

End IssueFacts.

Section PipelineFacts.
Context {U : UnicodeData}.

Lemma warning_issues_are_no_errors (head : pystr) (ws : list pystr) :
  List.filter App.is_error (flat_map (Sema.issue_of Warning head) ws) = [].
Proof.
  induction ws as [|w ws IH]; simpl; [done|].
  rewrite List.filter_app, IH, app_nil_r.
  unfold Sema.issue_of. by destruct (rematch _ w).
Qed.

(** The errors of the answer when the analysis has recorded one error of
    the kind [invalid]. *)
Lemma one_invalid_issue (e : pystr * nat * nat) (an : Sema.analyzer) :
  Sema.errors an = [invalid e] ->
  exists d, List.filter App.is_error (Sema.get_all_issues an) = [d] /\
    d_source d = SrcSemantic.
Proof.
  intros H. unfold Sema.get_all_issues. rewrite H. simpl flat_map.
  destruct (invalid_issue e) as (d & Hd & Hty & Hsrc).
  rewrite Hd, List.filter_app, warning_issues_are_no_errors. simpl.
  unfold App.is_error at 1. rewrite Hty. by exists d.
Qed.

End PipelineFacts.

(** The diagram with the single action [???] *)
Definition program_with_question_marks : pystr :=
  lit "@startuml start :???; stop @enduml".

(** C7: when the only action payload of a program has none of the input,
    output and assignment forms, the analysis records exactly one error,
    the one for that payload, and the pipeline answers with that one
    semantic error and an empty generated text: the payload reaches no
    generated statement. *)
Theorem C7_invalid_payload_blocks_generation (U : UnicodeData) (src : pystr)
    (lx : Lexer.lexer) (root : Parser.Node) (ps : Parser.parser)
    (payload : pystr) (l p : nat)
    (Hscan : Lexer.scan src = Some lx) (Hlex : Lexer.errors lx = [])
    (Hparse : Parser.parse (Lexer.lex_table lx) = Some (root, ps))
    (Hsyn : Parser.p_errors ps = [])
    (Hone : action_payloads root = [(payload, l, p)])
    (Hform : no_form payload) :
  exists an d warns,
    Sema.analyze (Some root) = Some an /\
    Sema.errors an = [Sema.invalid_content (strip payload) l p] /\
    App.generate_pascal (Some src) =
      Some {| App.success := false; App.pascal_code := []; App.r_errors := [d];
              App.r_warnings := warns; App.status := 400 |} /\
    d_type d = Error /\ d_source d = SrcSemantic.
Proof.
  destruct (visit_errors root
              ltac:(rewrite Hone; constructor; [exact Hform | constructor])
              {| Sema.symbol_table := ∅; Sema.errors := []; Sema.warnings := [] |})
    as (an & Han & Herr).
  rewrite Hone in Herr. simpl in Herr.
  destruct (one_invalid_issue (payload, l, p) an Herr) as (d & Hd & Hsrc).
  exists an, d. eexists.
  split; [exact Han|]. split; [exact Herr|].
  assert (d_type d = Error) as Hty.
  { assert (In d (List.filter App.is_error (Sema.get_all_issues an))) as Hin
      by (rewrite Hd; by left).
    apply List.filter_In in Hin as [_ Hin]. unfold App.is_error in Hin.
    by destruct (d_type d). }
  split; [|by split].
  unfold App.generate_pascal. rewrite Hscan. simpl.
  unfold Lexer.scan_ok. rewrite Hlex. simpl.
  unfold Lexer.get_lex_table. rewrite Hparse. simpl.
  unfold Parser.parse_ok. rewrite Hsyn. simpl.
  unfold Sema.analyze in Han. rewrite Han. simpl.
  rewrite Hd. reflexivity.
Qed.

Lemma no_form_question_marks : no_form (lit "???").
Proof. repeat split; reflexivity. Qed.

Lemma C7_invalid_payload_blocks_generation_witness :
  exists resp, App.generate_pascal (U := cyrillic) (Some program_with_question_marks)
                 = Some resp /\
    App.pascal_code resp = [] /\ length (App.r_errors resp) = 1.
Proof.
  destruct (C7_invalid_payload_blocks_generation cyrillic program_with_question_marks
              _ _ _ (lit "???") 1 17
              ltac:(vm_compute; reflexivity) eq_refl
              ltac:(vm_compute; reflexivity) eq_refl
              ltac:(vm_compute; reflexivity) no_form_question_marks)
    as (an & d & warns & _ & _ & H & _).
  eexists. split; [exact H|]. split; reflexivity.
Defined.

(** ** Diagnostics and their positions *)

(** The diagram whose action has no payload *)
Definition program_without_payload : pystr :=
  lit "@startuml start :; stop @enduml".

(** C9: the code at the failing input.  The parser finds the [";"] at line
    1, column 17 where a payload should be, and writes that position into
    the message with a blank after the comma; [get_detailed_errors] does not
    read the header back and reports line -1 and position -1 for it, while
    the next message about the same token keeps (1, 17).  A diagnostic of
    the generator carries the line of its node and position -1. *)
Theorem C9_positioned_error_reported_without_position (U : UnicodeData) :
  (exists lx root ps,
     Lexer.scan program_without_payload = Some lx /\
     Lexer.errors lx = [] /\
     Parser.parse (Lexer.lex_table lx) = Some (root, ps) /\
     Parser.p_errors ps =
       [ lit "Ошибка (1, 17): Ожидается содержимое действия после ':'";
         lit "Ошибка (1,17): Неожиданный токен ';' типа 2." ] /\
     Parser.get_detailed_errors ps =
       [ {| d_type := Error; d_line := (-1)%Z; d_pos := (-1)%Z;
            d_message := lit "Ошибка (1, 17): Ожидается содержимое действия после ':'";
            d_source := SrcParser |};
         {| d_type := Error; d_line := 1%Z; d_pos := 17%Z;
            d_message := lit "Неожиданный токен ';' типа 2.";
            d_source := SrcParser |} ]) /\
  (exists resp,
     App.generate_pascal (Some program_without_body) = Some resp /\
     App.r_errors resp =
       [ {| d_type := Error; d_line := 1%Z; d_pos := (-1)%Z;
            d_message := lit "Отсутствует тело цикла";
            d_source := SrcGenerator |} ]).
Proof.
  split.
  - do 3 eexists. split; [vm_compute; reflexivity|]. split; [reflexivity|].
    split; [vm_compute; reflexivity|]. split; vm_compute; reflexivity.
  - eexists. split; vm_compute; reflexivity.
Qed.

(* ===================================================================== *)
(** * The scanner: positions, progress and coordinates *)
(* ===================================================================== *)

(** The scanner looks at the character under its position; past the end
    of the source that is the sentinel. *)
Definition wf (st : Lexer.lexer) : Prop :=
  Lexer.current_char st = nth (Lexer.position st) (Lexer.source st) NUL.

(** [n] calls of [advance] *)
Fixpoint advance_n (n : nat) (st : Lexer.lexer) : Lexer.lexer :=
  match n with
  | O => st
  | S n => advance_n n (Lexer.advance st)
  end.

(** The length of the longest prefix of [l] within the class [cond] *)
Fixpoint prefix_len (cond : N -> bool) (l : pystr) : nat :=
  match l with
  | c :: l' => if cond c then S (prefix_len cond l') else 0
  | [] => 0
  end.

(** The number of turns of a loop [while cond(current_char): advance()] *)
Definition run_len (cond : N -> bool) (st : Lexer.lexer) : nat :=
  prefix_len cond (drop (Lexer.position st) (Lexer.source st)).

(** The line (from 1) and the column (from 0) reached after the text [l] *)
Definition coord_step (lc : nat * nat) (c : N) : nat * nat :=
  if (c =? LF)%N then (S (fst lc), 0) else (fst lc, S (snd lc)).

Definition coord_of (l : pystr) : nat * nat := fold_left coord_step l (1, 0).

(** The counters of the scanner are the coordinates of its position. *)
Definition coords (st : Lexer.lexer) : Prop :=
  (Lexer.line_num st, Lexer.char_pos st)
  = coord_of (take (Lexer.position st) (Lexer.source st)).

(** The source ends with the sentinel. *)
Definition sentinel (src : pystr) : Prop := exists body, src = body ++ [NUL].

(** The fused token of the compound keyword *)
Definition fused (t : Lexer.Token) : bool :=
  (Lexer.tclass t =? 1) && (Lexer.tvalue t =? 12)
  && eqb (Lexer.ttext t) Lexer.text_repeat_while.

Definition has_fused (l : list Lexer.Token) : bool := existsb fused l.

Section Good.
Context {U : UnicodeData}.

(** A token whose line and position locate its lexeme in [src]: [k] is the
    offset at which the lexeme was collected, the line counts from 1 and the
    position is the column counted from 0.  For a keyword and a delimiter
    [k] is the offset of the first character; for a payload it is the
    offset just after the introducer, and the text is what follows, trimmed. *)
Definition good (src : pystr) (t : Lexer.Token) : Prop :=
  exists k, k < length src /\
    (Lexer.tline t, Lexer.tpos t) = coord_of (take k src) /\
    ((Lexer.tclass t = 1 /\ Lexer.word_start (nth k src NUL) = true /\
      exists n, Lexer.ttext t = strip (take n (drop k src))) \/
     (Lexer.tclass t = 2 /\ Lexer.ttext t = [nth k src NUL]) \/
     (Lexer.tclass t = 4 /\ 0 < k /\ nth (k - 1) src NUL = Lexer.c_colon /\
      exists n, Lexer.ttext t = strip (take n (drop k src))) \/
     (Lexer.tclass t = 5 /\ 0 < k /\ nth (k - 1) src NUL = Lexer.c_lparen /\
      exists n, Lexer.ttext t = strip (take n (drop k src)))).

(** The fused token stands where its [repeat] starts: [k] is the offset of
    the first character of that word. *)
Definition at_repeat (src : pystr) (t : Lexer.Token) : Prop :=
  fused t = true /\
  exists k, k < length src /\
    (Lexer.tline t, Lexer.tpos t) = coord_of (take k src) /\
    Lexer.word_start (nth k src NUL) = true /\
    exists n, lower (strip (take n (drop k src))) = lit "repeat".

(** Tokens that are [good] up to a first fused token, which stands where
    its [repeat] starts *)
Definition fused_first (src : pystr) (new : list Lexer.Token) : Prop :=
  exists pre f post, new = pre ++ f :: post /\ Forall (good src) pre /\ at_repeat src f.

(** What a piece of the scanner does to a state that satisfies [wf]: the
    source is kept, the position stays within it, tokens are only appended,
    and either the new tokens are [good] up to a first fused token or the
    counters still are the coordinates of the position and the new tokens
    are [good]. *)
Definition scanned (st st' : Lexer.lexer) : Prop :=
  exists new,
    Lexer.source st' = Lexer.source st /\
    wf st' /\
    Lexer.position st' <= length (Lexer.source st) /\
    Lexer.lex_table st' = Lexer.lex_table st ++ new /\
    (coords st ->
     fused_first (Lexer.source st) new \/
     (coords st' /\ Forall (good (Lexer.source st)) new)).

End Good.

(** The state of the scanner between two pieces of [scan] *)
Definition ready (st : Lexer.lexer) : Prop :=
  wf st /\ sentinel (Lexer.source st) /\ Lexer.position st <= length (Lexer.source st).

Section LexerFacts.
Context {U : UnicodeData}.
Import Lexer.

Ltac lx := cbn [source position buffer current_char identifier_table constant_table
                identifiers constants id_counter const_counter lex_table line_num
                char_pos errors advance make_token add_error set_buffer set_position] in *.

(** ** Lists and positions *)

Lemma nth_drop (i j : nat) (l : pystr) : nth j (drop i l) NUL = nth (i + j) l NUL.
Proof.
  revert l. induction i as [|i IH]; intros l; simpl; [by rewrite drop_0|].
  destruct l as [|c l]; simpl; [by destruct j|]. apply IH.
Qed.

Lemma drop_nth (i : nat) (l : pystr) :
  i < length l -> drop i l = nth i l NUL :: drop (S i) l.
Proof.
  revert l. induction i as [|i IH]; intros [|c l] H; simpl in *; try lia; [done|].
  apply IH. lia.
Qed.

Lemma take_nth (i : nat) (l : pystr) :
  i < length l -> take (S i) l = take i l ++ [nth i l NUL].
Proof.
  revert l. induction i as [|i IH]; intros [|c l] H; simpl in *; try lia; [done|].
  f_equal. apply IH. lia.
Qed.

Lemma nth_not_nul (i : nat) (l : pystr) : nth i l NUL <> NUL -> i < length l.
Proof.
  intros H. destruct (decide (i < length l)) as [|Hge]; [done|].
  rewrite nth_overflow in H by lia. done.
Qed.

Lemma sentinel_last (src : pystr) :
  sentinel src -> 0 < length src /\ nth (length src - 1) src NUL = NUL.
Proof.
  intros [body ->]. rewrite length_app. simpl. split; [lia|].
  rewrite app_nth2 by lia. replace (length body + 1 - 1 - length body) with 0 by lia.
  reflexivity.
Qed.

(** A character that is not the sentinel stands before the last place. *)
Lemma before_sentinel (i : nat) (src : pystr) :
  sentinel src -> nth i src NUL <> NUL -> i < length src - 1.
Proof.
  intros Hs H. pose proof (nth_not_nul _ _ H). destruct (sentinel_last _ Hs) as [_ Hl].
  destruct (decide (i = length src - 1)) as [->|]; [done|lia].
Qed.

Lemma prefix_len_le (cond : N -> bool) (l : pystr) : prefix_len cond l <= length l.
Proof. induction l as [|c l IH]; simpl; [lia|]. destruct (cond c); lia. Qed.

(** The loop stops at the first character outside the class. *)
Lemma prefix_len_stop (cond : N -> bool) (l : pystr) (j : nat) :
  cond (nth j l NUL) = false -> j < length l -> prefix_len cond l <= j.
Proof.
  revert j. induction l as [|c l IH]; intros j Hc Hj; simpl in *; [lia|].
  destruct j as [|j]; [by rewrite Hc|]. destruct (cond c); [|lia].
  specialize (IH j Hc). lia.
Qed.

Lemma prefix_len_end (cond : N -> bool) (l : pystr) :
  cond NUL = false -> cond (nth (prefix_len cond l) l NUL) = false.
Proof.
  intros H0. induction l as [|c l IH]; simpl; [done|].
  destruct (cond c) eqn:E; [exact IH | exact E].
Qed.

Lemma prefix_len_all (cond : N -> bool) (l : pystr) :
  Forall (fun c => cond c = true) (take (prefix_len cond l) l).
Proof.
  induction l as [|c l IH]; simpl; [constructor|].
  destruct (cond c) eqn:E; simpl; constructor; done.
Qed.

(** ** [advance] *)

Lemma advance_wf (st : lexer) : wf (advance st).
Proof.
  unfold wf. lx. destruct (length (source st) <=? S (position st)) eqn:E; [|done].
  apply Nat.leb_le in E. by rewrite nth_overflow.
Qed.

Lemma set_position_wf (p : nat) (st : lexer) : wf (set_position p st).
Proof.
  unfold wf. lx. destruct (p <? length (source st)) eqn:E; [done|].
  apply Nat.ltb_ge in E. by rewrite nth_overflow.
Qed.

Lemma advance_coords (st : lexer) :
  wf st -> position st < length (source st) -> coords st -> coords (advance st).
Proof.
  unfold wf, coords. intros Hwf Hlt Hc. lx.
  rewrite take_nth by done. unfold coord_of in *. rewrite fold_left_app, <- Hc.
  simpl. unfold coord_step. rewrite <- Hwf. simpl.
  by destruct (current_char st =? LF)%N.
Qed.

Lemma advance_n_source (n : nat) (st : lexer) : source (advance_n n st) = source st.
Proof. revert st. induction n as [|n IH]; intros st; simpl; [done|]. by rewrite IH. Qed.

Lemma advance_n_position (n : nat) (st : lexer) :
  position (advance_n n st) = position st + n.
Proof.
  revert st. induction n as [|n IH]; intros st; simpl; [lia|]. rewrite IH. lx. lia.
Qed.

Lemma advance_n_lex_table (n : nat) (st : lexer) :
  lex_table (advance_n n st) = lex_table st.
Proof. revert st. induction n as [|n IH]; intros st; simpl; [done|]. by rewrite IH. Qed.

Lemma advance_n_errors (n : nat) (st : lexer) : errors (advance_n n st) = errors st.
Proof. revert st. induction n as [|n IH]; intros st; simpl; [done|]. by rewrite IH. Qed.

Lemma advance_n_buffer (n : nat) (st : lexer) : buffer (advance_n n st) = buffer st.
Proof. revert st. induction n as [|n IH]; intros st; simpl; [done|]. by rewrite IH. Qed.

Lemma advance_n_wf (n : nat) (st : lexer) : wf st -> wf (advance_n n st).
Proof.
  revert st. induction n as [|n IH]; intros st H; simpl; [done|].
  apply IH, advance_wf.
Qed.

Lemma advance_n_coords (n : nat) (st : lexer) :
  wf st -> position st + n <= length (source st) -> coords st ->
  coords (advance_n n st).
Proof.
  revert st. induction n as [|n IH]; intros st Hwf Hle Hc; simpl; [done|].
  apply IH; [apply advance_wf | lx; lia | apply advance_coords; [done|lia|done]].
Qed.

Lemma advance_n_set_buffer (n : nat) (b : pystr) (st : lexer) :
  advance_n n (set_buffer b st) = set_buffer b (advance_n n st).
Proof. revert st. induction n as [|n IH]; intros st; simpl; [done|]. by rewrite <- IH. Qed.

(** ** The inner loops *)

Lemma advance_while_eq (fuel : nat) (cond : N -> bool) (st : lexer) :
  advance_while fuel cond st =
  if cond (current_char st) then
    match fuel with
    | O => None
    | S fuel => advance_while fuel cond (advance st)
    end
  else Some st.
Proof. by destruct fuel. Qed.

Lemma collect_while_eq (fuel : nat) (cond : N -> bool) (st : lexer) :
  collect_while fuel cond st =
  if cond (current_char st) then
    match fuel with
    | O => None
    | S fuel =>
        collect_while fuel cond (advance (set_buffer (buffer st ++ [current_char st]) st))
    end
  else Some st.
Proof. by destruct fuel. Qed.

(** A loop turns while the character is in the class; with a class that
    excludes the sentinel this is a bounded number of turns. *)
Lemma run_len_turn (cond : N -> bool) (st : lexer) :
  wf st -> cond NUL = false -> cond (current_char st) = true ->
  position st < length (source st) /\ run_len cond st = S (run_len cond (advance st)).
Proof.
  intros Hwf H0 Hc.
  assert (position st < length (source st)) as Hlt.
  { apply nth_not_nul. rewrite <- Hwf. intros E. rewrite E in Hc. congruence. }
  split; [done|]. unfold run_len. lx.
  rewrite (drop_nth (position st)) by done. simpl. by rewrite <- Hwf, Hc.
Qed.

Lemma run_len_stop (cond : N -> bool) (st : lexer) :
  wf st -> cond (current_char st) = false -> run_len cond st = 0.
Proof.
  intros Hwf Hc. unfold run_len.
  destruct (decide (position st < length (source st))) as [Hlt|Hge].
  - rewrite (drop_nth (position st)) by done. simpl. by rewrite <- Hwf, Hc.
  - by rewrite drop_ge by lia.
Qed.

(** The loop [while cond(current_char): advance()] ends, after [run_len]
    turns. *)
Lemma advance_while_spec (fuel : nat) (cond : N -> bool) (st : lexer) :
  wf st -> cond NUL = false -> length (source st) - position st <= fuel ->
  advance_while fuel cond st = Some (advance_n (run_len cond st) st).
Proof.
  intros Hwf H0. revert st Hwf. induction fuel as [|fuel IH]; intros st Hwf Hfuel;
    rewrite advance_while_eq; destruct (cond (current_char st)) eqn:Hc.
  - destruct (run_len_turn cond st Hwf H0 Hc). lia.
  - by rewrite run_len_stop.
  - destruct (run_len_turn cond st Hwf H0 Hc) as [Hlt ->]. simpl.
    apply IH; [apply advance_wf | lx; lia].
  - by rewrite run_len_stop.
Qed.

(** The loop that also collects the characters into [buffer] *)
Lemma collect_while_spec (fuel : nat) (cond : N -> bool) (st : lexer) :
  wf st -> cond NUL = false -> length (source st) - position st <= fuel ->
  collect_while fuel cond st =
  Some (set_buffer
          (buffer st ++ take (run_len cond st) (drop (position st) (source st)))
          (advance_n (run_len cond st) st)).
Proof.
  intros Hwf H0. revert st Hwf. induction fuel as [|fuel IH]; intros st Hwf Hfuel;
    rewrite collect_while_eq; destruct (cond (current_char st)) eqn:Hc.
  - destruct (run_len_turn cond st Hwf H0 Hc). lia.
  - rewrite run_len_stop by done. simpl. rewrite app_nil_r. by destruct st.
  - destruct (run_len_turn cond st Hwf H0 Hc) as [Hlt E].
    rewrite IH; [|apply advance_wf | lx; lia].
    assert (run_len cond (advance (set_buffer (buffer st ++ [current_char st]) st))
            = run_len cond (advance st)) as -> by reflexivity.
    rewrite E. simpl advance_n. f_equal.
    change (advance (set_buffer (buffer st ++ [current_char st]) st))
      with (set_buffer (buffer st ++ [current_char st]) (advance st)).
    rewrite advance_n_set_buffer. lx.
    rewrite (drop_nth (position st)) by done. simpl take.
    rewrite <- Hwf, <- app_assoc. reflexivity.
  - rewrite run_len_stop by done. simpl. rewrite app_nil_r. by destruct st.
Qed.

(** Where a loop stops: within the source, at a character outside the
    class, before or at the sentinel. *)
Lemma run_len_bound (cond : N -> bool) (st : lexer) :
  position st <= length (source st) ->
  position st + run_len cond st <= length (source st).
Proof.
  intros H. unfold run_len.
  pose proof (prefix_len_le cond (drop (position st) (source st))) as Hle.
  rewrite length_drop in Hle. lia.
Qed.

Lemma run_len_before_sentinel (cond : N -> bool) (st : lexer) :
  sentinel (source st) -> cond NUL = false ->
  position st < length (source st) ->
  position st + run_len cond st < length (source st).
Proof.
  intros Hs H0 Hlt. destruct (sentinel_last _ Hs) as [Hpos Hl]. unfold run_len.
  pose proof (prefix_len_stop cond (drop (position st) (source st))
                (length (source st) - 1 - position st)) as Hstop.
  rewrite nth_drop, length_drop in Hstop.
  replace (position st + (length (source st) - 1 - position st))
    with (length (source st) - 1) in Hstop by lia.
  rewrite Hl in Hstop. specialize (Hstop H0). lia.
Qed.

Lemma run_len_char (cond : N -> bool) (st : lexer) :
  wf st -> cond NUL = false ->
  cond (current_char (advance_n (run_len cond st) st)) = false.
Proof.
  intros Hwf H0. rewrite (advance_n_wf _ _ Hwf).
  rewrite advance_n_source, advance_n_position. unfold run_len.
  rewrite <- nth_drop. by apply prefix_len_end.
Qed.

(** ** The pieces of [scan] *)

Lemma has_fused_app (l1 l2 : list Token) :
  has_fused (l1 ++ l2) = has_fused l1 || has_fused l2.
Proof. apply existsb_app. Qed.

Lemma scanned_refl (st : lexer) : ready st -> scanned st st.
Proof.
  intros (Hwf & _ & Hle). exists []. rewrite app_nil_r.
  repeat split; try done. intros Hc. right. by split.
Qed.

Lemma scanned_trans (st1 st2 st3 : lexer) :
  scanned st1 st2 -> scanned st2 st3 -> scanned st1 st3.
Proof.
  intros (new1 & Hs1 & Hwf1 & Hle1 & Ht1 & Hc1) (new2 & Hs2 & Hwf2 & Hle2 & Ht2 & Hc2).
  exists (new1 ++ new2). rewrite Hs2, Hs1, Ht2, Ht1, app_assoc. rewrite Hs1 in Hle2.
  repeat split; try done. intros Hc.
  destruct (Hc1 Hc) as [(pre & f & post & -> & Hg & Hf)|[Hc' Hg1]].
  { left. exists pre, f, (post ++ new2). by rewrite <- app_assoc. }
  destruct (Hc2 Hc') as [(pre & f & post & -> & Hg & Hf)|[Hc'' Hg2]].
  { left. exists (new1 ++ pre), f, post. rewrite <- app_assoc. split; [done|].
    rewrite Hs1 in Hg, Hf. split; [|done]. apply Forall_app. by split. }
  right. split; [done|]. apply Forall_app. split; [done|]. by rewrite <- Hs1.
Qed.

Lemma ready_scanned (st st' : lexer) : ready st -> scanned st st' -> ready st'.
Proof.
  intros (_ & Hs & _) (new & Hsrc & Hwf & Hle & _). unfold ready. by rewrite Hsrc.
Qed.

(** A loop that only advances *)
Lemma advance_n_scanned (n : nat) (st : lexer) :
  ready st -> position st + n <= length (source st) -> scanned st (advance_n n st).
Proof.
  intros (Hwf & _ & _) Hle. exists [].
  rewrite advance_n_source, advance_n_position, advance_n_lex_table, app_nil_r.
  repeat split; try done; [by apply advance_n_wf|].
  intros Hc. right. split; [by apply advance_n_coords | constructor].
Qed.

Lemma is_space_char_nul : is_space_char NUL = false.
Proof. reflexivity. Qed.

Lemma error_skip_nul : error_skip NUL = false.
Proof. reflexivity. Qed.

Lemma until_char_nul (stop : N) : until_char stop NUL = false.
Proof. reflexivity. Qed.

Lemma word_char_nul : word_char NUL = false.
Proof. reflexivity. Qed.

Lemma word_start_char (c : N) : word_start c = true -> word_char c = true.
Proof.
  unfold word_start, word_char, isalnum. intros H.
  apply orb_true_iff in H as [->| ->]; [done|]. by rewrite !orb_true_r.
Qed.

(** [skip_whitespace] ends on a character that is no blank. *)
Lemma skip_whitespace_spec (st : lexer) :
  ready st ->
  skip_whitespace st = Some (advance_n (run_len is_space_char st) st) /\
  scanned st (advance_n (run_len is_space_char st) st) /\
  is_space_char (current_char (advance_n (run_len is_space_char st) st)) = false.
Proof.
  intros Hr. pose proof Hr as (Hwf & Hs & Hle). unfold skip_whitespace, loop_fuel.
  rewrite advance_while_spec; [|done|done|lia].
  split; [done|]. split; [|by apply run_len_char].
  apply advance_n_scanned; [done|]. by apply run_len_bound.
Qed.

(** [error]: the message is recorded and the scanner skips on. *)
Lemma error_spec (message : pystr) (st : lexer) :
  ready st ->
  exists st', error message st = Some st' /\ scanned st st' /\
    position st <= position st' /\
    (position st < length (source st) -> position st' < length (source st)).
Proof.
  intros Hr. pose proof Hr as (Hwf & Hs & Hle). unfold error, loop_fuel.
  set (st1 := add_error _ st).
  assert (ready st1) as Hr1 by done.
  rewrite advance_while_spec; [|done|done|subst st1; lx; lia].
  eexists. split; [done|]. split; [|split].
  - apply (scanned_trans _ st1).
    + exists []. rewrite app_nil_r. repeat split; try done. intros Hc. right. by split.
    + apply advance_n_scanned; [done|]. by apply (run_len_bound _ st1).
  - rewrite advance_n_position. subst st1. lx. lia.
  - intros Hlt. rewrite advance_n_position.
    by apply (run_len_before_sentinel error_skip st1).
Qed.

(** Two states that differ in the buffer and the intern tables only *)
Definition same_place (st st' : lexer) : Prop :=
  source st' = source st /\ position st' = position st /\
  current_char st' = current_char st /\ line_num st' = line_num st /\
  char_pos st' = char_pos st /\ lex_table st' = lex_table st.

Lemma same_place_set_buffer (b : pystr) (st : lexer) : same_place st (set_buffer b st).
Proof. by repeat split. Qed.

Lemma same_place_intern_identifier (content : pystr) (st : lexer) :
  same_place st (snd (intern_identifier content st)).
Proof. unfold intern_identifier. by destruct (identifiers st !! content). Qed.

Lemma same_place_intern_constant (content : pystr) (st : lexer) :
  same_place st (snd (intern_constant content st)).
Proof. unfold intern_constant. by destruct (constants st !! content). Qed.

Lemma same_place_wf (st st' : lexer) : same_place st st' -> wf st -> wf st'.
Proof. intros (Hs & Hp & Hc & _). unfold wf. by rewrite Hs, Hp, Hc. Qed.

Lemma same_place_coords (st st' : lexer) : same_place st st' -> coords st -> coords st'.
Proof. intros (Hs & Hp & _ & Hl & Hcp & _). unfold coords. by rewrite Hs, Hp, Hl, Hcp. Qed.

Lemma same_place_scanned (st st' : lexer) : ready st -> same_place st st' -> scanned st st'.
Proof.
  intros (Hwf & _ & Hle) Hsame. pose proof Hsame as (Hs & Hp & _ & _ & _ & Ht).
  exists []. rewrite Hp, Ht, app_nil_r. repeat split; try done.
  - by apply (same_place_wf st).
  - intros Hc. right. split; [by apply (same_place_coords st) | constructor].
Qed.

(** A token is appended where the scanner stands. *)
Lemma make_token_scanned (cls val : nat) (text : pystr) (line pos : nat) (st : lexer) :
  ready st ->
  (coords st ->
   good (source st) {| tclass := cls; tvalue := val; ttext := text;
                       tline := line; tpos := pos |}) ->
  scanned st (make_token cls val text line pos st).
Proof.
  intros (Hwf & _ & Hle) Hgood. eexists. lx.
  repeat split; try done. intros Hc. right. split; [done|].
  constructor; [by apply Hgood | constructor].
Qed.

(** One character is passed. *)
Lemma advance_scanned (st : lexer) :
  ready st -> current_char st <> NUL ->
  scanned st (advance st) /\ position (advance st) < length (source st).
Proof.
  intros (Hwf & Hs & Hle) Hc.
  assert (position st < length (source st) - 1) as Hlt.
  { apply before_sentinel; [done|]. by rewrite <- Hwf. }
  split; [|lx; lia]. exists []. rewrite app_nil_r. lx.
  repeat split; try done; [apply advance_wf | lia |].
  intros Hco. right. split; [|constructor]. apply advance_coords; [done|lia|done].
Qed.

(** A delimiter is tokenized and passed. *)
Lemma emit_delim_scanned (code : nat) (c : N) (st : lexer) :
  ready st -> current_char st = c -> c <> NUL ->
  scanned st (advance (make_token 2 code [c] (line_num st) (char_pos st) st)) /\
  position st < length (source st) - 1.
Proof.
  intros Hr Hcur Hc. pose proof Hr as (Hwf & Hs & Hle).
  assert (position st < length (source st) - 1) as Hlt.
  { apply before_sentinel; [done|]. by rewrite <- Hwf, Hcur. }
  split; [|done].
  apply (scanned_trans _ (make_token 2 code [c] (line_num st) (char_pos st) st)).
  - apply make_token_scanned; [done|]. intros Hco.
    exists (position st). split; [lia|]. split; [exact Hco|].
    right. left. lx. split; [done|]. by rewrite <- Hwf, Hcur.
  - apply advance_scanned; [done|]. lx. by rewrite Hcur.
Qed.

(** The branch of a payload: the introducer, the payload up to the closing
    delimiter, and the closing delimiter or a diagnostic. *)
Lemma scan_payload_spec (open_code : nat) (open close : N) (close_code cls : nat)
    (intern : pystr -> lexer -> nat * lexer) (missing : pystr) (st : lexer) :
  ready st -> current_char st = open -> open <> NUL -> close <> NUL ->
  (open = c_colon /\ cls = 4) \/ (open = c_lparen /\ cls = 5) ->
  (forall content st, same_place st (snd (intern content st))) ->
  exists st',
    scan_payload open_code [open] close close_code cls intern missing st = Some st' /\
    scanned st st' /\ position st < position st'.
Proof.
  intros Hr Hcur Hopen Hclose Hcls Hintern. unfold scan_payload.
  destruct (emit_delim_scanned open_code open st Hr Hcur Hopen) as [HA Hlt].
  set (st2 := advance (make_token 2 open_code [open] (line_num st) (char_pos st) st)) in *.
  assert (ready st2) as Hr2 by (by apply (ready_scanned st)).
  assert (position st2 = S (position st)) as Hp2 by reflexivity.
  assert (source st2 = source st) as Hs2 by reflexivity.
  set (st2b := set_buffer [] st2).
  assert (ready st2b) as Hr2b by done.
  unfold loop_fuel.
  rewrite (collect_while_spec _ _ st2b);
    [|apply Hr2b|apply until_char_nul
     |change (length (source st) - S (position st) <= length (source st)); lia].
  set (n := run_len (until_char close) st2b).
  set (st3 := set_buffer _ (advance_n n st2b)).
  change (Some st3 ≫= ?f) with (f st3). cbv beta.
  assert (position st2b + n < length (source st2b)) as Hn.
  { apply run_len_before_sentinel; [apply Hr2b | apply until_char_nul |].
    change (S (position st) < length (source st)). lia. }
  assert (same_place (advance_n n st2b) st3) as Hsame3 by apply same_place_set_buffer.
  assert (scanned st2 (advance_n n st2b)) as HB.
  { apply (scanned_trans _ st2b); [by apply same_place_scanned|].
    apply advance_n_scanned; [done|lia]. }
  assert (ready (advance_n n st2b)) as Hrn by (by apply (ready_scanned st2)).
  assert (until_char close (current_char st3) = false) as Hstop.
  { apply (run_len_char (until_char close) st2b); [apply Hr2b | apply until_char_nul]. }
  set (st4 := match strip (buffer st3) with [] => st3 | _ :: _ => _ end).
  assert (same_place st3 (match strip (buffer st3) with
                          | [] => st3
                          | _ :: _ => snd (intern (strip (buffer st3)) st3)
                          end)) as Hsame4.
  { destruct (strip (buffer st3)); [by repeat split | apply Hintern]. }
  assert (source st4 = source st /\ position st4 = S (position st) + n /\
          current_char st4 = current_char st3 /\ wf st4 /\
          line_num st4 = line_num (advance_n n st2b) /\
          char_pos st4 = char_pos (advance_n n st2b)) as (Hs4 & Hp4 & Hc4 & Hwf4 & Hl4 & Hcp4).
  { destruct Hsame3 as (Hs3 & Hp3 & Hc3 & Hl3 & Hcp3 & Ht3).
    destruct Hsame4 as (Hs & Hp & Hc & Hl & Hcp & Ht).
    assert (wf st3) as Hwf3 by (apply (same_place_wf (advance_n n st2b)); [done|apply Hrn]).
    assert (source st3 = source st) as Hs3'
      by exact (eq_trans Hs3 (advance_n_source n st2b)).
    assert (position st3 = S (position st) + n) as Hp3'
      by exact (eq_trans Hp3 (advance_n_position n st2b)).
    subst st4. destruct (strip (buffer st3)) as [|c cs]; [by repeat split|].
    destruct (intern (c :: cs) st3) as [num st3']. simpl in Hs, Hp, Hc, Hl, Hcp, Ht.
    split; [exact (eq_trans Hs Hs3')|]. split; [exact (eq_trans Hp Hp3')|].
    split; [exact Hc|]. split; [|split; [exact (eq_trans Hl Hl3) | exact (eq_trans Hcp Hcp3)]].
    unfold wf. change (current_char st3' = nth (position st3') (source st3') NUL).
    rewrite Hc, Hs, Hp. exact Hwf3. }
  assert (scanned st2 st4) as HC.
  { destruct Hsame3 as (Hs3 & Hp3 & Hc3 & Hl3 & Hcp3 & Ht3).
    destruct Hsame4 as (Hs & Hp & Hc & Hl & Hcp & Ht).
    assert (forall new, lex_table st4 = lex_table st2 ++ new ->
              (coords st2 -> Forall (good (source st2)) new) -> scanned st2 st4) as Hmk.
    { intros new Hnew Hgood. exists new. rewrite Hs4, Hp4.
      repeat split; try done; [change (S (position st) + n <= length (source st)); 
                               change (S (position st) + n < length (source st)) in Hn; lia|].
      intros Hco. right. split; [|by apply Hgood].
      unfold coords. rewrite Hl4, Hcp4, Hs4, Hp4.
      assert (coords (advance_n n st2b)) as Hcon.
      { apply advance_n_coords; [apply Hr2b | lia | exact Hco]. }
      unfold coords in Hcon. rewrite Hcon.
      by rewrite (advance_n_source n st2b), (advance_n_position n st2b). }
    subst st4. destruct (strip (buffer st3)) as [|c cs] eqn:Econtent.
    - apply (Hmk []); [|constructor].
      exact (eq_trans (eq_trans Ht3 (advance_n_lex_table n st2b))
               (eq_sym (app_nil_r _))).
    - destruct (intern (c :: cs) st3) as [num st3'] eqn:Ei.
      simpl in Hs, Hp, Hc, Hl, Hcp, Ht.
      eapply Hmk.
      + exact (f_equal (fun l => l ++ [_])
                 (eq_trans Ht (eq_trans Ht3 (advance_n_lex_table n st2b)))).
      + intros Hco. constructor; [|constructor].
        exists (position st2). split; [change (S (position st) < length (source st)); lia|].
        split; [exact Hco|]. lx.
        assert (nth (position st2 - 0 - 1) (source st2) NUL = open) as Hprev.
        { rewrite Hp2, Hs2. replace (S (position st) - 0 - 1) with (position st) by lia.
          rewrite <- Hcur. symmetry. apply Hr. }
        assert (exists m, c :: cs = strip (take m (drop (position st2) (source st2)))) as Htext.
        { exists n. rewrite <- Econtent. reflexivity. }
        rewrite Nat.sub_0_r in Hprev.
        destruct Hcls as [[-> ->]|[-> ->]]; right; right;
          [left | right]; (split; [done|]); (split; [rewrite Hp2; lia|]); by split. }
  assert (ready st4) as Hr4.
  { split; [done|]. rewrite Hs4. split; [apply Hr|].
    rewrite Hp4. change (S (position st) + n < length (source st)) in Hn. lia. }
  fold st4.
  destruct (current_char st4 =? close)%N eqn:Eclose.
  - apply N.eqb_eq in Eclose.
    destruct (emit_delim_scanned close_code close st4 Hr4 Eclose Hclose) as [HD _].
    eexists. split; [reflexivity|]. split.
    + apply (scanned_trans _ st2); [done|]. apply (scanned_trans _ st4); done.
    + lx. rewrite Hp4. lia.
  - destruct (error_spec missing st4 Hr4) as (st' & He & HD & Hpos & _).
    exists st'. split; [done|]. split.
    + apply (scanned_trans _ st2); [done|]. apply (scanned_trans _ st4); done.
    + rewrite Hp4 in Hpos. lia.
Qed.

(** ** The word branch *)

(** A token appended after a piece of the scan, located with the counters
    the piece started from *)
Lemma scanned_token (cls val : nat) (text : pystr) (line pos : nat) (st stx : lexer) :
  scanned st stx ->
  (coords st ->
   good (source st) {| tclass := cls; tvalue := val; ttext := text;
                       tline := line; tpos := pos |}) ->
  scanned st (make_token cls val text line pos stx).
Proof.
  intros (new & Hs & Hwf & Hle & Ht & Hc) Hgood.
  exists (new ++ [{| tclass := cls; tvalue := val; ttext := text;
                     tline := line; tpos := pos |}]).
  lx. rewrite Ht, app_assoc. repeat split; try done.
  intros Hco. destruct (Hc Hco) as [(pre & f & post & -> & Hg & Hf)|[Hc' Hg]].
  { left. exists pre, f, (post ++ [{| tclass := cls; tvalue := val; ttext := text;
                                      tline := line; tpos := pos |}]).
    by rewrite <- app_assoc. }
  right. split; [exact Hc'|]. apply Forall_app. split; [done|].
  constructor; [by apply Hgood | constructor].
Qed.

Lemma plain_word_spec (word : pystr) (sl sp : nat) (st stx : lexer) :
  ready st -> scanned st stx ->
  (forall code, coords st ->
     good (source st) {| tclass := 1; tvalue := code; ttext := word;
                         tline := sl; tpos := sp |}) ->
  exists st', plain_word word sl sp stx = Some st' /\ scanned st st' /\
    position stx <= position st'.
Proof.
  intros Hr Hsc Hgood. unfold plain_word.
  destruct (assoc keywords (lower word)) as [code|].
  - eexists. split; [done|]. split; [|done]. apply scanned_token; [done|apply Hgood].
  - destruct (error_spec (lit "Неизвестное ключевое слово: '" ++ word ++ lit "'") stx
                (ready_scanned _ _ Hr Hsc)) as (st' & He & Hsc' & Hpos & _).
    exists st'. split; [done|]. split; [|done]. by apply (scanned_trans _ stx).
Qed.

(** The state to which the lookahead goes back sees the same blanks. *)
Lemma run_len_set_position (cond : N -> bool) (p : nat) (st : lexer) :
  run_len cond (set_position p st) = prefix_len cond (drop p (source st)).
Proof. reflexivity. Qed.

(** What the lookahead has read is the run of word characters ahead. *)
Lemma peek_word_spec (l : pystr) (c : N) (acc : pystr) :
  peek_word l c acc = acc ++ take (prefix_len word_char (c :: l)) (c :: l).
Proof.
  revert c acc. induction l as [|d l IH]; intros c acc; simpl.
  - destruct (word_char c); simpl; [done|by rewrite app_nil_r].
  - destruct (word_char c) eqn:E; [|by rewrite app_nil_r].
    rewrite IH, <- app_assoc. simpl. reflexivity.
Qed.

Lemma peek_spec (st : lexer) :
  wf st -> peek st = take (run_len word_char st) (drop (position st) (source st)).
Proof.
  intros Hwf. unfold peek, run_len. rewrite peek_word_spec. simpl app.
  destruct (decide (position st < length (source st))) as [Hlt|Hge].
  - rewrite (drop_nth (position st)) by done. by rewrite <- Hwf.
  - rewrite (drop_ge (source st) (position st)) by lia.
    assert (current_char st = NUL) as ->.
    { rewrite Hwf. apply nth_overflow. lia. }
    rewrite (drop_ge (source st) (S (position st))) by lia. reflexivity.
Qed.

Lemma peek_length (st : lexer) : wf st -> length (peek st) = run_len word_char st.
Proof.
  intros Hwf. rewrite peek_spec by done. rewrite length_take. unfold run_len.
  pose proof (prefix_len_le word_char (drop (position st) (source st))). lia.
Qed.

(** The scanner after the blanks that follow the word *)
Definition after_blanks (st1 : lexer) : lexer :=
  advance_n (run_len is_space_char st1) st1.

(** The scanner after the fused keyword: back at the end of the word, then
    past the blanks, then past the next word *)
Definition after_fused (st1 : lexer) : lexer :=
  let st4 :=
    advance_n (run_len is_space_char st1)
      (set_position (position st1) (after_blanks st1)) in
  advance_n (run_len word_char st4) st4.

Lemma after_blanks_ready (st1 : lexer) : ready st1 -> ready (after_blanks st1).
Proof.
  intros Hr. apply (ready_scanned st1); [done|].
  by destruct (skip_whitespace_spec st1 Hr) as (_ & H & _).
Qed.

Lemma back_ready (st1 : lexer) :
  ready st1 -> ready (set_position (position st1) (after_blanks st1)).
Proof.
  intros (Hwf & Hs & Hle). split; [apply set_position_wf|].
  unfold after_blanks. lx. by rewrite advance_n_source.
Qed.

(** Going back and skipping the blanks again reaches the same place. *)
Lemma again_position (st1 : lexer) :
  position (advance_n (run_len is_space_char st1)
              (set_position (position st1) (after_blanks st1)))
  = position (after_blanks st1).
Proof. unfold after_blanks. by rewrite !advance_n_position. Qed.

Lemma again_source (st1 : lexer) :
  source (advance_n (run_len is_space_char st1)
            (set_position (position st1) (after_blanks st1)))
  = source st1.
Proof. unfold after_blanks. rewrite advance_n_source. lx. apply advance_n_source. Qed.

(** The word branch once [repeat] has been collected before a blank. *)
Lemma after_word_lookahead (sl sp : nat) (st1 : lexer) :
  ready st1 -> lower (strip (buffer st1)) = kw_repeat ->
  isspace (current_char st1) = true ->
  after_word sl sp st1 =
  if isalpha (current_char (after_blanks st1))
     && eqb (strip (lower (peek (after_blanks st1)))) kw_while
  then Some (make_token 1 12 text_repeat_while sl sp (after_fused st1))
  else Some (make_token 1 11 (strip (buffer st1)) sl sp (after_blanks st1)).
Proof.
  intros Hr Hrep Hsp. unfold after_word.
  rewrite Hrep, Hsp. change (eqb kw_repeat kw_repeat && true) with true. cbv iota.
  destruct (skip_whitespace_spec st1 Hr) as (-> & _ & _).
  change (Some ?x ≫= ?f) with (f x). cbv beta. fold (after_blanks st1).
  destruct (isalpha (current_char (after_blanks st1))
            && eqb (strip (lower (peek (after_blanks st1)))) kw_while).
  - pose proof (back_ready st1 Hr) as Hrb.
    destruct (skip_whitespace_spec _ Hrb) as (-> & Hsc & _).
    change (Some ?x ≫= ?f) with (f x). cbv beta.
    pose proof (ready_scanned _ _ Hrb Hsc) as Hr4.
    assert (run_len is_space_char (set_position (position st1) (after_blanks st1))
            = run_len is_space_char st1) as E.
    { rewrite run_len_set_position. unfold after_blanks. by rewrite advance_n_source. }
    rewrite E in Hr4. rewrite E.
    unfold loop_fuel. rewrite advance_while_spec;
      [|apply Hr4|apply word_char_nul|lia].
    reflexivity.
  - unfold plain_word. rewrite Hrep. reflexivity.
Qed.

(** The word that the word loop collects from [st] *)
Definition collected (st : lexer) : lexer :=
  set_buffer (take (run_len word_char st) (drop (position st) (source st)))
    (advance_n (run_len word_char st) st).

Lemma collect_word_spec (st : lexer) :
  ready st ->
  collect_while (loop_fuel st) word_char (set_buffer [] st) = Some (collected st).
Proof.
  intros (Hwf & Hs & Hle). unfold loop_fuel.
  rewrite (collect_while_spec _ _ (set_buffer [] st)); [|done|apply word_char_nul|lx; lia].
  unfold collected. f_equal.
  change (run_len word_char (set_buffer [] st)) with (run_len word_char st).
  rewrite advance_n_set_buffer. reflexivity.
Qed.

Lemma collected_scanned (st : lexer) :
  ready st -> word_start (current_char st) = true ->
  scanned st (collected st) /\ position st < position (collected st).
Proof.
  intros Hr Hstart. pose proof Hr as (Hwf & Hs & Hle).
  destruct (run_len_turn word_char st Hwf word_char_nul (word_start_char _ Hstart))
    as [Hlt E].
  split.
  - apply (scanned_trans _ (advance_n (run_len word_char st) st)).
    + apply advance_n_scanned; [done|]. by apply run_len_bound.
    + apply same_place_scanned; [|apply same_place_set_buffer].
      eapply ready_scanned; [exact Hr|]. apply advance_n_scanned; [done|].
      by apply run_len_bound.
  - unfold collected. lx. rewrite advance_n_position. lia.
Qed.

(** The keyword token of a word collected from [st] is [good]. *)
Lemma word_token_good (code : nat) (st : lexer) :
  ready st -> word_start (current_char st) = true -> coords st ->
  good (source st)
    {| tclass := 1; tvalue := code; ttext := strip (buffer (collected st));
       tline := line_num st; tpos := char_pos st |}.
Proof.
  intros (Hwf & Hs & Hle) Hstart Hco. exists (position st). split.
  - apply nth_not_nul. rewrite <- Hwf. intros E. by rewrite E in Hstart.
  - split; [exact Hco|]. left. lx. split; [done|]. split; [by rewrite <- Hwf|].
    by exists (run_len word_char st).
Qed.

Lemma fused_scanned (st st1 : lexer) :
  ready st -> word_start (current_char st) = true -> st1 = collected st ->
  lower (strip (buffer st1)) = kw_repeat ->
  scanned st st1 -> ready st1 ->
  scanned st (make_token 1 12 text_repeat_while (line_num st) (char_pos st)
                (after_fused st1)) /\
  position st1 <= position (after_fused st1).
Proof.
  intros Hr Hstart Hcol Hrep (new & Hs1 & Hwf1 & Hle1 & Ht1 & Hc1) Hr1.
  set (sl := line_num st). set (sp := char_pos st).
  pose proof (back_ready st1 Hr1) as Hrb.
  set (st3 := set_position (position st1) (after_blanks st1)) in *.
  set (st4 := advance_n (run_len is_space_char st1) st3).
  assert (source st4 = source st1) as Hs4 by apply again_source.
  assert (position st4 = position (after_blanks st1)) as Hp4 by apply again_position.
  assert (position (after_blanks st1) = position st1 + run_len is_space_char st1) as Hpb
    by apply advance_n_position.
  assert (position (after_blanks st1) <= length (source st1)) as Hle2.
  { rewrite Hpb. apply (run_len_bound is_space_char st1), Hr1. }
  assert (wf st4) as Hwf4 by (apply advance_n_wf, Hrb).
  split.
  - exists (new ++ [{| tclass := 1; tvalue := 12; ttext := text_repeat_while;
                       tline := sl; tpos := sp |}]).
    unfold after_fused. fold st3. fold st4. lx.
    rewrite advance_n_source, advance_n_position, advance_n_lex_table, Hs4.
    split; [done|]. split; [by apply advance_n_wf|]. split; [|split].
    + pose proof (run_len_bound word_char st4) as Hb. rewrite Hs4, Hp4 in Hb.
      rewrite Hp4, <- Hs1. apply Hb. lia.
    + unfold st4. rewrite advance_n_lex_table. unfold st3, after_blanks. lx.
      rewrite advance_n_lex_table, Ht1, app_assoc. reflexivity.
    + intros Hco. left.
      destruct (Hc1 Hco) as [(pre & f & post & -> & Hg & Hf)|[_ Hg]].
      { exists pre, f, (post ++ [{| tclass := 1; tvalue := 12; ttext := text_repeat_while;
                                    tline := sl; tpos := sp |}]).
        by rewrite <- app_assoc. }
      exists new, {| tclass := 1; tvalue := 12; ttext := text_repeat_while;
                     tline := sl; tpos := sp |}, [].
      split; [done|]. split; [done|]. split; [reflexivity|].
      destruct Hr as (Hwf & _ & _). exists (position st). split.
      { apply nth_not_nul. rewrite <- Hwf. intros E. by rewrite E in Hstart. }
      split; [exact Hco|]. split; [by rewrite <- Hwf|].
      exists (run_len word_char st). rewrite Hcol in Hrep. exact Hrep.
  - unfold after_fused. fold st3. fold st4. rewrite advance_n_position. lia.
Qed.

(** The word branch: a keyword token, the fused token or a diagnostic. *)
Lemma scan_word_spec (st : lexer) :
  ready st -> word_start (current_char st) = true ->
  exists st', scan_word st = Some st' /\ scanned st st' /\ position st < position st'.
Proof.
  intros Hr Hstart. unfold scan_word. rewrite collect_word_spec by done.
  change (Some ?x ≫= ?f) with (f x). cbv beta.
  destruct (collected_scanned st Hr Hstart) as [Hsc Hlt].
  pose proof (ready_scanned _ _ Hr Hsc) as Hr1.
  destruct (eqb (lower (strip (buffer (collected st)))) kw_repeat
            && isspace (current_char (collected st))) eqn:E.
  - apply andb_true_iff in E as [Erep Esp]. apply eqb_eq in Erep.
    rewrite (after_word_lookahead _ _ _ Hr1 Erep Esp).
    destruct (isalpha _ && _).
    + destruct (fused_scanned st _ Hr Hstart eq_refl Erep Hsc Hr1) as [Hf Hp].
      eexists. split; [done|]. split; [done|]. lx. lia.
    + eexists. split; [done|]. split.
      * apply scanned_token.
        -- apply (scanned_trans _ (collected st)); [done|].
           by destruct (skip_whitespace_spec _ Hr1) as (_ & H & _).
        -- by apply word_token_good.
      * lx. unfold after_blanks. rewrite advance_n_position. lia.
  - unfold after_word. rewrite E.
    destruct (plain_word_spec (strip (buffer (collected st))) (line_num st) (char_pos st)
                st (collected st) Hr Hsc) as (st' & Hpw & Hsc' & Hpos).
    { intros code. by apply word_token_good. }
    exists st'. split; [done|]. split; [done|]. lia.
Qed.

(** ** The main loop *)

Lemma advance_inside_scanned (st : lexer) :
  ready st -> position st < length (source st) -> scanned st (advance st).
Proof.
  intros (Hwf & Hs & Hle) Hlt. exists []. rewrite app_nil_r.
  split; [done|]. split; [apply advance_wf|]. split; [lx; lia|]. split; [done|].
  intros Hco. right. split; [|constructor]. by apply advance_coords.
Qed.

(** One turn of the main loop ends and moves the scanner forward. *)
Lemma scan_body_spec (st : lexer) :
  ready st -> current_char st <> NUL ->
  exists st', scan_body st = Some st' /\ scanned st st' /\ position st < position st'.
Proof.
  intros Hr Hcur. unfold scan_body.
  destruct (skip_whitespace_spec st Hr) as (-> & Hsc & Hstop).
  change (Some ?x ≫= ?f) with (f x). cbv beta.
  fold (after_blanks st) in *.
  pose proof (ready_scanned _ _ Hr Hsc) as Hr1.
  assert (position st <= position (after_blanks st)) as Hle
    by (unfold after_blanks; rewrite advance_n_position; lia).
  assert (forall st', scanned (after_blanks st) st' ->
            position (after_blanks st) < position st' ->
            scanned st st' /\ position st < position st') as Hnext.
  { intros st' Hsc' Hlt. split; [by apply (scanned_trans _ (after_blanks st))|lia]. }
  destruct (current_char (after_blanks st) =? NUL)%N eqn:Enul.
  { apply N.eqb_eq in Enul. eexists. split; [done|]. split; [done|].
    destruct (run_len is_space_char st) as [|m] eqn:Em.
    - unfold after_blanks in Enul. rewrite Em in Enul. done.
    - unfold after_blanks. rewrite advance_n_position, Em. lia. }
  apply N.eqb_neq in Enul.
  destruct (word_start (current_char (after_blanks st))) eqn:Eword.
  { destruct (scan_word_spec _ Hr1 Eword) as (st' & -> & Hsc' & Hlt).
    exists st'. split; [done|]. by apply Hnext. }
  destruct (current_char (after_blanks st) =? c_colon)%N eqn:Ecolon.
  { apply N.eqb_eq in Ecolon.
    destruct (scan_payload_spec delim_colon c_colon c_semi delim_semi 4 intern_identifier
                (lit "Ожидается ';' в конце действия") _ Hr1 Ecolon)
      as (st' & E & Hsc' & Hlt); try done.
    - left. done.
    - apply same_place_intern_identifier.
    - exists st'. split; [exact E|]. by apply Hnext. }
  destruct (current_char (after_blanks st) =? c_lparen)%N eqn:Elparen.
  { apply N.eqb_eq in Elparen.
    destruct (scan_payload_spec delim_lparen c_lparen c_rparen delim_rparen 5
                intern_constant (lit "Ожидается ')' в конце условия") _ Hr1 Elparen)
      as (st' & E & Hsc' & Hlt); try done.
    - right. done.
    - apply same_place_intern_constant.
    - exists st'. split; [exact E|]. by apply Hnext. }
  destruct (current_char (after_blanks st) =? c_semi)%N eqn:Esemi.
  { apply N.eqb_eq in Esemi.
    destruct (emit_delim_scanned delim_semi c_semi _ Hr1 Esemi) as [Hsc' Hlt]; [done|].
    eexists. split; [done|]. apply Hnext; [done|]. lx. lia. }
  destruct (error_spec (lit "Неожиданный символ: '" ++ [current_char (after_blanks st)]
                          ++ lit "'") _ Hr1) as (st' & -> & Hsc' & Hpos & Hin).
  change (Some ?x ≫= ?f) with (f x). cbv beta.
  assert (position (after_blanks st) < length (source (after_blanks st))) as Hlt.
  { apply nth_not_nul. by rewrite <- (proj1 Hr1). }
  pose proof (ready_scanned _ _ Hr1 Hsc') as Hr2.
  assert (source st' = source (after_blanks st)) as Hs' by (by destruct Hsc' as (? & ? & _)).
  eexists. split; [done|]. apply Hnext.
  - apply (scanned_trans _ st'); [done|]. apply advance_inside_scanned; [done|].
    rewrite Hs'. by apply Hin.
  - lx. lia.
Qed.

Lemma scan_loop_eq (fuel : nat) (st : lexer) :
  scan_loop fuel st =
  if (current_char st =? NUL)%N then Some st
  else
    match fuel with
    | O => None
    | S fuel => st' ← scan_body st; scan_loop fuel st'
    end.
Proof. by destruct fuel. Qed.

(** The main loop ends on the sentinel. *)
Lemma scan_loop_spec (fuel : nat) (st : lexer) :
  ready st -> length (source st) - position st <= fuel ->
  exists st', scan_loop fuel st = Some st' /\ scanned st st' /\ current_char st' = NUL.
Proof.
  revert st. induction fuel as [|fuel IH]; intros st Hr Hfuel; rewrite scan_loop_eq;
    destruct (current_char st =? NUL)%N eqn:Enul;
    try (apply N.eqb_eq in Enul; exists st; split; [done|]; split;
         [by apply scanned_refl | done]);
    apply N.eqb_neq in Enul.
  - exfalso. apply Enul. rewrite (proj1 Hr). apply nth_overflow. lia.
  - destruct (scan_body_spec st Hr Enul) as (st1 & -> & Hsc & Hlt).
    change (Some ?x ≫= ?f) with (f x). cbv beta.
    pose proof (ready_scanned _ _ Hr Hsc) as Hr1.
    assert (source st1 = source st) as Hs by (by destruct Hsc as (? & ? & _)).
    destruct (IH st1 Hr1) as (st' & E & Hsc' & Hend); [rewrite Hs; lia|].
    exists st'. split; [done|]. split; [|done]. by apply (scanned_trans _ st1).
Qed.

Lemma init_ready (source_code : pystr) : ready (init source_code).
Proof.
  split; [reflexivity|]. split; [by exists (rstrip source_code)|]. simpl. lia.
Qed.

(** [scan] ends, on the sentinel, for every text. *)
Lemma scan_spec (source_code : pystr) :
  exists st, scan source_code = Some st /\ scanned (init source_code) st /\
    current_char st = NUL.
Proof.
  unfold scan. apply scan_loop_spec; [apply init_ready|]. lia.
Qed.


End LexerFacts.





(** After a fused token the counters are no longer the coordinates of the
    position: the lookahead restores [position] but neither [line_num] nor
    [char_pos], so the blanks between the two words are counted twice.  The
    ["("] on the second line of this text carries the line 3. *)
Lemma counters_after_compound_keyword :
  exists st,
    Lexer.scan (U := cyrillic) (lit "repeat" ++ [LF] ++ lit "while (x)") = Some st /\
    Lexer.lex_table st !! 1 =
      Some {| Lexer.tclass := 2; Lexer.tvalue := 1; Lexer.ttext := lit "(";
              Lexer.tline := 3; Lexer.tpos := 6 |}.
Proof. eexists. split; vm_compute; reflexivity. Qed.

(** ** The compound keyword *)

Section Lookahead.
Context {U : UnicodeData}.
Import Lexer.

Lemma after_fused_facts (st1 : lexer) :
  ready st1 ->
  source (after_fused st1) = source st1 /\
  lex_table (after_fused st1) = lex_table st1 /\
  errors (after_fused st1) = errors st1 /\
  wf (after_fused st1) /\
  position (after_fused st1)
  = position (after_blanks st1) + length (peek (after_blanks st1)).
Proof.
  intros Hr1. pose proof (back_ready st1 Hr1) as Hrb.
  pose proof (again_source st1) as Hs4. pose proof (again_position st1) as Hp4.
  unfold after_fused.
  set (st4 := advance_n (run_len is_space_char st1)
                (set_position (position st1) (after_blanks st1))) in *.
  rewrite advance_n_source, advance_n_lex_table, advance_n_errors, advance_n_position.
  assert (wf st4) as Hwf4 by apply advance_n_wf, Hrb.
  split; [done|]. split; [|split; [|split]].
  - unfold st4. rewrite advance_n_lex_table. unfold after_blanks.
    cbn [lex_table set_position]. apply advance_n_lex_table.
  - unfold st4. rewrite advance_n_errors. unfold after_blanks.
    cbn [errors set_position]. apply advance_n_errors.
  - by apply advance_n_wf.
  - rewrite peek_length by apply (after_blanks_ready st1 Hr1).
    unfold run_len. rewrite Hs4, Hp4.
    assert (source (after_blanks st1) = source st1) as -> by apply advance_n_source.
    reflexivity.
Qed.

Lemma advance_n_make_token (n cls val : nat) (text : pystr) (line pos : nat) (st : lexer) :
  advance_n n (make_token cls val text line pos st)
  = make_token cls val text line pos (advance_n n st).
Proof. revert st. induction n as [|n IH]; intros st; simpl; [done|]. by rewrite <- IH. Qed.

Lemma skip_whitespace_make_token (cls val : nat) (text : pystr) (line pos : nat)
    (st : lexer) :
  ready st ->
  skip_whitespace (make_token cls val text line pos st)
  = Some (make_token cls val text line pos (after_blanks st)).
Proof.
  intros Hr.
  assert (ready (make_token cls val text line pos st)) as Hr' by exact Hr.
  destruct (skip_whitespace_spec _ Hr') as (-> & _).
  change (run_len is_space_char (make_token cls val text line pos st))
    with (run_len is_space_char st).
  by rewrite advance_n_make_token.
Qed.

(** Passing the blanks once more changes nothing. *)
Lemma after_blanks_again (st : lexer) :
  ready st -> after_blanks (after_blanks st) = after_blanks st.
Proof.
  intros Hr. destruct (skip_whitespace_spec st Hr) as (_ & _ & Hstop).
  pose proof (after_blanks_ready st Hr) as (Hwf & _).
  unfold after_blanks at 1. fold (after_blanks st) in Hstop.
  by rewrite (run_len_stop _ _ Hwf Hstop).
Qed.

(** The scan goes on from the end of the blanks as it does from their
    start: passing them ahead of time loses nothing. *)
Lemma scan_body_after_blanks (cls val : nat) (text : pystr) (line pos : nat) (st : lexer) :
  ready st ->
  scan_body (make_token cls val text line pos (after_blanks st))
  = scan_body (make_token cls val text line pos st).
Proof.
  intros Hr. unfold scan_body.
  rewrite (skip_whitespace_make_token _ _ _ _ _ st Hr).
  rewrite (skip_whitespace_make_token _ _ _ _ _ (after_blanks st) (after_blanks_ready st Hr)).
  by rewrite after_blanks_again.
Qed.

End Lookahead.

(** The claim's words, read on the text alone.  The blanks that follow the
    place [p] end at [blanks_end src p]; the word at a place is the longest
    run of letters, digits, ["@"], ["_"] and ["-"] that starts there. *)
Definition blanks_end (src : pystr) (p : nat) : nat :=
  p + prefix_len isspace (drop p src).

Definition word_letter {U : UnicodeData} (c : N) : bool :=
  isalnum c || (c =? 64)%N || (c =? 95)%N || (c =? 45)%N.

Definition word_from {U : UnicodeData} (src : pystr) (p : nat) : pystr :=
  take (prefix_len word_letter (drop p src)) (drop p src).

Section LookaheadOnText.
Context {U : UnicodeData}.
Import Lexer.

Lemma prefix_len_ext (f g : N -> bool) (l : pystr) :
  (forall c, f c = g c) -> prefix_len f l = prefix_len g l.
Proof.
  intros H. induction l as [|c l IH]; simpl; [done|]. by rewrite H, IH.
Qed.

Lemma is_space_char_isspace (c : N) : is_space_char c = isspace c.
Proof.
  unfold is_space_char, not_nul. destruct (c =? NUL)%N eqn:E; [|done].
  apply N.eqb_eq in E. by subst c.
Qed.

Lemma word_char_letter (c : N) : word_char c = word_letter c.
Proof. reflexivity. Qed.

(** Where the scanner stands after the blanks, and what it reads ahead
    there, in terms of the text *)
Lemma after_blanks_on_text (st1 : lexer) :
  ready st1 ->
  position (after_blanks st1) = blanks_end (source st1) (position st1) /\
  current_char (after_blanks st1)
  = nth (blanks_end (source st1) (position st1)) (source st1) NUL /\
  peek (after_blanks st1) = word_from (source st1) (blanks_end (source st1) (position st1)).
Proof.
  intros Hr. pose proof (after_blanks_ready st1 Hr) as (Hwf & _ & _).
  assert (source (after_blanks st1) = source st1) as Hs by apply advance_n_source.
  assert (position (after_blanks st1) = blanks_end (source st1) (position st1)) as Hp.
  { unfold after_blanks, blanks_end, run_len. rewrite advance_n_position.
    f_equal. apply prefix_len_ext, is_space_char_isspace. }
  split; [exact Hp|]. split.
  - by rewrite Hwf, Hs, Hp.
  - rewrite (peek_spec _ Hwf). unfold run_len, word_from. rewrite Hs, Hp.
    by rewrite (prefix_len_ext word_char word_letter _ word_char_letter).
Qed.

End LookaheadOnText.

(** C4: when the word loop has collected [repeat], in any case, and stands
    on a blank, the scanner looks past the blanks.  If the text goes on
    there with a letter and the word that starts there is [while], the word
    branch emits exactly one token, the fused keyword (code 12, the code of
    [repeatwhile]) with the line and position of the start of [repeat],
    records nothing else and resumes right after that word.  Otherwise it
    emits [repeat] alone as a keyword and stands where the blanks end: the
    word read ahead is still unread, nothing but blanks has been passed,
    and the scan goes on from there exactly as it does from the end of
    [repeat]. *)
Theorem C4_repeat_while_lookahead (U : UnicodeData) (st0 st1 : Lexer.lexer)
    (Hready : ready st0)
    (Hstart : Lexer.word_start (Lexer.current_char st0) = true)
    (Hword : Lexer.collect_while (Lexer.loop_fuel st0) Lexer.word_char
               (Lexer.set_buffer [] st0) = Some st1)
    (Hrepeat : lower (strip (Lexer.buffer st1)) = lit "repeat")
    (Hblank : isspace (Lexer.current_char st1) = true) :
  Lexer.assoc Lexer.keywords (lit "repeatwhile") = Some 12 /\
  exists st2,
    Lexer.skip_whitespace st1 = Some st2 /\
    Lexer.source st2 = Lexer.source st0 /\
    Lexer.position st1 < Lexer.position st2 /\
    Lexer.position st2 = blanks_end (Lexer.source st0) (Lexer.position st1) /\
    Forall (fun c => isspace c = true)
      (take (Lexer.position st2 - Lexer.position st1)
         (drop (Lexer.position st1) (Lexer.source st0))) /\
    isspace (nth (Lexer.position st2) (Lexer.source st0) NUL) = false /\
    if isalpha (nth (blanks_end (Lexer.source st0) (Lexer.position st1))
                  (Lexer.source st0) NUL)
       && eqb (strip (lower (word_from (Lexer.source st0)
                               (blanks_end (Lexer.source st0) (Lexer.position st1)))))
              (lit "while")
    then
      exists st5,
        Lexer.scan_word st0 = Some st5 /\
        Lexer.lex_table st5 =
          Lexer.lex_table st0 ++
            [ {| Lexer.tclass := 1; Lexer.tvalue := 12;
                 Lexer.ttext := lit "repeat while";
                 Lexer.tline := Lexer.line_num st0; Lexer.tpos := Lexer.char_pos st0 |} ] /\
        Lexer.errors st5 = Lexer.errors st0 /\
        Lexer.source st5 = Lexer.source st0 /\
        Lexer.position st5
        = blanks_end (Lexer.source st0) (Lexer.position st1)
          + length (word_from (Lexer.source st0)
                      (blanks_end (Lexer.source st0) (Lexer.position st1))) /\
        Lexer.current_char st5 = nth (Lexer.position st5) (Lexer.source st0) NUL
    else
      Lexer.scan_word st0 =
        Some (Lexer.make_token 1 11 (strip (Lexer.buffer st1))
                (Lexer.line_num st0) (Lexer.char_pos st0) st2) /\
      Lexer.scan_body (Lexer.make_token 1 11 (strip (Lexer.buffer st1))
                         (Lexer.line_num st0) (Lexer.char_pos st0) st2)
      = Lexer.scan_body (Lexer.make_token 1 11 (strip (Lexer.buffer st1))
                           (Lexer.line_num st0) (Lexer.char_pos st0) st1).
Proof.
  split; [reflexivity|].
  rewrite collect_word_spec in Hword by done. injection Hword as <-.
  destruct (collected_scanned st0 Hready Hstart) as [Hsc Hlt].
  pose proof (ready_scanned _ _ Hready Hsc) as Hr1.
  assert (Lexer.source (collected st0) = Lexer.source st0) as Hs1
    by (by destruct Hsc as (? & ? & _)).
  destruct (skip_whitespace_spec _ Hr1) as (Hskip & Hsc2 & Hstop).
  destruct (after_blanks_on_text _ Hr1) as (Hp2t & Hc2t & Hpeek).
  rewrite Hs1 in Hp2t, Hc2t, Hpeek.
  exists (after_blanks (collected st0)).
  assert (Lexer.is_space_char (Lexer.current_char (collected st0)) = true) as Hsp.
  { unfold Lexer.is_space_char, Lexer.not_nul.
    rewrite Hblank, andb_true_r. apply negb_true_iff, N.eqb_neq.
    intros E. rewrite E in Hblank. discriminate. }
  destruct (run_len_turn _ _ (proj1 Hr1) is_space_char_nul Hsp) as [Hin Hturn].
  assert (Lexer.position (after_blanks (collected st0))
          = Lexer.position (collected st0) + run_len Lexer.is_space_char (collected st0))
    as Hp2 by apply advance_n_position.
  split; [exact Hskip|]. split.
  { unfold after_blanks. by rewrite advance_n_source. }
  split; [lia|]. split; [exact Hp2t|]. split.
  { rewrite Hp2, <- Hs1.
    replace (Lexer.position (collected st0) + run_len Lexer.is_space_char (collected st0)
             - Lexer.position (collected st0))
      with (run_len Lexer.is_space_char (collected st0)) by lia.
    eapply Forall_impl; [apply prefix_len_all|].
    intros c Hc. apply andb_true_iff in Hc. tauto. }
  split.
  { rewrite Hp2t, <- Hc2t. fold (after_blanks (collected st0)) in Hstop.
    by rewrite is_space_char_isspace in Hstop. }
  assert (Lexer.scan_word st0 =
          Lexer.after_word (Lexer.line_num st0) (Lexer.char_pos st0) (collected st0)) as ->.
  { unfold Lexer.scan_word. by rewrite collect_word_spec. }
  rewrite (after_word_lookahead _ _ _ Hr1 Hrepeat Hblank).
  change Lexer.kw_while with (lit "while").
  rewrite Hc2t, Hpeek.
  destruct (isalpha _ && _);
    [|split; [reflexivity | by apply scan_body_after_blanks]].
  destruct (after_fused_facts _ Hr1) as (Hs5 & Ht5 & He5 & Hwf5 & Hp5).
  eexists. split; [reflexivity|].
  cbn [Lexer.lex_table Lexer.errors Lexer.position Lexer.current_char Lexer.make_token
         Lexer.source].
  rewrite Ht5, He5, Hp5. split; [|split; [|split; [|split]]].
  - destruct Hsc as (new & _ & _ & _ & Ht & _).
    assert (Lexer.lex_table (collected st0) = Lexer.lex_table st0) as ->.
    { unfold collected. cbn [Lexer.lex_table Lexer.set_buffer]. apply advance_n_lex_table. }
    reflexivity.
  - unfold collected. cbn [Lexer.errors Lexer.set_buffer]. apply advance_n_errors.
  - by rewrite Hs5.
  - by rewrite Hp2t, Hpeek.
  - rewrite <- Hp5, <- Hs1, <- Hs5. exact Hwf5.
Qed.

Lemma C4_repeat_while_lookahead_witness :
  exists st5,
    Lexer.scan_word (U := cyrillic) (Lexer.init (lit "repeat  while (x)")) = Some st5 /\
    Lexer.lex_table st5 =
      [ {| Lexer.tclass := 1; Lexer.tvalue := 12; Lexer.ttext := lit "repeat while";
           Lexer.tline := 1; Lexer.tpos := 0 |} ] /\
    Lexer.position st5 = 13.
Proof.
  destruct (C4_repeat_while_lookahead cyrillic
              (Lexer.init (lit "repeat  while (x)"))
              (collected (U := cyrillic) (Lexer.init (lit "repeat  while (x)")))
              (init_ready _) eq_refl
              (collect_word_spec _ (init_ready _))
              ltac:(vm_compute; reflexivity) ltac:(vm_compute; reflexivity))
    as (_ & st2 & _ & _ & _ & _ & _ & _ & H).
  match type of H with
  | if ?c then _ else _ => replace c with true in H by (vm_compute; reflexivity)
  end.
  destruct H as (st5 & Hscan & Htable & _ & _ & Hpos & _).
  exists st5. split; [exact Hscan|]. split; [exact Htable|].
  rewrite Hpos. vm_compute. reflexivity.
Defined.

(* ===================================================================== *)
(** * The parser: every parse ends *)
(* ===================================================================== *)

(** The tokens still ahead of the analyzer *)
Definition remaining (st : Parser.parser) : nat :=
  length (Parser.p_lex_table st) - Parser.p_position st.

(** The analyzer has moved over the same table: no more tokens are ahead
    of it than before. *)
Definition moved (st st' : Parser.parser) : Prop :=
  length (Parser.p_lex_table st') = length (Parser.p_lex_table st) /\
  remaining st' <= remaining st.

(** A statement parser that ends whenever fewer than [n] tokens are ahead,
    and that has consumed a token whenever it yields a statement *)
Definition ends_below (n : nat) (parse_statement : Parser.stmt_parser) : Prop :=
  forall st, remaining st < n ->
    exists r st', parse_statement st = Some (r, st') /\ moved st st' /\
      (is_Some r -> remaining st' < remaining st).

Section ParserFacts.
Import Lexer Parser.

Lemma remaining_le (st : parser) : remaining st <= length (p_lex_table st).
Proof. unfold remaining. lia. Qed.

Lemma current_token_lt (st : parser) (t : Token) :
  current_token st = Some t -> p_position st < length (p_lex_table st).
Proof. unfold current_token. apply lookup_lt_Some. Qed.

Lemma matches_lt (c : nat) (v : option nat) (st : parser) :
  matches c v st = true -> p_position st < length (p_lex_table st).
Proof.
  unfold matches. destruct (current_token st) as [t|] eqn:E; [|done].
  intros _. by apply (current_token_lt st t).
Qed.

Lemma moved_refl (st : parser) : moved st st.
Proof. unfold moved. lia. Qed.

Lemma moved_trans (st1 st2 st3 : parser) :
  moved st1 st2 -> moved st2 st3 -> moved st1 st3.
Proof. unfold moved. lia. Qed.

Lemma p_error_moved (msg : pystr) (st : parser) : moved st (p_error msg st).
Proof. unfold moved, remaining. simpl. lia. Qed.

Lemma p_error_remaining (msg : pystr) (st : parser) :
  remaining (p_error msg st) = remaining st.
Proof. reflexivity. Qed.

(** [next_token] steps over the current token, when there is one. *)
Lemma next_token_spec (st : parser) :
  moved st (snd (next_token st)) /\
  (is_Some (fst (next_token st)) ->
   p_position (snd (next_token st)) = S (p_position st) /\
   remaining (snd (next_token st)) < remaining st) /\
  (p_position st < length (p_lex_table st) ->
   p_position (snd (next_token st)) = S (p_position st) /\
   remaining (snd (next_token st)) < remaining st).
Proof.
  unfold next_token. destruct (current_token st) as [t|] eqn:E; simpl.
  - apply current_token_lt in E. unfold moved, remaining. simpl. repeat split; lia.
  - split; [apply moved_refl|]. split; [by intros [? ?]|].
    intros Hlt. unfold current_token in E. apply lookup_ge_None in E. lia.
Qed.

(** [expect] steps over the token it expects and stays in place otherwise. *)
Lemma expect_spec (c : nat) (v : option nat) (m : option pystr) (st : parser) :
  moved st (snd (expect c v m st)) /\
  (is_Some (fst (expect c v m st)) ->
   remaining (snd (expect c v m st)) < remaining st) /\
  (matches c v st = true -> is_Some (fst (expect c v m st))).
Proof.
  unfold expect, matches. destruct (current_token st) as [t|] eqn:E.
  - destruct (tclass t =? c); simpl.
    + destruct v as [v|].
      * destruct (tvalue t =? v); simpl.
        -- destruct (next_token_spec st) as (H1 & H2 & _).
           split; [done|]. split; [intros H; by apply H2|]. intros _.
           unfold next_token. by rewrite E.
        -- split; [apply p_error_moved|]. split; [by intros [? ?]|done].
      * destruct (next_token_spec st) as (H1 & H2 & _).
        split; [done|]. split; [intros H; by apply H2|]. intros _.
        unfold next_token. by rewrite E.
    + split; [apply p_error_moved|]. split; [by intros [? ?]|done].
  - simpl. split; [apply p_error_moved|]. split; [by intros [? ?]|done].
Qed.

Lemma expect_cases (c : nat) (v : option nat) (m : option pystr) (st : parser) :
  (exists t st', expect c v m st = (Some t, st') /\ moved st st' /\
     remaining st' < remaining st) \/
  (exists st', expect c v m st = (None, st') /\ moved st st' /\ matches c v st = false).
Proof.
  destruct (expect_spec c v m st) as (Hm & Hp & Hs).
  destruct (expect c v m st) as [[t|] st'] eqn:E; cbn [fst snd] in *.
  - left. exists t, st'. split; [done|]. split; [done|]. by apply Hp.
  - right. exists st'. split; [done|]. split; [done|].
    destruct (matches c v st); [|done]. by destruct Hs.
Qed.

Lemma payload5_cases (what : pystr) (st : parser) :
  exists r st', payload5 what st = (r, st') /\ moved st st'.
Proof.
  unfold payload5. destruct (current_token st) as [t|].
  - destruct (tclass t =? 5).
    + destruct (next_token_spec st) as (H & _).
      destruct (next_token st) as [r st']. by exists r, st'.
    + eexists _, _. split; [reflexivity | apply p_error_moved].
  - eexists _, _. split; [reflexivity | apply p_error_moved].
Qed.

Lemma next_token_cases (st : parser) :
  exists r st', next_token st = (r, st') /\ moved st st'.
Proof.
  destruct (next_token_spec st) as (H & _).
  destruct (next_token st) as [r st']. by exists r, st'.
Qed.

(** The steps of a walk through a parsing function: name the result of the
    next call and record how far the analyzer has moved. *)
Ltac walk_expect :=
  match goal with
  | |- context [expect ?c ?v ?m ?st] =>
    let E := fresh "E" in
    destruct (expect_cases c v m st)
      as [(? & ? & E & (? & ?) & ?) | (? & E & (? & ?) & ?)];
    rewrite E; clear E; cbv beta iota
  end.
Ltac walk_payload :=
  match goal with
  | |- context [payload5 ?w ?st] =>
    let E := fresh "E" in
    destruct (payload5_cases w st) as ([?|] & ? & E & (? & ?));
    rewrite E; clear E; cbv beta iota
  end.
Ltac walk_next :=
  match goal with
  | |- context [next_token ?st] =>
    let E := fresh "E" in
    destruct (next_token_cases st) as (? & ? & E & (? & ?));
    rewrite E; clear E; cbn [fst snd]; cbv beta iota
  end.
Ltac walk_end :=
  solve [ eexists _, _; split; [reflexivity|]; unfold moved;
          rewrite ?p_error_remaining; cbn [p_error p_lex_table]; lia
        | congruence ].

Lemma parse_branch_label_cases (st : parser) :
  exists r st', parse_branch_label st = (r, st') /\ moved st st'.
Proof.
  unfold parse_branch_label.
  walk_expect; [|walk_end].
  walk_payload.
  - walk_expect; walk_end.
  - destruct (matches 2 (Some 2) _); [walk_next|]; walk_end.
Qed.

Lemma parse_action_cases (token : Token) (st : parser) :
  matches 2 (Some 4) st = true ->
  exists node st', parse_action token st = (node, st') /\ moved st st' /\
    remaining st' < remaining st.
Proof.
  intros Hm. unfold parse_action.
  walk_expect; [|walk_end].
  match goal with |- context [current_token ?s] => destruct (current_token s) as [ct|] end;
    [|walk_end].
  destruct (tclass ct =? 4); [|walk_end].
  walk_next. walk_expect; walk_end.
Qed.

Lemma body_loop_ends (n : nat) (ps : stmt_parser) (Hps : ends_below n ps)
    (k : nat) (stop : parser -> bool) :
  forall (st : parser) (acc : list Node),
    remaining st < n -> remaining st < k ->
    exists nodes st', body_loop k stop ps st acc = Some (nodes, st') /\ moved st st'.
Proof.
  induction k as [|k IH]; intros st acc Hn Hk; [lia|].
  cbn [body_loop]. destruct (stop st); [exists acc, st; split; [done | apply moved_refl]|].
  destruct (Hps st Hn) as (r & st1 & E & Hm & Hprog). rewrite E. cbn [mbind option_bind].
  destruct r as [stmt|].
  - assert (remaining st1 < remaining st) as Hlt by (apply Hprog; eauto).
    destruct (IH st1 (acc ++ [stmt])) as (nodes & st2 & E2 & Hm2); [lia | lia |].
    exists nodes, st2. split; [done|]. by apply (moved_trans st st1 st2).
  - by exists acc, st1.
Qed.

Section Nested.
Variable n : nat.
Variable ps : stmt_parser.
Hypothesis Hps : ends_below n ps.

Ltac walk_body :=
  match goal with
  | |- context [body_loop (body_fuel ?st) ?stop ps ?st ?acc] =>
    let E := fresh "E" in
    destruct (body_loop_ends n ps Hps (body_fuel st) stop st acc)
      as (? & ? & E & (? & ?));
    [ lia
    | pose proof (remaining_le st); unfold body_fuel; lia
    | rewrite E; clear E; cbn [mbind option_bind]; cbv beta iota ]
  end.
Ltac walk_label :=
  match goal with
  | |- context [parse_branch_label ?st] =>
    let E := fresh "E" in
    destruct (parse_branch_label_cases st) as ([?|] & ? & E & (? & ?));
    rewrite E; clear E; cbv beta iota
  end.
Ltac walk_test :=
  match goal with
  | |- context [matches ?c ?v ?st] => destruct (matches c v st)
  | |- context [current_token ?st] => destruct (current_token st) as [?|]
  | |- context [tclass ?t =? ?k] => destruct (tclass t =? k)
  end; cbn [mbind option_bind]; cbv beta iota.
Ltac walk :=
  repeat first [ walk_end | walk_expect | walk_payload | walk_label | walk_body
               | walk_next | walk_test ].

Lemma parse_if_statement_ends (token : Token) (st : parser) :
  remaining st <= n -> matches 1 (Some 4) st = true ->
  exists node st', parse_if_statement ps token st = Some (node, st') /\ moved st st' /\
    remaining st' < remaining st.
Proof.
  intros Hn Hm.
  unfold parse_if_statement. walk.
Qed.

Lemma parse_while_loop_ends (token : Token) (st : parser) :
  remaining st <= n -> matches 1 (Some 8) st = true ->
  exists node st', parse_while_loop ps token st = Some (node, st') /\ moved st st' /\
    remaining st' < remaining st.
Proof.
  intros Hn Hm.
  unfold parse_while_loop. walk.
Qed.

Lemma parse_repeat_until_loop_ends (token : Token) (st : parser) :
  remaining st <= n -> matches 1 (Some 11) st = true ->
  exists node st', parse_repeat_until_loop ps token st = Some (node, st') /\ moved st st' /\
    remaining st' < remaining st.
Proof.
  intros Hn Hm.
  unfold parse_repeat_until_loop. walk.
Qed.

(** The statement loop of the program ends, too. *)
Lemma program_loop_ends (k : nat) :
  forall (st : parser) (node : Node),
    remaining st < n -> remaining st < k ->
    exists node' st', program_loop k ps st node = Some (node', st') /\ moved st st'.
Proof.
  induction k as [|k IH]; intros st node Hn Hk; [lia|].
  cbn [program_loop].
  destruct (matches 1 (Some 3) st); [exists node, st; split; [done | apply moved_refl]|].
  destruct (length (p_lex_table st) <=? p_position st) eqn:Eend;
    [exists node, st; split; [done | apply moved_refl]|].
  apply Nat.leb_gt in Eend.
  destruct (false || matches 1 (Some 13) st);
    [exists node, st; split; [done | apply moved_refl]|].
  destruct (Hps st Hn) as (r & st1 & E & Hm & Hprog). rewrite E. cbn [mbind option_bind].
  assert (0 < remaining st) as Hpos by (unfold remaining; lia).
  destruct r as [stmt|].
  - assert (remaining st1 < remaining st) as Hlt by (apply Hprog; eauto).
    destruct (IH st1 (add_child stmt node)) as (node' & st2 & E2 & Hm2); [lia | lia |].
    exists node', st2. split; [done|]. by apply (moved_trans st st1 st2).
  - cbv zeta.
    assert (exists st2, (if p_position st1 <? length (p_lex_table st1)
                         then snd (next_token st1) else st1) = st2 /\
                        moved st1 st2 /\ remaining st2 < remaining st)
      as (st2 & -> & Hm2 & Hlt).
    { destruct (p_position st1 <? length (p_lex_table st1)) eqn:Elt.
      - apply Nat.ltb_lt in Elt.
        destruct (next_token_spec st1) as (H1 & _ & H3).
        eexists. split; [reflexivity|]. split; [done|].
        destruct (H3 Elt) as (_ & H4). unfold moved in Hm. lia.
      - apply Nat.ltb_ge in Elt. exists st1. split; [done|]. split; [apply moved_refl|].
        unfold remaining at 1. lia. }
    destruct (IH st2 node) as (node' & st3 & E3 & Hm3).
    + unfold moved in *. lia.
    + lia.
    + exists node', st3. split; [done|].
      apply (moved_trans st st1 st3); [done|]. by apply (moved_trans st1 st2 st3).
Qed.

End Nested.

(** [parse_statement] ends when its fuel exceeds the tokens ahead. *)
Lemma parse_statement_ends (n : nat) : ends_below n (parse_statement n).
Proof.
  induction n as [|n IH]; intros st Hn; [lia|].
  cbn [parse_statement].
  destruct (current_token st) as [token|];
    [|exists None, st; split; [done|]; split; [apply moved_refl | by intros [? ?]]].
  destruct (matches 2 (Some 4) st) eqn:E1.
  { destruct (parse_action_cases token st E1) as (node & st' & -> & Hm & Hlt).
    exists (Some node), st'. done. }
  destruct (matches 1 (Some 4) st) eqn:E2.
  { destruct (parse_if_statement_ends n _ IH token st ltac:(lia) E2)
      as (node & st' & -> & Hm & Hlt).
    exists (Some node), st'. done. }
  destruct (matches 1 (Some 11) st) eqn:E3.
  { destruct (parse_repeat_until_loop_ends n _ IH token st ltac:(lia) E3)
      as (node & st' & -> & Hm & Hlt).
    exists (Some node), st'. done. }
  destruct (matches 1 (Some 8) st) eqn:E4.
  { destruct (parse_while_loop_ends n _ IH token st ltac:(lia) E4)
      as (node & st' & -> & Hm & Hlt).
    exists (Some node), st'. done. }
  destruct (matches 1 (Some 7) st);
    [exists None, st; split; [done|]; split; [apply moved_refl | by intros [? ?]]|].
  destruct (matches 1 (Some 10) st);
    [exists None, st; split; [done|]; split; [apply moved_refl | by intros [? ?]]|].
  eexists None, _. split; [reflexivity|]. split; [apply p_error_moved | by intros [? ?]].
Qed.

(** A statement parse that yields nothing has consumed nothing. *)
Lemma parse_statement_nothing (n : nat) (st st1 : parser) :
  parse_statement n st = Some (None, st1) ->
  p_lex_table st1 = p_lex_table st /\ p_position st1 = p_position st.
Proof.
  destruct n as [|n]; [done|]. cbn [parse_statement].
  destruct (current_token st) as [token|]; [|by intros [= <-]].
  destruct (matches 2 (Some 4) st); [by destruct (parse_action token st)|].
  destruct (matches 1 (Some 4) st);
    [by destruct (parse_if_statement _ token st) as [[? ?]|]|].
  destruct (matches 1 (Some 11) st);
    [by destruct (parse_repeat_until_loop _ token st) as [[? ?]|]|].
  destruct (matches 1 (Some 8) st);
    [by destruct (parse_while_loop _ token st) as [[? ?]|]|].
  destruct (matches 1 (Some 7) st); [by intros [= <-]|].
  destruct (matches 1 (Some 10) st); [by intros [= <-]|].
  by intros [= <-].
Qed.

(** The turn of the statement loop after a statement parse that yields
    nothing: the loop goes on one token further. *)
Lemma program_loop_skips (fuel n : nat) (st st1 : parser) (node : Node) :
  matches 1 (Some 3) st = false -> matches 1 (Some 13) st = false ->
  p_position st < length (p_lex_table st) ->
  parse_statement n st = Some (None, st1) ->
  program_loop (S fuel) (parse_statement n) st node =
    program_loop fuel (parse_statement n)
      {| p_lex_table := p_lex_table st; p_position := S (p_position st);
         p_errors := p_errors st1 |} node.
Proof.
  intros H3 H13 Hlt Hnone. cbn [program_loop]. rewrite H3, H13.
  apply Nat.leb_gt in Hlt as Hleb. rewrite Hleb. cbn [orb].
  rewrite Hnone. cbn [mbind option_bind]. cbv zeta.
  destruct (parse_statement_nothing n st st1 Hnone) as (Ht & Hp).
  rewrite Ht, Hp. apply Nat.ltb_lt in Hlt as Hltb. rewrite Hltb.
  unfold next_token, current_token. rewrite Ht, Hp.
  destruct (lookup_lt_is_Some_2 (p_lex_table st) (p_position st) Hlt) as (t & ->).
  reflexivity.
Qed.

Lemma parse_program_ends (st : parser) :
  exists root st', parse_program st = Some (root, st').
Proof.
  unfold parse_program.
  walk_expect; [|by eexists _, _].
  walk_expect; [|by eexists _, _].
  match goal with
  | |- context [program_loop (body_fuel ?s) (parse_statement (stmt_fuel ?s)) ?s ?nd] =>
    destruct (program_loop_ends (stmt_fuel s) _ (parse_statement_ends (stmt_fuel s))
                (body_fuel s) s nd) as (node' & st' & -> & _);
      [pose proof (remaining_le s); unfold stmt_fuel; lia
      |pose proof (remaining_le s); unfold body_fuel; lia|]
  end.
  cbn [mbind option_bind]. cbv beta iota.
  walk_expect; [|by eexists _, _].
  walk_expect; by eexists _, _.
Qed.

(** [parse] ends for every token table. *)
Lemma parse_ends (lex_table : list Token) :
  exists root st, parse lex_table = Some (root, st).
Proof. apply parse_program_ends. Qed.

End ParserFacts.

(** A text with the character U+0000 in it *)
Definition text_with_nul : pystr :=
  Eval vm_compute in lit "stop" ++ [NUL] ++ lit "start".

(** C5, as stated, fails.  The scan of a text that holds the character
    U+0000 can end at that character, with text still ahead: here it ends
    after [stop], with one token.  And the skip loop of [error] passes
    nothing when the scanner stands on a delimiter: at a stray [")"] the
    scanner is left where it was. *)
Lemma C5_counterexample_embedded_nul :
  (exists st, Lexer.scan (U := cyrillic) text_with_nul = Some st /\
     Lexer.position st = 4 /\ length (rstrip text_with_nul) = 10 /\
     length (Lexer.lex_table st) = 1) /\
  (exists st1, Lexer.error (lit "Неожиданный символ: ')'") (Lexer.init (lit ")")) = Some st1 /\
     Lexer.position st1 = Lexer.position (Lexer.init (lit ")")) /\
     Lexer.current_char (Lexer.init (lit ")")) <> NUL).
Proof.
  split.
  - eexists. split; [vm_compute; reflexivity|]. repeat split.
  - eexists. split; [vm_compute; reflexivity|]. split; [reflexivity | discriminate].
Qed.

(** C5 (amended): [PlantUMLLexer.scan] ends for every text, with the
    scanner on a character U+0000 within the source or just behind it; when
    the text holds no such character, every character of the text, its
    trailing blanks removed, has then been passed.  Every turn of the main
    loop of [scan], also one that records an error, ends and leaves the
    scanner at least one character further on, within the same source; the
    skip loop of [error] alone never moves the scanner back.
    [PlantUMLSyntaxAnalyzer.parse] ends for every token table; and a turn of
    the statement loop of [parse_program] whose statement parse yields
    nothing continues exactly one token further. *)
Theorem C5_scan_and_parse_terminate (U : UnicodeData) :
  (forall source_code : pystr,
     exists st, Lexer.scan source_code = Some st /\
       Lexer.source st = rstrip source_code ++ [NUL] /\
       Lexer.position st <= length (Lexer.source st) /\
       nth (Lexer.position st) (Lexer.source st) NUL = NUL /\
       Lexer.current_char st = NUL /\
       (Forall (fun c => c <> NUL) (rstrip source_code) ->
        length (rstrip source_code) <= Lexer.position st)) /\
  (forall st : Lexer.lexer,
     ready st -> Lexer.current_char st <> NUL ->
     exists st1, Lexer.scan_body st = Some st1 /\
       Lexer.position st < Lexer.position st1 /\
       Lexer.position st1 <= length (Lexer.source st) /\
       Lexer.source st1 = Lexer.source st) /\
  (forall (message : pystr) (st : Lexer.lexer),
     ready st ->
     exists st1, Lexer.error message st = Some st1 /\
       Lexer.position st <= Lexer.position st1 /\
       Lexer.position st1 <= length (Lexer.source st) /\
       Lexer.source st1 = Lexer.source st) /\
  (forall lex_table : list Lexer.Token,
     exists root st, Parser.parse lex_table = Some (root, st)) /\
  (forall (fuel n : nat) (st st1 : Parser.parser) (node : Parser.Node),
     Parser.matches 1 (Some 3) st = false ->
     Parser.matches 1 (Some 13) st = false ->
     Parser.p_position st < length (Parser.p_lex_table st) ->
     Parser.parse_statement n st = Some (None, st1) ->
     Parser.program_loop (S fuel) (Parser.parse_statement n) st node =
       Parser.program_loop fuel (Parser.parse_statement n)
         {| Parser.p_lex_table := Parser.p_lex_table st;
            Parser.p_position := S (Parser.p_position st);
            Parser.p_errors := Parser.p_errors st1 |} node).
Proof.
  split; [|split; [|split; [|split]]].
  - intros source_code.
    destruct (scan_spec source_code) as (st & Hscan & (new & Hsrc & Hwf & Hle & _) & Hnul).
    simpl in Hsrc.
    exists st. split; [done|]. split; [done|]. split; [by rewrite Hsrc|].
    split; [by rewrite <- Hwf|]. split; [done|].
    intros Hclean.
    destruct (decide (Lexer.position st < length (rstrip source_code))) as [Hlt|]; [|lia].
    exfalso. rewrite Hwf, Hsrc, app_nth1 in Hnul by done.
    apply (proj1 (List.Forall_forall _ _) Hclean (nth (Lexer.position st)
                                                    (rstrip source_code) NUL));
      [by apply nth_In | done].
  - intros st Hr Hcur.
    destruct (scan_body_spec st Hr Hcur) as (st1 & E & (new & Hs & _ & Hle & _) & Hlt).
    exists st1. by repeat split.
  - intros message st Hr.
    destruct (error_spec message st Hr) as (st1 & Herr & (new & Hs & _ & Hle & _) & Hpos & _).
    exists st1. by repeat split.
  - apply parse_ends.
  - apply program_loop_skips.
Qed.

(** A table that holds a stray [")"] only *)
Definition stray_paren : Parser.parser :=
  {| Parser.p_lex_table :=
       [ {| Lexer.tclass := 2; Lexer.tvalue := 2; Lexer.ttext := [41%N];
            Lexer.tline := 1; Lexer.tpos := 0 |} ];
     Parser.p_position := 0; Parser.p_errors := [] |}.

Lemma C5_scan_and_parse_terminate_witness :
  (exists st, Lexer.scan (U := cyrillic) (lit "start # ) ") = Some st /\
     length (rstrip (lit "start # ) ")) <= Lexer.position st) /\
  (exists st1, Lexer.scan_body (U := cyrillic) (Lexer.init (lit ") stop")) = Some st1 /\
     Lexer.position (Lexer.init (lit ") stop")) < Lexer.position st1) /\
  (exists st', Parser.program_loop 1 (Parser.parse_statement 1) stray_paren
                 (Parser.new_node Parser.t_program None 1 1)
               = Some (Parser.new_node Parser.t_program None 1 1, st') /\
     Parser.p_position st' = 1).
Proof.
  destruct (C5_scan_and_parse_terminate cyrillic) as (Hscan & Hturn & _ & _ & Hskip).
  split; [|split].
  - destruct (Hscan (lit "start # ) ")) as (st & E & _ & _ & _ & _ & Hend).
    exists st. split; [exact E|]. apply Hend. vm_compute. repeat constructor; discriminate.
  - destruct (Hturn (Lexer.init (lit ") stop")) (init_ready _) ltac:(discriminate))
      as (st1 & E & Hlt & _).
    exists st1. split; [exact E | exact Hlt].
  - rewrite (Hskip 0 1 stray_paren _ (Parser.new_node Parser.t_program None 1 1)
               eq_refl eq_refl ltac:(cbn; lia) eq_refl).
    eexists. split; reflexivity.
Defined.

(* ===================================================================== *)
(** * The analyzer: every analysis ends, and what it does to its state *)
(* ===================================================================== *)

Lemma length_lstrip (s : pystr) : length (lstrip s) <= length s.
Proof. induction s as [|c s IH]; simpl; [done|]. destruct (isspace c); simpl; lia. Qed.

Lemma length_rstrip (s : pystr) : length (rstrip s) <= length s.
Proof.
  unfold rstrip. rewrite length_rev.
  pose proof (length_lstrip (rev s)) as H. by rewrite length_rev in H.
Qed.

Lemma length_strip (s : pystr) : length (strip s) <= length s.
Proof.
  unfold strip. pose proof (length_rstrip (lstrip s)). pose proof (length_lstrip s). lia.
Qed.

(** A message whose text starts with no blank *)
Definition plain (msg : pystr) : Prop :=
  match msg with c :: _ => isspace c = false | [] => False end.

(** The three things the analyzer does to its state: a call of [define]
    with the line and the position of a node and without [array_size], an
    error with the header of its position, a warning with that header *)
Inductive sema_step : Sema.analyzer -> Sema.analyzer -> Prop :=
| step_define (nm ty : pystr) (arr decl : bool) (ln ps : nat) (a : Sema.analyzer) :
    sema_step a (Sema.with_table (Sema.define nm ty arr None decl (Some ln) (Some ps)) a)
| step_error (ln ps : nat) (msg : pystr) (a : Sema.analyzer) :
    plain msg -> sema_step a (Sema.add_error (Sema.error_at ln ps ++ msg) a)
| step_warning (ln ps : nat) (msg : pystr) (a : Sema.analyzer) :
    plain msg -> sema_step a (Sema.add_warning (Sema.warning_at ln ps ++ msg) a).

Definition sema_steps : Sema.analyzer -> Sema.analyzer -> Prop := rtc sema_step.

Section AnalysisFacts.
Context {U : UnicodeData}.
Import Sema.

Ltac plain_text := unfold plain; norm_lit; simpl; vm_compute; reflexivity.

(** The recursion of [infer_type] is on a strictly shorter text. *)
Lemma infer_type_ends (fuel : nat) :
  forall (e : pystr) (t : SymbolTable),
    length e < fuel -> exists ty, infer_type fuel e t = Some ty.
Proof.
  induction fuel as [|fuel IH]; intros e t H; [lia|].
  cbn [infer_type]. pose proof (length_strip e) as Hs.
  destruct (startswith (lit "abs(") (strip e) && endswith (lit ")") (strip e)) eqn:Eabs.
  - apply IH.
    destruct (strip e) as [|c r] eqn:E; [by vm_compute in Eabs|].
    pose proof (length_strip (take (length (c :: r) - 5) (drop 4 (c :: r)))) as H1.
    rewrite length_take in H1. simpl length in *. lia.
  - repeat case_match; eauto.
Qed.

Lemma infer_ends (e : pystr) (t : SymbolTable) : exists ty, infer e t = Some ty.
Proof. apply infer_type_ends. lia. Qed.

Lemma fold_steps {A : Type} (f : analyzer -> A -> analyzer) (l : list A) (a : analyzer) :
  (forall a x, sema_steps a (f a x)) -> sema_steps a (fold_left f l a).
Proof.
  intros Hf. revert a. induction l as [|x l IH]; intros a; simpl; [apply rtc_refl|].
  eapply rtc_trans; [apply Hf | apply IH].
Qed.

Lemma define_steps (nm ty : pystr) (arr decl : bool) (ln ps : nat) (a : analyzer) :
  sema_steps a (with_table (define nm ty arr None decl (Some ln) (Some ps)) a).
Proof. apply rtc_once. constructor. Qed.

Lemma lookup_warn_steps (used nm : pystr) (ln ps : nat) (a : analyzer) :
  sema_steps a (lookup_warn used nm ln ps a).
Proof.
  unfold lookup_warn. destruct (lookup nm _); [apply rtc_refl|].
  apply rtc_once. constructor. plain_text.
Qed.

Lemma analyze_action_content_steps (content : pystr) (ln ps : nat) (a : analyzer) :
  exists a', analyze_action_content content ln ps a = Some a' /\ sema_steps a a'.
Proof.
  unfold analyze_action_content.
  destruct (startswith in_input _).
  { eexists. split; [reflexivity|]. apply fold_steps. intros a0 v.
    unfold analyze_input_var. destruct (matched _); [apply define_steps|].
    apply rtc_once. constructor. plain_text. }
  destruct (startswith in_output _).
  { destruct (strip (drop 6 _)) as [|c r].
    - eexists. split; [reflexivity|]. apply rtc_once. constructor. plain_text.
    - eexists. split; [reflexivity|]. apply fold_steps. intros a0 part.
      unfold analyze_output_part. destruct part as [|c0 part]; [apply rtc_refl|].
      destruct (matched (rematch RE_QUOTED _)); [apply rtc_refl|].
      destruct (matched (fullmatch RE_IDENT _)); [|apply rtc_refl].
      eapply rtc_trans; [apply lookup_warn_steps | apply define_steps]. }
  destruct (rematch RE_ARRAY_ASSIGN _) as [m|].
  { destruct (infer_ends (strip (group' m 4)) (symbol_table a)) as [ty ->].
    eexists. split; [reflexivity|].
    eapply rtc_trans; [apply define_steps|]. apply fold_steps. intros a0 v.
    unfold analyze_index_var. destruct (is_pascal_keyword _); [apply rtc_refl|].
    apply define_steps. }
  destruct (rematch RE_ASSIGN _) as [m|].
  { destruct (infer_ends (strip (group' m 3)) (symbol_table a)) as [ty ->].
    eexists. split; [reflexivity|].
    eapply rtc_trans; [apply define_steps|]. apply fold_steps. intros a0 v.
    unfold analyze_used_var. destruct (eqb v _); [apply rtc_refl|].
    eapply rtc_trans; [apply lookup_warn_steps | apply define_steps]. }
  eexists. split; [reflexivity|]. apply rtc_once. unfold invalid_content.
  constructor. plain_text.
Qed.

Lemma analyze_condition_content_steps (content : pystr) (ln ps : nat) (a : analyzer) :
  sema_steps a (analyze_condition_content content ln ps a).
Proof.
  unfold analyze_condition_content. destruct (rematch FOR_LOOP_PATTERN _) as [m|].
  - eapply rtc_trans; [apply define_steps|]. apply fold_steps. intros a0 expr.
    apply fold_steps. intros a1 v. unfold analyze_bound_var.
    destruct (is_pascal_keyword _); [apply rtc_refl | apply define_steps].
  - apply fold_steps. intros a0 v. unfold analyze_cond_var.
    destruct (is_pascal_keyword _); [apply rtc_refl|].
    eapply rtc_trans; [apply lookup_warn_steps | apply define_steps].
Qed.

Lemma process_node_steps (node : Parser.Node) (a : analyzer) :
  exists a', process_node node a = Some a' /\ sema_steps a a'.
Proof.
  unfold process_node. destruct (truthy _) as [v|]; [|by exists a].
  destruct (eqb _ Parser.t_action_content); [apply analyze_action_content_steps|].
  destruct (eqb _ Parser.t_condition_content); [|by exists a].
  eexists. split; [reflexivity | apply analyze_condition_content_steps].
Qed.

(** The analysis of a tree ends, and is a sequence of the three steps. *)
Lemma visit_steps (n : Parser.Node) :
  forall a, exists a', visit n a = Some a' /\ sema_steps a a'.
Proof.
  induction n as [t v cs l p IH] using Node_induction. intros a.
  destruct (process_node_steps (Parser.mkNode t v cs l p) a) as (a1 & E1 & S1).
  cbn [visit]. rewrite E1. cbn [mbind option_bind Parser.children].
  clear E1. revert a1 S1. induction IH as [|c cs Hc _ IHcs]; intros a1 S1.
  - by exists a1.
  - destruct (Hc a1) as (a2 & -> & S2). cbn [mbind option_bind].
    apply IHcs. by eapply rtc_trans.
Qed.

End AnalysisFacts.

(** What stays of a symbol: its name, its kind up to widening, and the
    two flags once they are set *)
Definition kept (s s' : Sema.Symbol) : Prop :=
  Sema.name s' = Sema.name s /\
  widened (Sema.base_type s) (Sema.base_type s') /\
  (Sema.is_array s = true -> Sema.is_array s' = true) /\
  (Sema.declared s = true -> Sema.declared s' = true).

(** The state of the analyzer has only grown: every symbol is kept, and
    messages were only appended. *)
Definition grown (a a' : Sema.analyzer) : Prop :=
  (forall nm s, Sema.symbol_table a !! nm = Some s ->
     exists s', Sema.symbol_table a' !! nm = Some s' /\ kept s s') /\
  (exists es, Sema.errors a' = Sema.errors a ++ es) /\
  (exists ws, Sema.warnings a' = Sema.warnings a ++ ws).

Section AnalysisInvariants.
Context {U : UnicodeData}.
Import Sema.

Lemma kept_refl (s : Symbol) : kept s s.
Proof. unfold kept. split; [done|]. split; [by left | done]. Qed.

Lemma kept_trans (s1 s2 s3 : Symbol) : kept s1 s2 -> kept s2 s3 -> kept s1 s3.
Proof.
  intros (N1 & W1 & A1 & D1) (N2 & W2 & A2 & D2). unfold kept.
  split; [congruence|]. split; [by eapply widened_trans|]. split; auto.
Qed.

(** [define] keeps every symbol of the table. *)
Lemma define_kept (nm ty : pystr) (arr : bool) (sz : option (nat * nat)) (decl : bool)
    (ln ps : option nat) (t : SymbolTable) (k : pystr) (s : Symbol) :
  t !! k = Some s ->
  exists s', define nm ty arr sz decl ln ps t !! k = Some s' /\ kept s s'.
Proof.
  intros H. unfold define. destruct (t !! nm) as [existing|] eqn:E.
  - destruct (decide (k = nm)) as [->|Hne].
    + rewrite lookup_insert_eq. eexists. split; [reflexivity|].
      assert (existing = s) as -> by congruence.
      unfold kept. simpl. split; [done|]. split; [apply widen_widened|].
      split; [by destruct arr | by destruct decl].
    + rewrite lookup_insert_ne by done. exists s. split; [done | apply kept_refl].
  - assert (k <> nm) as Hne by congruence.
    rewrite lookup_insert_ne by done. exists s. split; [done | apply kept_refl].
Qed.

Lemma grown_refl (a : analyzer) : grown a a.
Proof.
  split; [|split; exists []; by rewrite app_nil_r].
  intros nm s H. exists s. split; [done | apply kept_refl].
Qed.

Lemma grown_trans (a1 a2 a3 : analyzer) : grown a1 a2 -> grown a2 a3 -> grown a1 a3.
Proof.
  intros (T1 & (es1 & E1) & (ws1 & W1)) (T2 & (es2 & E2) & (ws2 & W2)).
  split; [|split].
  - intros nm s H. destruct (T1 nm s H) as (s1 & H1 & K1).
    destruct (T2 nm s1 H1) as (s2 & H2 & K2). exists s2. split; [done|].
    by apply (kept_trans s s1 s2).
  - exists (es1 ++ es2). by rewrite E2, E1, app_assoc.
  - exists (ws1 ++ ws2). by rewrite W2, W1, app_assoc.
Qed.

Lemma step_grown (a a' : analyzer) : sema_step a a' -> grown a a'.
Proof.
  intros [nm ty arr decl ln ps a0 | ln ps msg a0 _ | ln ps msg a0 _].
  - split; [|split; exists []; simpl; by rewrite app_nil_r].
    intros k s H. by apply define_kept.
  - split; [|split; [by eexists | exists []; simpl; by rewrite app_nil_r]].
    intros k s H. exists s. split; [done | apply kept_refl].
  - split; [|split; [exists []; simpl; by rewrite app_nil_r | by eexists]].
    intros k s H. exists s. split; [done | apply kept_refl].
Qed.

Lemma steps_grown (a a' : analyzer) : sema_steps a a' -> grown a a'.
Proof.
  induction 1 as [a|a a1 a2 Hs _ IH]; [apply grown_refl|].
  apply (grown_trans a a1 a2); [by apply step_grown | exact IH].
Qed.

End AnalysisInvariants.

(** X1: [infer_type] returns a type for every expression and table: its
    only recursion, on the argument of [abs(...)], is on a strictly shorter
    text.  Hence [analyze] returns for every tree. *)
Theorem analysis_ends (U : UnicodeData) :
  (forall (fuel : nat) (e : pystr) (t : gmap pystr Sema.Symbol),
     length e < fuel -> exists ty, Sema.infer_type fuel e t = Some ty) /\
  (forall root : option Parser.Node, exists a, Sema.analyze root = Some a).
Proof.
  split; [intros fuel e t H; by apply infer_type_ends|].
  intros [root|]; [|by eexists].
  destruct (visit_steps root {| Sema.symbol_table := ∅; Sema.errors := [];
                                Sema.warnings := [] |}) as (a & E & _).
  by exists a.
Qed.

(** X2: whatever tree is analysed, a symbol that is in the table stays
    there under its name; its base type changes at most from integer to
    real; [is_array] and [declared] are never reset; and the lists of errors
    and warnings are only appended to. *)
Theorem analysis_keeps_symbols (U : UnicodeData) (n : Parser.Node)
    (a a' : Sema.analyzer) (H : Sema.visit n a = Some a') :
  grown a a'.
Proof.
  destruct (visit_steps n a) as (a1 & E & Hsteps).
  rewrite E in H. injection H as <-. by apply steps_grown.
Qed.

(** The action [x := 1.5], met when [x] is an integer *)
Definition real_evidence : Parser.Node :=
  Parser.mkNode Parser.t_action_content (Some (lit "x := 1.5")) [] 2 1.

Lemma analysis_keeps_symbols_witness :
  exists a',
    Sema.visit (U := cyrillic) real_evidence
      {| Sema.symbol_table := table_x; Sema.errors := []; Sema.warnings := [] |} = Some a' /\
    grown {| Sema.symbol_table := table_x; Sema.errors := []; Sema.warnings := [] |} a'.
Proof.
  destruct (Sema.visit (U := cyrillic) real_evidence
              {| Sema.symbol_table := table_x; Sema.errors := []; Sema.warnings := [] |})
    as [a'|] eqn:E; [|vm_compute in E; discriminate].
  exists a'. split; [reflexivity|].
  exact (analysis_keeps_symbols cyrillic real_evidence _ a' E).
Defined.

(* ===================================================================== *)
(** * The generator: what a visit does to the lines written so far *)
(* ===================================================================== *)

(** A diagnostic as [_visit] and the functions below it record them *)
Definition visit_diagnostic (d : diagnostic) : Prop :=
  d_type d = Error /\ d_source d = SrcGenerator /\ d_pos d = (-1)%Z /\ (0 <= d_line d)%Z.

(** The generator has only written further: the indent level is what it
    was, the lines and the diagnostics were appended to, and every new line
    starts with the indent of that level. *)
Definition extends (g g' : CodeGen.gen) : Prop :=
  CodeGen.indent_level g' = CodeGen.indent_level g /\
  exists ls ds,
    CodeGen.code_lines g' = CodeGen.code_lines g ++ ls /\
    CodeGen.gerrors g' = CodeGen.gerrors g ++ ds /\
    Forall (fun l => startswith (CodeGen.indent (CodeGen.indent_level g)) l = true) ls /\
    Forall visit_diagnostic ds.

(** A child whose two visits only write further *)
Definition steady (k : CodeGen.kid) : Prop :=
  (forall g, extends g (CodeGen.k_visit k g)) /\
  (forall g, extends g (CodeGen.k_visit_children k g)).

Definition steady_branch (b : option CodeGen.kid) : Prop :=
  match b with Some k => steady k | None => True end.

Lemma startswith_app (p x : pystr) : startswith p (p ++ x) = true.
Proof. induction p as [|c p IH]; simpl; [done|]. by rewrite N.eqb_refl. Qed.

Lemma startswith_shorter (p q l : pystr) :
  startswith (p ++ q) l = true -> startswith p l = true.
Proof.
  revert l. induction p as [|c p IH]; intros l H; simpl; [done|].
  destruct l as [|d l]; [done|]. simpl in H.
  apply andb_true_iff in H as [H1 H2]. rewrite H1. simpl. by apply IH.
Qed.

Section GeneratorFacts.
Context {U : UnicodeData}.
Import CodeGen.

Lemma indent_succ (n : nat) : indent (S n) = indent n ++ indent_unit.
Proof.
  induction n as [|n IH]; [reflexivity|].
  change (indent (S (S n))) with (indent_unit ++ indent (S n)).
  rewrite IH at 1. by rewrite app_assoc.
Qed.

Lemma extends_refl (g : gen) : extends g g.
Proof. split; [done|]. exists [], []. by rewrite !app_nil_r. Qed.

Lemma extends_trans (g1 g2 g3 : gen) : extends g1 g2 -> extends g2 g3 -> extends g1 g3.
Proof.
  intros (I1 & ls1 & ds1 & L1 & D1 & F1 & G1) (I2 & ls2 & ds2 & L2 & D2 & F2 & G2).
  split; [congruence|]. exists (ls1 ++ ls2), (ds1 ++ ds2).
  rewrite L2, L1, D2, D1, !app_assoc. repeat split; try done.
  - apply Forall_app. split; [done|]. by rewrite <- I1.
  - apply Forall_app. by split.
Qed.

Lemma add_line_extends (ln : pystr) (g : gen) : extends g (add_line ln g).
Proof.
  split; [done|]. exists [indent (indent_level g) ++ ln], [].
  rewrite app_nil_r. repeat split; try done.
  constructor; [apply startswith_app | constructor].
Qed.

Lemma record_error_extends (msg : pystr) (line : nat) (g : gen) :
  extends g (record_error msg (Z.of_nat line) g).
Proof.
  split; [done|]. eexists [], _. rewrite app_nil_r. repeat split; try done.
  constructor; [|constructor]. unfold visit_diagnostic. simpl. repeat split; lia.
Qed.

(** A block: what is written one level deeper, between two lines *)
Lemma block_extends (f : gen -> gen) (g : gen) :
  (forall g, extends g (f g)) -> extends g (indent_less (f (indent_more g))).
Proof.
  intros Hf. destruct (Hf (indent_more g)) as (I & ls & ds & L & D & F & G).
  split; [simpl; by rewrite I|]. exists ls, ds. simpl. repeat split; try done.
  eapply Forall_impl; [exact F|]. intros l Hl.
  change (indent_level (indent_more g)) with (S (indent_level g)) in Hl.
  rewrite indent_succ in Hl. by apply startswith_shorter in Hl.
Qed.

Lemma visit_branch_extends (b : option kid) (g : gen) :
  steady_branch b -> extends g (visit_branch b g).
Proof. destruct b as [k|]; simpl; [by intros [_ H] | intros _; apply extends_refl]. Qed.

Lemma generate_action_extends (content : option pystr) (line : nat) (g : gen) :
  extends g (generate_action content line g).
Proof.
  unfold generate_action.
  repeat case_match;
    first [apply add_line_extends | apply record_error_extends | apply extends_refl].
Qed.

Lemma fold_extends {A : Type} (f : gen -> A -> gen) (l : list A) (g : gen) :
  Forall (fun x => forall g, extends g (f g x)) l -> extends g (fold_left f l g).
Proof.
  intros H. revert g. induction H as [|x l Hx _ IH]; intros g; simpl; [apply extends_refl|].
  eapply extends_trans; [apply Hx | apply IH].
Qed.

Lemma if_parts_steady (kids : list kid) :
  Forall steady kids ->
  forall c tb eb c' tb' eb',
    steady_branch tb -> steady_branch eb ->
    if_parts kids c tb eb = Found (c', tb', eb') ->
    steady_branch tb' /\ steady_branch eb'.
Proof.
  induction 1 as [|k kids Hk _ IH]; intros c tb eb c' tb' eb' Ht He E; simpl in E.
  - by injection E as _ <- <-.
  - repeat case_match; try done; eapply IH; try exact E; done.
Qed.

Lemma loop_parts_steady (kind : pystr) (first : bool) (kids : list kid) :
  Forall steady kids ->
  forall c b c' b',
    steady_branch b ->
    loop_parts kind first kids c b = Found (c', b') -> steady_branch b'.
Proof.
  induction 1 as [|k kids Hk _ IH]; intros c b c' b' Hb E; simpl in E.
  - by injection E as _ <-.
  - repeat case_match; try done; eapply IH; try exact E; done.
Qed.

(** Peels the lines and blocks of a lowering off the goal, last first. *)
Ltac written :=
  lazymatch goal with
  | |- extends ?g ?g => apply extends_refl
  | |- extends ?g (add_line _ ?x) =>
    apply (extends_trans g x); [written | apply add_line_extends]
  | |- extends ?g (indent_less (?f (indent_more ?x))) =>
    apply (extends_trans g x);
    [written
    |apply (block_extends f); first [assumption | intros; by apply visit_branch_extends]]
  end.

Lemma generate_if_extends (kids : list kid) (line : nat) (g : gen) :
  Forall steady kids -> extends g (generate_if kids line g).
Proof.
  intros Hk. unfold generate_if.
  destruct (if_parts kids [] None None) as [[[c tb] eb]|] eqn:E;
    [|apply record_error_extends].
  destruct (if_parts_steady kids Hk [] None None c tb eb I I E) as [Ht He].
  destruct c as [|c0 c]; [apply record_error_extends|].
  destruct eb as [b|]; [destruct He as [_ He]|]; cbv beta iota zeta; written.
Qed.

Lemma generate_while_extends (kids : list kid) (line : nat) (g : gen) :
  Forall steady kids -> extends g (generate_while kids line g).
Proof.
  intros Hk. unfold generate_while.
  destruct (loop_parts Parser.t_while_body false kids [] None) as [[c b]|] eqn:E;
    [|apply record_error_extends].
  pose proof (loop_parts_steady _ _ kids Hk [] None c b I E) as Hb.
  destruct c as [|c0 c]; [apply record_error_extends|].
  destruct b as [b|]; [|apply record_error_extends]. destruct Hb as [_ Hb].
  destruct (rematch FOR_LOOP_PATTERN _); cbv zeta; written.
Qed.

Lemma generate_repeat_until_extends (kids : list kid) (line : nat) (g : gen) :
  Forall steady kids -> extends g (generate_repeat_until kids line g).
Proof.
  intros Hk. unfold generate_repeat_until.
  destruct (loop_parts Parser.t_repeat_body true kids [] None) as [[c b]|] eqn:E;
    [|apply record_error_extends].
  pose proof (loop_parts_steady _ _ kids Hk [] None c b I E) as Hb.
  destruct b as [b|]; [|apply record_error_extends]. destruct Hb as [_ Hb].
  destruct c as [|c0 c]; [apply record_error_extends|]. cbv zeta. written.
Qed.

Lemma visit_node_extends (node : Parser.Node) (kids : list kid) (g : gen) :
  Forall steady kids -> extends g (visit_node node kids g).
Proof.
  intros Hk. unfold visit_node.
  assert (extends g (fold_left (fun g child => k_visit child g) kids g)) as Hall.
  { apply fold_extends. eapply Forall_impl; [exact Hk|]. by intros k [H _]. }
  destruct (eqb _ Parser.t_program); [done|].
  destruct (eqb _ Parser.t_start); [apply extends_refl|].
  destruct (eqb _ Parser.t_action).
  { apply fold_extends. apply Forall_forall. intros k _ g0.
    destruct (eqb _ _); [apply generate_action_extends | apply extends_refl]. }
  destruct (eqb _ Parser.t_if); [by apply generate_if_extends|].
  destruct (eqb _ Parser.t_while); [by apply generate_while_extends|].
  destruct (eqb _ Parser.t_repeat); [by apply generate_repeat_until_extends|].
  destruct (eqb _ Parser.t_stop); [apply extends_refl|].
  destruct (_ || _); [done|].
  destruct (_ || _); [apply extends_refl | done].
Qed.

Lemma visit_each_extends (cs : list Parser.Node) :
  Forall (fun c => forall g, extends g (visit c g)) cs ->
  forall g, extends g (visit_each visit cs g).
Proof.
  induction 1 as [|c cs Hc _ IH]; intros g; simpl; [apply extends_refl|].
  eapply extends_trans; [apply Hc | apply IH].
Qed.

(** [_visit] only writes further, whatever the tree; so does the loop over
    the children of a node. *)
Lemma visit_extends (n : Parser.Node) :
  (forall g, extends g (visit n g)) /\
  (forall g, extends g (visit_each visit (Parser.children n) g)).
Proof.
  induction n as [t v cs l p IH] using Node_induction.
  assert (Forall (fun c => forall g, extends g (visit c g)) cs) as Hcs.
  { eapply Forall_impl; [exact IH|]. by intros c [H _]. }
  split; [|by apply visit_each_extends].
  intros g. rewrite visit_unfold. apply visit_node_extends.
  simpl Parser.children. unfold kids_of. apply Forall_map.
  eapply Forall_impl; [exact IH|]. by intros c [H1 H2].
Qed.

End GeneratorFacts.

(** X4: whatever the tree, [_visit] leaves the indent level as it found
    it and alters or removes no line and no diagnostic that is already
    there.  Every line it adds starts with the indent of the level at which
    the visit began, and every diagnostic it adds is an error of the
    generator that carries the line of a node and the position -1. *)
Theorem visit_only_writes_further (U : UnicodeData) (n : Parser.Node) (g : CodeGen.gen) :
  extends g (CodeGen.visit n g) /\
  extends g (CodeGen.visit_each CodeGen.visit (Parser.children n) g).
Proof. destruct (visit_extends n) as [H1 H2]. split; [apply H1 | apply H2]. Qed.

(** The lines of the declarations, written at the left margin *)
Definition var_section {U : UnicodeData} (table : gmap pystr Sema.Symbol) : list pystr :=
  CodeGen.code_lines (CodeGen.generate_var_section (map snd (map_to_list table)) g0).

Section ProgramShape.
Context {U : UnicodeData}.
Import CodeGen.

Lemma fold_add_line {A : Type} (f : A -> pystr) (l : list A) (g : gen) :
  fold_left (fun g x => add_line (f x) g) l g =
  {| code_lines := code_lines g ++ map (fun x => indent (indent_level g) ++ f x) l;
     gerrors := gerrors g; indent_level := indent_level g |}.
Proof.
  revert g. induction l as [|x l IH]; intros g; simpl.
  - destruct g. simpl. by rewrite app_nil_r.
  - rewrite IH. simpl. by rewrite <- app_assoc.
Qed.

(** The declarations are appended as they stand at the left margin. *)
Lemma generate_var_section_margin (symbols : list Sema.Symbol) (g : gen) :
  indent_level g = 0 ->
  generate_var_section symbols g =
  {| code_lines := code_lines g ++ code_lines (generate_var_section symbols g0);
     gerrors := gerrors g; indent_level := 0 |}.
Proof.
  intros H0. unfold generate_var_section.
  destruct (List.filter _ symbols) as [|s0 ss].
  - destruct g. simpl in *. subst. by rewrite app_nil_r.
  - cbv zeta. rewrite !fold_add_line. unfold add_line. simpl. rewrite H0. simpl.
    rewrite <- !app_assoc. reflexivity.
Qed.

End ProgramShape.

(** The lines and the final indent level of a generation from a tree *)
Lemma generate_lines {U : UnicodeData} (root : Parser.Node)
    (table : gmap pystr Sema.Symbol) :
  exists body,
    CodeGen.code_lines (snd (CodeGen.generate (Some root) table)) =
      [lit "PROGRAM Generated;"; []] ++ var_section table ++ [lit "BEGIN"] ++ body
        ++ [lit "END."] /\
    Forall (fun l => startswith CodeGen.indent_unit l = true) body /\
    CodeGen.indent_level (snd (CodeGen.generate (Some root) table)) = 0.
Proof.
  unfold CodeGen.generate.
  set (g2 := CodeGen.add_line [] (CodeGen.add_line (lit "PROGRAM Generated;") _)).
  rewrite (generate_var_section_margin _ g2 eq_refl). fold (var_section table).
  set (g5 := CodeGen.indent_more _).
  assert (exists g6, CodeGen.validate_program_node root g5 =
                       (eqb (Parser.ntype root) Parser.t_program, g6) /\
                     CodeGen.code_lines g6 = CodeGen.code_lines g5 /\
                     CodeGen.indent_level g6 = 1) as (g6 & -> & L6 & I6).
  { unfold CodeGen.validate_program_node.
    destruct (eqb _ Parser.t_program); eexists; (split; [reflexivity|]); by split. }
  set (g7 := if eqb (Parser.ntype root) Parser.t_program then _ else g6).
  assert (extends g6 g7) as (I7 & body & ds & L7 & _ & F7 & _).
  { subst g7. destruct (eqb _ Parser.t_program); [|apply extends_refl].
    apply fold_extends. apply Forall_forall. intros c _ g.
    destruct (_ || _); [apply extends_refl | apply visit_extends]. }
  exists body.
  assert (CodeGen.code_lines
            (CodeGen.add_line (lit "END.") (CodeGen.indent_less g7)) =
          [lit "PROGRAM Generated;"; []] ++ var_section table ++ [lit "BEGIN"] ++ body
            ++ [lit "END."]) as HL.
  { unfold CodeGen.add_line at 1. cbn [CodeGen.code_lines CodeGen.indent_less
      CodeGen.indent_level]. rewrite I7, I6, L7, L6. subst g5 g2. simpl.
    rewrite <- !app_assoc. reflexivity. }
  assert (Forall (fun l => startswith CodeGen.indent_unit l = true) body) as HF.
  { eapply Forall_impl; [exact F7|]. intros l Hl. rewrite I6 in Hl.
    change (CodeGen.indent 1) with (CodeGen.indent_unit ++ []) in Hl.
    by apply startswith_shorter in Hl. }
  set (g9 := CodeGen.add_line (lit "END.") (CodeGen.indent_less g7)) in *.
  assert (forall x y : pystr,
            snd (match CodeGen.gerrors g9 with
                 | [] => (x, g9)
                 | _ :: _ => (y, g9)
                 end) = g9) as Hsnd by (intros x y; by destruct (CodeGen.gerrors g9)).
  rewrite Hsnd. split; [exact HL|]. split; [exact HF|].
  subst g9. cbn [CodeGen.add_line CodeGen.indent_less CodeGen.indent_level].
  by rewrite I7, I6.
Qed.


(** X5: for every tree and symbol table the lines [generate] writes are
    the header [PROGRAM Generated;], an empty line, the declarations,
    [BEGIN], the lines of the statements, each indented by at least one
    level, and [END.] at the left margin; an empty table gives no
    declarations. *)
Theorem generated_program_shape (U : UnicodeData) (root : Parser.Node)
    (table : gmap pystr Sema.Symbol) :
  exists body,
    CodeGen.code_lines (snd (CodeGen.generate (Some root) table)) =
      [lit "PROGRAM Generated;"; []] ++ var_section table ++ [lit "BEGIN"] ++ body
        ++ [lit "END."] /\
    Forall (fun l => startswith CodeGen.indent_unit l = true) body /\
    CodeGen.indent_level (snd (CodeGen.generate (Some root) table)) = 0 /\
    var_section ∅ = [].
Proof.
  destruct (generate_lines root table) as (body & HL & HF & HI).
  exists body. split; [exact HL|]. split; [exact HF|]. split; [exact HI|].
  unfold var_section. by rewrite map_to_list_empty.
Qed.

(* ===================================================================== *)
(** * The request layer *)
(* ===================================================================== *)

Section RequestFacts.
Context {U : UnicodeData}.







End RequestFacts.

(* ===================================================================== *)
(** * The generator: what [generate] returns, whatever the root *)
(* ===================================================================== *)




Section AnyRoot.
Context {U : UnicodeData}.
Import CodeGen.









End AnyRoot.





Section Outcomes.
Context {U : UnicodeData}.


End Outcomes.






(* ===================================================================== *)
(** * ChainHashMap *)
(* ===================================================================== *)

(** A table as [__init__], [put] and [delete] leave it: as many buckets as
    its size, which is not zero, and no key twice in a bucket *)
Definition chm_ok (t : Lexer.ChainHashMap) : Prop :=
  0 < Lexer.chm_size t /\
  length (Lexer.buckets t) = Lexer.chm_size t /\
  Forall (fun b => NoDup (map Lexer.item_key b)) (Lexer.buckets t).

Section ChainFacts.
Import Lexer.

Definition put_bucket (b : list ChainItem) (it : ChainItem) : list ChainItem :=
  match bucket_update b it with Some b' => b' | None => it :: b end.

Lemma bucket_update_spec (b : list ChainItem) (it : ChainItem) :
  match bucket_update b it with
  | Some b' =>
    bucket_get b' (item_key it) = Some it /\ map item_key b' = map item_key b /\
    forall k, k <> item_key it -> bucket_get b' k = bucket_get b k
  | None => ~ In (item_key it) (map item_key b)
  end.
Proof.
  induction b as [|x b IH]; simpl; [tauto|].
  destruct (eqb (item_key x) (item_key it)) eqn:E.
  - apply eqb_eq in E. simpl. rewrite eqb_refl. split; [done|]. split; [by rewrite E|].
    intros k Hk. rewrite E.
    assert (eqb (item_key it) k = false) as -> by (apply eqb_neq; congruence). done.
  - apply eqb_neq in E. destruct (bucket_update b it) as [b'|]; simpl.
    + destruct IH as (H1 & H2 & H3).
      assert (eqb (item_key x) (item_key it) = false) as -> by by apply eqb_neq.
      split; [done|]. split; [by rewrite H2|].
      intros k Hk. destruct (eqb (item_key x) k); [done | by apply H3].
    + intros [H|H]; [done | by apply IH].
Qed.

Lemma put_bucket_same (b : list ChainItem) (it : ChainItem) :
  bucket_get (put_bucket b it) (item_key it) = Some it.
Proof.
  unfold put_bucket. pose proof (bucket_update_spec b it) as H.
  destruct (bucket_update b it); [by destruct H|]. simpl. by rewrite eqb_refl.
Qed.

Lemma put_bucket_other (b : list ChainItem) (it : ChainItem) (k : pystr) :
  k <> item_key it -> bucket_get (put_bucket b it) k = bucket_get b k.
Proof.
  intros Hk. unfold put_bucket. pose proof (bucket_update_spec b it) as H.
  destruct (bucket_update b it); [destruct H as (_ & _ & H); by apply H|].
  simpl. assert (eqb (item_key it) k = false) as -> by (apply eqb_neq; congruence). done.
Qed.

Lemma put_bucket_nodup (b : list ChainItem) (it : ChainItem) :
  NoDup (map item_key b) -> NoDup (map item_key (put_bucket b it)).
Proof.
  intros Hb. unfold put_bucket. pose proof (bucket_update_spec b it) as H.
  destruct (bucket_update b it); [destruct H as (_ & -> & _); done|].
  simpl. constructor; [by rewrite list_elem_of_In | done].
Qed.

Lemma bucket_get_none (b : list ChainItem) (k : pystr) :
  bucket_get b k = None <-> ~ In k (map item_key b).
Proof.
  induction b as [|x b IH]; simpl; [tauto|].
  destruct (eqb (item_key x) k) eqn:E.
  - apply eqb_eq in E. split; [done | tauto].
  - apply eqb_neq in E. rewrite IH. tauto.
Qed.

Lemma bucket_delete_spec (b : list ChainItem) (k : pystr) :
  NoDup (map item_key b) ->
  match bucket_delete b k with
  | Some b' =>
    is_Some (bucket_get b k) /\ bucket_get b' k = None /\ NoDup (map item_key b') /\
    forall k', k' <> k -> bucket_get b' k' = bucket_get b k'
  | None => bucket_get b k = None
  end.
Proof.
  induction b as [|x b IH]; intros Hb; simpl; [done|].
  apply NoDup_cons in Hb as [Hx Hb]. rewrite list_elem_of_In in Hx.
  destruct (eqb (item_key x) k) eqn:E.
  - apply eqb_eq in E. subst k. split; [by eexists|].
    split; [by apply bucket_get_none|]. split; [done|].
    intros k' Hk'. assert (eqb (item_key x) k' = false) as -> by (apply eqb_neq; congruence).
    done.
  - specialize (IH Hb). destruct (bucket_delete b k) as [b'|]; simpl; [|done].
    destruct IH as (H1 & H2 & H3 & H4). rewrite ?E. split; [done|]. split; [done|].
    split.
    + simpl. constructor; [|done]. rewrite list_elem_of_In. intros Hin.
      assert (item_key x <> k) as Hne by by apply eqb_neq.
      assert (bucket_get b' (item_key x) = None) as G.
      { rewrite (H4 _ Hne). by apply bucket_get_none. }
      by apply bucket_get_none in G.
    + intros k' Hk'. destruct (eqb (item_key x) k'); [done | by apply H4].
Qed.

Lemma nth_insert_same (i : nat) (x : list ChainItem) (l : list (list ChainItem)) :
  i < length l -> nth i (<[i := x]> l) [] = x.
Proof. intros H. by rewrite nth_lookup, list_lookup_insert_eq. Qed.

Lemma nth_insert_other (i j : nat) (x : list ChainItem) (l : list (list ChainItem)) :
  i <> j -> nth j (<[i := x]> l) [] = nth j l [].
Proof. intros H. by rewrite !nth_lookup, list_lookup_insert_ne. Qed.

Lemma hash_bound (t : ChainHashMap) (k : pystr) :
  chm_ok t -> chm_hash t k < length (buckets t).
Proof.
  intros (H0 & Hl & _). rewrite Hl. unfold chm_hash. apply Nat.mod_upper_bound. lia.
Qed.

Lemma bucket_nodup (t : ChainHashMap) (i : nat) :
  chm_ok t -> NoDup (map item_key (nth i (buckets t) [])).
Proof.
  intros (_ & _ & H). destruct (decide (i < length (buckets t))) as [Hi|Hi].
  - rewrite List.Forall_forall in H. apply H. by apply nth_In.
  - rewrite nth_overflow by lia. constructor.
Qed.

End ChainFacts.

Section ChainTables.
Import Lexer.

Lemma chm_new_ok (n : nat) : 0 < n -> chm_ok (chm_new n).
Proof.
  intros Hn. split; [done|]. split; [apply repeat_length|].
  apply List.Forall_forall. intros b Hb. apply repeat_spec in Hb. subst b. constructor.
Qed.

Lemma chm_insert_ok (t : ChainHashMap) (i : nat) (b : list ChainItem) :
  chm_ok t -> NoDup (map item_key b) ->
  chm_ok {| chm_size := chm_size t; buckets := <[i := b]> (buckets t) |}.
Proof.
  intros (H0 & Hl & Hu) Hb. split; [done|]. cbn [buckets chm_size].
  split; [by rewrite length_insert|]. by apply Forall_insert.
Qed.

Lemma chm_put_as_ok (t : ChainHashMap) (k : pystr) (data : nat) (var_type : pystr)
    (is_const : bool) :
  chm_ok t -> chm_ok (chm_put_as t k data var_type is_const).
Proof.
  intros H. apply chm_insert_ok; [done|].
  apply (put_bucket_nodup (nth (chm_hash t k) (buckets t) [])). by apply bucket_nodup.
Qed.

Lemma chm_get_insert (t : ChainHashMap) (k k' : pystr) (b : list ChainItem) :
  chm_ok t ->
  bucket_get b k' = bucket_get (nth (chm_hash t k) (buckets t) []) k' ->
  chm_get {| chm_size := chm_size t; buckets := <[chm_hash t k := b]> (buckets t) |} k'
  = chm_get t k'.
Proof.
  intros Hok Hb. unfold chm_get.
  change (chm_hash {| chm_size := chm_size t; buckets := _ |} k') with (chm_hash t k').
  cbn [buckets]. destruct (decide (chm_hash t k = chm_hash t k')) as [E|E].
  - rewrite <- E, nth_insert_same by by apply hash_bound. by rewrite Hb.
  - by rewrite nth_insert_other.
Qed.

Lemma chm_put_as_same (t : ChainHashMap) (k : pystr) (data : nat) (var_type : pystr)
    (is_const : bool) :
  chm_ok t -> chm_get (chm_put_as t k data var_type is_const) k
              = Some (data, var_type, is_const).
Proof.
  intros H.
  set (it := {| item_key := k; item_data := data; item_type := var_type;
                item_const := is_const |}).
  set (b := nth (chm_hash t k) (buckets t) []).
  assert (chm_put_as t k data var_type is_const =
          {| chm_size := chm_size t;
             buckets := <[chm_hash t k := put_bucket b it]> (buckets t) |})
    as -> by reflexivity.
  unfold chm_get.
  change (chm_hash {| chm_size := chm_size t; buckets := _ |} k) with (chm_hash t k).
  cbn [buckets]. rewrite nth_insert_same by by apply hash_bound.
  by rewrite (put_bucket_same b it : bucket_get (put_bucket b it) k = Some it).
Qed.

Lemma chm_put_as_other (t : ChainHashMap) (k k' : pystr) (data : nat) (var_type : pystr)
    (is_const : bool) :
  chm_ok t -> k' <> k ->
  chm_get (chm_put_as t k data var_type is_const) k' = chm_get t k'.
Proof.
  intros H Hk.
  set (it := {| item_key := k; item_data := data; item_type := var_type;
                item_const := is_const |}).
  set (b := nth (chm_hash t k) (buckets t) []).
  assert (chm_put_as t k data var_type is_const =
          {| chm_size := chm_size t;
             buckets := <[chm_hash t k := put_bucket b it]> (buckets t) |})
    as -> by reflexivity.
  apply chm_get_insert; [done|]. by apply put_bucket_other.
Qed.

Lemma chm_new_empty (n : nat) (k : pystr) : chm_get (chm_new n) k = None.
Proof.
  unfold chm_get, chm_new. cbn [buckets].
  assert (nth (chm_hash {| chm_size := n; buckets := repeat [] n |} k)
            (repeat ([] : list ChainItem) n) [] = []) as ->; [|done].
  generalize (chm_hash {| chm_size := n; buckets := repeat [] n |} k).
  intros i. destruct (decide (i < n)) as [Hi|Hi].
  - apply (repeat_spec n). apply nth_In. by rewrite repeat_length.
  - apply nth_overflow. rewrite repeat_length. lia.
Qed.

End ChainTables.

(** X9: a table made by [ChainHashMap(n)] with [n > 0] holds no key.  On
    a table as [__init__], [put] and [delete] leave it, [put] leaves it so;
    [get] of the key just put returns what was put, whether the key was new
    or not; and [get] of every other key returns what it did before. *)
Theorem chm_get_after_put (t : Lexer.ChainHashMap) (k : pystr) (data : nat)
    (var_type : pystr) (is_const : bool) (H : chm_ok t) :
  chm_ok (Lexer.chm_put_as t k data var_type is_const) /\
  Lexer.chm_get (Lexer.chm_put_as t k data var_type is_const) k
    = Some (data, var_type, is_const) /\
  (forall k', k' <> k ->
     Lexer.chm_get (Lexer.chm_put_as t k data var_type is_const) k' = Lexer.chm_get t k') /\
  Lexer.chm_put t k data = Lexer.chm_put_as t k data (lit "string") true /\
  (forall n k', 0 < n ->
     chm_ok (Lexer.chm_new n) /\ Lexer.chm_get (Lexer.chm_new n) k' = None).
Proof.
  split; [|split; [|split; [|split]]].
  - by apply chm_put_as_ok.
  - by apply chm_put_as_same.
  - intros k' Hk'. by apply chm_put_as_other.
  - reflexivity.
  - intros n k' Hn. split; [by apply chm_new_ok | apply chm_new_empty].
Qed.

Lemma chm_get_after_put_witness :
  Lexer.chm_get (Lexer.chm_put (Lexer.chm_put (Lexer.chm_new 10) (lit "x := 1") 1)
                   (lit "x := 1") 2) (lit "x := 1")
  = Some (2, lit "string", true).
Proof.
  exact (proj1 (proj2 (chm_get_after_put _ (lit "x := 1") 2 (lit "string") true
                         (chm_put_as_ok _ (lit "x := 1") 1 (lit "string") true
                            (chm_new_ok 10 ltac:(lia)))))).
Defined.

(** X10: on such a table, [delete] returns [True] exactly when the key
    is there; afterwards [get] of the key returns [None] and [get] of every
    other key what it did before, and the table is still such a table. *)
Theorem chm_get_after_delete (t : Lexer.ChainHashMap) (k : pystr) (H : chm_ok t) :
  chm_ok (snd (Lexer.chm_delete t k)) /\
  (fst (Lexer.chm_delete t k) = true <-> is_Some (Lexer.chm_get t k)) /\
  Lexer.chm_get (snd (Lexer.chm_delete t k)) k = None /\
  (forall k', k' <> k ->
     Lexer.chm_get (snd (Lexer.chm_delete t k)) k' = Lexer.chm_get t k').
Proof.
  unfold Lexer.chm_delete.
  pose proof (bucket_delete_spec (nth (Lexer.chm_hash t k) (Lexer.buckets t) []) k
                (bucket_nodup t _ H)) as Hd.
  assert (is_Some (Lexer.chm_get t k) <->
          is_Some (Lexer.bucket_get (nth (Lexer.chm_hash t k) (Lexer.buckets t) []) k))
    as Hget.
  { unfold Lexer.chm_get. destruct (Lexer.bucket_get _ k) as [it|]; simpl.
    - split; intros _; by eexists.
    - split; intros [x Hx]; discriminate. }
  destruct (Lexer.bucket_delete _ k) as [b'|]; cbn [fst snd].
  - destruct Hd as (H1 & H2 & H3 & H4).
    split; [by apply chm_insert_ok|]. split; [by rewrite Hget|]. split.
    + unfold Lexer.chm_get.
      change (Lexer.chm_hash {| Lexer.chm_size := Lexer.chm_size t; Lexer.buckets := _ |} k)
        with (Lexer.chm_hash t k).
      cbn [Lexer.buckets]. rewrite nth_insert_same by by apply hash_bound.
      by rewrite H2.
    + intros k' Hk'. apply chm_get_insert; [done|]. by apply H4.
  - split; [done|]. split; [|split; [|done]].
    + rewrite Hget, Hd. split; [done | by intros [? ?]].
    + unfold Lexer.chm_get. by rewrite Hd.
Qed.

Lemma chm_get_after_delete_witness :
  Lexer.chm_get
    (snd (Lexer.chm_delete (Lexer.chm_put (Lexer.chm_new 10) (lit "x := 1") 1)
            (lit "x := 1"))) (lit "x := 1") = None.
Proof.
  exact (proj1 (proj2 (proj2 (chm_get_after_delete _ (lit "x := 1")
                                (chm_put_as_ok _ (lit "x := 1") 1 (lit "string") true
                                   (chm_new_ok 10 ltac:(lia))))))).
Defined.

(* ===================================================================== *)
(** * A text without a lexeme *)
(* ===================================================================== *)

Lemma lstrip_blank (s : pystr) : Forall (fun c => isspace c = true) s -> lstrip s = [].
Proof. induction 1 as [|c s Hc _ IH]; simpl; [done|]. by rewrite Hc. Qed.

Lemma rstrip_blank (s : pystr) : Forall (fun c => isspace c = true) s -> rstrip s = [].
Proof.
  intros H. unfold rstrip. rewrite lstrip_blank; [done|]. by apply List.Forall_rev.
Qed.

(** The only diagnostic of the parse of an empty table *)
Definition startuml_expected : diagnostic :=
  {| d_type := Error; d_line := (-1)%Z; d_pos := (-1)%Z;
     d_message := lit "Ожидается '@startuml'"; d_source := SrcParser |}.

(** X11: a text that is empty or holds blanks only scans without a token
    and without a lexical error; its parse records the one error that
    [@startuml] is expected at the end of the file, and the request is
    answered with the status 400, no code and that error alone, reported
    without a position.  (The hypothesis says that lowering the lower-case
    words "конец файла" changes nothing, as it does in Python.) *)
Theorem blank_text_is_refused (U : UnicodeData) (src : pystr)
    (Hlower : lower (lit "конец файла") = lit "конец файла")
    (Hblank : Forall (fun c => isspace c = true) src) :
  (exists st, Lexer.scan src = Some st /\ Lexer.lex_table st = [] /\ Lexer.errors st = []) /\
  App.generate_pascal (Some src) = Some (App.failure [startuml_expected] []).
Proof.
  assert (Lexer.scan src = Some (Lexer.init [])) as Hscan.
  { unfold Lexer.scan, Lexer.init. rewrite (rstrip_blank src Hblank).
    vm_compute. reflexivity. }
  split; [exists (Lexer.init []); by rewrite Hscan|].
  unfold App.generate_pascal. rewrite Hscan. cbn [mbind option_bind].
  replace (Lexer.scan_ok (Lexer.init [])) with true by (vm_compute; reflexivity).
  cbn [negb].
  set (msg := Parser.at_eof ++ lit "Ожидается '@startuml'").
  replace (Parser.parse (Lexer.get_lex_table (Lexer.init [])))
    with (Some (Parser.new_node Parser.t_program None 1 1,
                {| Parser.p_lex_table := []; Parser.p_position := 0;
                   Parser.p_errors := [msg] |}))
    by (vm_compute; reflexivity).
  cbn [mbind option_bind Parser.parse_ok Parser.p_errors negb].
  unfold Parser.get_detailed_errors, Parser.detailed_error. cbn [map Parser.p_errors].
  assert (exists m, rematch Parser.RE_ERROR msg = Some m /\
                    group' m 1 = lit "конец файла" /\
                    group' m 2 = lit "Ожидается '@startuml'") as (m & -> & -> & ->).
  { eexists. split; [vm_compute; reflexivity|]. split; vm_compute; reflexivity. }
  rewrite Hlower, eqb_refl. reflexivity.
Qed.

Lemma blank_text_is_refused_witness :
  App.generate_pascal (U := cyrillic) (Some (lit "  ")) =
  Some (App.failure [startuml_expected] []).
Proof.
  exact (proj2 (blank_text_is_refused cyrillic (lit "  ")
                  ltac:(vm_compute; reflexivity) ltac:(repeat constructor))).
Defined.

(* ===================================================================== *)
(** * The parser: the tree of a parse without errors *)
(* ===================================================================== *)

(** The kinds of the statements *)
Definition statement (n : Parser.Node) : Prop :=
  Parser.ntype n = Parser.t_action \/ Parser.ntype n = Parser.t_if \/
  Parser.ntype n = Parser.t_repeat \/ Parser.ntype n = Parser.t_while.

(** A keyword token with this code *)
Definition keyword (code : nat) (t : Lexer.Token) : Prop :=
  Lexer.tclass t = 1 /\ Lexer.tvalue t = code.

Section TreeFacts.
Import Lexer Parser.

Lemma ntype_add_child (c n : Node) : ntype (add_child c n) = ntype n.
Proof. by destruct n. Qed.

Lemma ntype_add_body (kind : pystr) (body : list Node) (n : Node) :
  ntype (add_body kind body n) = ntype n.
Proof. destruct body; [done|]. apply ntype_add_child. Qed.

Lemma children_add_child (c n : Node) : children (add_child c n) = children n ++ [c].
Proof. by destruct n. Qed.

(** [expect] returns the current token when it is the one expected and
    steps over it; otherwise it stays and records an error. *)
Lemma expect_result (c : nat) (v : option nat) (m : option pystr) (st : parser) :
  match expect c v m st with
  | (Some t, st') =>
    p_lex_table st !! p_position st = Some t /\ tclass t = c /\
    (forall x, v = Some x -> tvalue t = x) /\
    st' = {| p_lex_table := p_lex_table st; p_position := S (p_position st);
             p_errors := p_errors st |}
  | (None, st') =>
    exists msg, st' = p_error msg st
  end.
Proof.
  unfold expect, next_token, current_token.
  destruct (p_lex_table st !! p_position st) as [t|] eqn:E; [|by eexists].
  destruct (tclass t =? c) eqn:Ec; simpl; [|by eexists].
  apply Nat.eqb_eq in Ec. destruct v as [x|].
  - destruct (tvalue t =? x) eqn:Ev; simpl; [|by eexists].
    apply Nat.eqb_eq in Ev. repeat split; try done. by intros ? [= <-].
  - repeat split; done.
Qed.

(** Names the result of the next call in the hypothesis [H]. *)
Ltac trace H :=
  repeat (
    cbv beta iota zeta in H; cbn [mbind option_bind] in H;
    lazymatch type of H with
    | context [expect ?c ?v ?m ?s] => destruct (expect c v m s) as [[?|] ?]
    | context [payload5 ?w ?s] => destruct (payload5 w s) as [[?|] ?]
    | context [parse_branch_label ?s] => destruct (parse_branch_label s) as [[?|] ?]
    | context [body_loop ?k ?stop ?ps ?s ?acc] =>
      destruct (body_loop k stop ps s acc) as [[? ?]|]
    | context [next_token ?s] => destruct (next_token s) as [? ?]
    | context [matches ?c ?v ?s] => destruct (matches c v s)
    | context [current_token ?s] => destruct (current_token s) as [?|]
    | context [tclass ?t =? ?k] => destruct (tclass t =? k)
    end).

Lemma parse_action_kind (token : Token) (st st' : parser) (node : Node) :
  parse_action token st = (node, st') -> ntype node = t_action.
Proof.
  intros H. unfold parse_action in H. trace H; by injection H as <- <-.
Qed.

Lemma parse_if_statement_kind (ps : stmt_parser) (token : Token) (st st' : parser)
    (node : Node) :
  parse_if_statement ps token st = Some (node, st') -> ntype node = t_if.
Proof.
  intros H. unfold parse_if_statement in H.
  trace H; try discriminate; injection H as <- <-;
    by repeat first [rewrite ntype_add_body | rewrite ntype_add_child].
Qed.

Lemma parse_while_loop_kind (ps : stmt_parser) (token : Token) (st st' : parser)
    (node : Node) :
  parse_while_loop ps token st = Some (node, st') -> ntype node = t_while.
Proof.
  intros H. unfold parse_while_loop in H.
  trace H; try discriminate; injection H as <- <-;
    by repeat first [rewrite ntype_add_body | rewrite ntype_add_child].
Qed.

Lemma parse_repeat_until_loop_kind (ps : stmt_parser) (token : Token) (st st' : parser)
    (node : Node) :
  parse_repeat_until_loop ps token st = Some (node, st') -> ntype node = t_repeat.
Proof.
  intros H. unfold parse_repeat_until_loop in H.
  trace H; try discriminate; injection H as <- <-;
    by repeat first [rewrite ntype_add_body | rewrite ntype_add_child].
Qed.

Lemma parse_statement_kind (n : nat) (st st' : parser) (node : Node) :
  parse_statement n st = Some (Some node, st') -> statement node.
Proof.
  destruct n as [|n]; [done|]. cbn [parse_statement]. unfold statement.
  destruct (current_token st) as [token|]; [|done].
  destruct (matches 2 (Some 4) st).
  { destruct (parse_action token st) as [nd s] eqn:E. intros [= <- <-].
    left. by apply (parse_action_kind token st s). }
  destruct (matches 1 (Some 4) st).
  { destruct (parse_if_statement _ token st) as [[nd s]|] eqn:E; [|done].
    intros [= <- <-]. right; left. by apply (parse_if_statement_kind (parse_statement n) token st s). }
  destruct (matches 1 (Some 11) st).
  { destruct (parse_repeat_until_loop _ token st) as [[nd s]|] eqn:E; [|done].
    intros [= <- <-]. right; right; left.
    by apply (parse_repeat_until_loop_kind (parse_statement n) token st s). }
  destruct (matches 1 (Some 8) st).
  { destruct (parse_while_loop _ token st) as [[nd s]|] eqn:E; [|done].
    intros [= <- <-]. right; right; right.
    by apply (parse_while_loop_kind (parse_statement n) token st s). }
  destruct (matches 1 (Some 7) st); [done|].
  destruct (matches 1 (Some 10) st); done.
Qed.

(** The statement loop only appends statements to the node. *)
Lemma program_loop_children (fuel n : nat) :
  forall (st st' : parser) (node node' : Node),
    program_loop fuel (parse_statement n) st node = Some (node', st') ->
    exists stmts,
      Forall statement stmts /\ ntype node' = ntype node /\
      nvalue node' = nvalue node /\ nline node' = nline node /\ npos node' = npos node /\
      children node' = children node ++ stmts.
Proof.
  assert (forall node : Node, exists stmts,
            Forall statement stmts /\ ntype node = ntype node /\
            nvalue node = nvalue node /\ nline node = nline node /\
            npos node = npos node /\ children node = children node ++ stmts) as Hstop.
  { intros node. exists []. by rewrite app_nil_r. }
  induction fuel as [|fuel IH]; intros st st' node node' H; cbn [program_loop] in H.
  - destruct (matches 1 (Some 3) st); [injection H as <- <-; apply Hstop|].
    destruct (_ <=? _); [injection H as <- <-; apply Hstop|].
    destruct (false || matches 1 (Some 13) st); [injection H as <- <-; apply Hstop|done].
  - destruct (matches 1 (Some 3) st); [injection H as <- <-; apply Hstop|].
    destruct (_ <=? _); [injection H as <- <-; apply Hstop|].
    destruct (false || matches 1 (Some 13) st); [injection H as <- <-; apply Hstop|].
    destruct (parse_statement n st) as [[[stmt|] st1]|] eqn:E; [| |done];
      cbn [mbind option_bind] in H.
    + apply IH in H as (stmts & F & T & V & L & P & C).
      exists (stmt :: stmts). destruct node as [t v cs l p]. simpl in *.
      rewrite C, <- app_assoc. repeat split; try done.
      constructor; [by apply (parse_statement_kind n st st1) | done].
    + by apply IH in H.
Qed.

End TreeFacts.

Lemma parse_ok_error (msg : pystr) (st : Parser.parser) :
  Parser.parse_ok (Parser.p_error msg st) = false.
Proof. unfold Parser.parse_ok. simpl. by destruct (Parser.p_errors st). Qed.

(** X12: when [parse] reports success, the root is a [program] node whose
    children are the node of [@startuml], the node of [start], statements
    (actions, conditionals and loops) only, the node of [stop] and the node
    of [@enduml], in this order; the first two tokens of the table are
    [@startuml] and [start]. *)
Theorem successful_parse_shape (lex_table : list Lexer.Token) (root : Parser.Node)
    (ps : Parser.parser)
    (H : Parser.parse lex_table = Some (root, ps))
    (Hok : Parser.parse_ok ps = true) :
  exists t1 t2 stmts t3 t4,
    root = Parser.mkNode Parser.t_program None
             ([Parser.token_node Parser.t_startuml t1; Parser.token_node Parser.t_start t2]
                ++ stmts
                ++ [Parser.token_node Parser.t_stop t3;
                    Parser.token_node Parser.t_enduml t4]) 1 1 /\
    lex_table !! 0 = Some t1 /\ keyword 1 t1 /\
    lex_table !! 1 = Some t2 /\ keyword 2 t2 /\
    keyword 3 t3 /\ keyword 13 t4 /\
    Forall statement stmts.
Proof.
  unfold Parser.parse, Parser.parse_program in H.
  match type of H with
  | context [Parser.expect ?c ?v ?m ?s] =>
    pose proof (expect_result c v m s) as E1;
      destruct (Parser.expect c v m s) as [[t1|] st1]
  end; cbv beta iota zeta in H;
    [|destruct E1 as [msg ->]; injection H as <- <-; by rewrite parse_ok_error in Hok].
  destruct E1 as (L1 & C1 & V1 & ->).
  match type of H with
  | context [Parser.expect ?c ?v ?m ?s] =>
    pose proof (expect_result c v m s) as E2;
      destruct (Parser.expect c v m s) as [[t2|] st2]
  end; cbv beta iota zeta in H;
    [|destruct E2 as [msg ->]; injection H as <- <-; by rewrite parse_ok_error in Hok].
  destruct E2 as (L2 & C2 & V2 & ->).
  match type of H with
  | context [Parser.program_loop ?k ?f ?s ?nd] =>
    destruct (Parser.program_loop k f s nd) as [[node3 st3]|] eqn:EL; [|done]
  end.
  apply program_loop_children in EL as (stmts & F & T3 & N3 & Li3 & P3 & Ch3).
  cbn [mbind option_bind] in H. cbv beta iota zeta in H.
  match type of H with
  | context [Parser.expect ?c ?v ?m ?s] =>
    pose proof (expect_result c v m s) as E3;
      destruct (Parser.expect c v m s) as [[t3|] st4]
  end; cbv beta iota zeta in H;
    [|destruct E3 as [msg ->]; injection H as <- <-; by rewrite parse_ok_error in Hok].
  destruct E3 as (L3 & C3 & V3 & ->).
  match type of H with
  | context [Parser.expect ?c ?v ?m ?s] =>
    pose proof (expect_result c v m s) as E4;
      destruct (Parser.expect c v m s) as [[t4|] st5]
  end; cbv beta iota zeta in H;
    [|destruct E4 as [msg ->]; injection H as <- <-; by rewrite parse_ok_error in Hok].
  destruct E4 as (L4 & C4 & V4 & ->).
  injection H as <- <-. exists t1, t2, stmts, t3, t4.
  destruct node3 as [t v cs l p]. simpl in T3, N3, Li3, P3, Ch3. subst.
  split; [simpl; by rewrite <- !app_assoc|].
  unfold keyword. repeat split; try done; by (apply V1 || apply V2 || apply V3 || apply V4).
Qed.

(** The tokens of the minimal program *)
Definition minimal_tokens : list Lexer.Token :=
  Eval vm_compute in
    match Lexer.scan (U := cyrillic) minimal_program with
    | Some lx => Lexer.lex_table lx
    | None => []
    end.

Lemma successful_parse_shape_witness :
  exists root ps,
    Parser.parse minimal_tokens = Some (root, ps) /\
    exists t1 t2 stmts t3 t4,
      root = Parser.mkNode Parser.t_program None
               ([Parser.token_node Parser.t_startuml t1;
                 Parser.token_node Parser.t_start t2]
                  ++ stmts
                  ++ [Parser.token_node Parser.t_stop t3;
                      Parser.token_node Parser.t_enduml t4]) 1 1 /\
      Forall statement stmts.
Proof.
  do 2 eexists. split; [vm_compute; reflexivity|].
  match goal with
  | |- exists t1 t2 stmts t3 t4, ?root = _ /\ _ =>
    destruct (successful_parse_shape minimal_tokens root _
                ltac:(vm_compute; reflexivity) ltac:(vm_compute; reflexivity))
      as (t1 & t2 & stmts & t3 & t4 & Hroot & _ & _ & _ & _ & _ & _ & Hstmts)
  end.
  by exists t1, t2, stmts, t3, t4.
Defined.

(* ===================================================================== *)
(** * Reading a position back out of a message *)
(* ===================================================================== *)

(** The text [tl] does not go on with a character of the class [p]. *)
Definition stops (p : N -> bool) (tl : pystr) : Prop :=
  match tl with [] => True | c :: _ => p c = false end.

Lemma mpos_after (s : mstate) (w : pystr) : mpos (after s w) = mpos s + length w.
Proof.
  revert s. induction w as [|c w IH]; intros s; simpl; [lia|].
  change (mpos (after {| rest := tail (rest s); mpos := S (mpos s); prev := Some c;
                         caps := caps s |} w) = mpos s + S (length w)).
  rewrite IH. simpl. lia.
Qed.

Lemma caps_after (s : mstate) (w : pystr) : caps (after s w) = caps s.
Proof.
  revert s. induction w as [|c w IH]; intros s; simpl; [done|].
  change (caps (after {| rest := tail (rest s); mpos := S (mpos s); prev := Some c;
                         caps := caps s |} w) = caps s).
  by rewrite IH.
Qed.

Section MatcherResults.
Context {A : Type}.
Implicit Types (k : mstate -> option A) (s : mstate) (a : A).

Lemma run_chr_is (p : N -> bool) (c : N) (tl : pystr) s k a :
  rest s = c :: tl -> p c = true -> k (after s [c]) = Some a -> run (Chr p) s k = Some a.
Proof. intros H Hp Hk. simpl. by rewrite (step_after c tl s H), Hp. Qed.

Lemma run_ch_is (c : N) (tl : pystr) s k a :
  rest s = c :: tl -> k (after s [c]) = Some a -> run (ch c) s k = Some a.
Proof. intros H. apply (run_chr_is _ c tl); [done|]. apply N.eqb_refl. Qed.

Lemma run_str_is (w tl : pystr) s k a :
  rest s = w ++ tl -> k (after s w) = Some a -> run (str w) s k = Some a.
Proof.
  revert s k. induction w as [|c w IH]; intros s k H Hk; simpl; [done|].
  rewrite (step_after c (w ++ tl) s H), N.eqb_refl.
  apply (IH _ _ (rest_after [c] _ _ H)). exact Hk.
Qed.

(** A greedy repetition takes the whole run of the class when what
    follows the pattern matches after it. *)
Lemma star_greedy_is (p : N -> bool) (ds tl : pystr) s k a :
  rest s = ds ++ tl -> Forall (fun c => p c = true) ds -> stops p tl ->
  k (after s ds) = Some a -> star_greedy p (rest s) s k = Some a.
Proof.
  revert s. induction ds as [|d ds IH]; intros s H Hds Hstop Hk.
  - simpl in H, Hk. rewrite H. destruct tl as [|c r]; simpl; [done|].
    unfold step. rewrite H. simpl in Hstop. by rewrite Hstop.
  - inversion Hds as [|? ? Hd Hds']; subst.
    rewrite H. simpl. rewrite (step_after d (ds ++ tl) s H), Hd.
    assert (star_greedy p (ds ++ tl) (after s [d]) k = Some a) as ->; [|done].
    rewrite <- (rest_after [d] (ds ++ tl) s H).
    apply IH; [by apply (rest_after [d]) | done | done | done].
Qed.

Lemma run_star_is (p : N -> bool) (ds tl : pystr) s k a :
  rest s = ds ++ tl -> Forall (fun c => p c = true) ds -> stops p tl ->
  k (after s ds) = Some a -> run (Star p) s k = Some a.
Proof. apply star_greedy_is. Qed.

Lemma run_plus_is (p : N -> bool) (d : N) (ds tl : pystr) s k a :
  rest s = d :: ds ++ tl -> p d = true -> Forall (fun c => p c = true) ds -> stops p tl ->
  k (after s (d :: ds)) = Some a -> run (plus p) s k = Some a.
Proof.
  intros H Hd Hds Hstop Hk. unfold plus. simpl.
  rewrite (step_after d (ds ++ tl) s H), Hd.
  apply (star_greedy_is p ds tl); [by apply (rest_after [d]) | done | done | done].
Qed.

End MatcherResults.

(** The piece [x] of a text, by its offsets *)
Lemma slice_piece (pre x post : pystr) (a b : nat) :
  a = length pre -> b = a + length x -> take (b - a) (drop a (pre ++ x ++ post)) = x.
Proof.
  intros -> ->. rewrite drop_app_length.
  replace (length pre + length x - length pre) with (length x) by lia.
  by rewrite take_app_length.
Qed.

(** ** Numbers as text, read back *)

Section ReadNumber.
Context {U : UnicodeData}.

Definition read_digit (acc c : N) : N :=
  match digit_value c with Some d => (acc * 10 + d)%N | None => acc end.

Lemma read_digit_char (acc : N) (n : nat) :
  read_digit acc (digit_char (n mod 10)) = (acc * 10 + N.of_nat (n mod 10))%N.
Proof.
  pose proof (Nat.mod_upper_bound n 10 ltac:(lia)) as H.
  unfold read_digit, digit_value, digit_char.
  assert ((48 + N.of_nat (n mod 10) <? 128)%N = true) as -> by (apply N.ltb_lt; lia).
  assert (is_ascii_digit (48 + N.of_nat (n mod 10)) = true) as ->.
  { unfold is_ascii_digit, in_range. apply andb_true_iff. split; apply N.leb_le; lia. }
  f_equal. lia.
Qed.

Lemma read_str_nat_aux (fuel n : nat) (acc : pystr) :
  n <= fuel ->
  fold_left read_digit (str_nat_aux (S fuel) n acc) 0%N
  = fold_left read_digit acc (N.of_nat n).
Proof.
  revert n acc. induction fuel as [|fuel IH]; intros n acc Hn; rewrite str_nat_aux_step.
  - assert (n = 0) as -> by lia. reflexivity.
  - assert (forall (x : N) (l : pystr) (a : N),
              fold_left read_digit (x :: l) a = fold_left read_digit l (read_digit a x))
      as Hcons by reflexivity.
    pose proof (Nat.div_mod_eq n 10) as Hdm.
    destruct (n / 10 =? 0) eqn:E.
    + apply Nat.eqb_eq in E. rewrite Hcons, read_digit_char. f_equal. lia.
    + apply Nat.eqb_neq in E.
      rewrite IH by lia. rewrite Hcons, read_digit_char. f_equal. lia.
Qed.

(** [int(str(n))] is [n]. *)
Lemma int_of_str_nat (n : nat) : int_of (str_nat n) = Z.of_nat n.
Proof.
  unfold int_of, str_nat.
  change (fold_left _ (str_nat_aux (S n) n []) 0%N)
    with (fold_left read_digit (str_nat_aux (S n) n []) 0%N).
  rewrite read_str_nat_aux by lia. simpl. lia.
Qed.

End ReadNumber.

(** The shape shared by the patterns that read a message of the scanner
    or of the analyzer back: the word [head], a blank ([sp]), the line and
    the position in brackets, a colon, a blank, the text. *)
Definition positioned {U : UnicodeData} (head : pystr) (sp : regex) : regex :=
  seqs [str head; sp; ch 40; Group 1 (plus digit); ch 44; Group 2 (plus digit);
        ch 41; ch 58; sp; Group 3 (plus dot)].

(** A pattern that passes one blank when no further blank follows: the
    blank itself, or any run of blanks *)
Definition passes_blank (sp : regex) : Prop :=
  forall (A : Type) (s : mstate) (k : mstate -> option A) (a : A) (tl : pystr),
    rest s = 32%N :: tl -> stops ws tl -> k (after s [32%N]) = Some a ->
    run sp s k = Some a.

Lemma blank_passes_blank : passes_blank (ch 32).
Proof. intros A s k a tl H _ Hk. by apply (run_ch_is 32 tl). Qed.

Lemma blanks_pass_blank : passes_blank (Star ws).
Proof.
  intros A s k a tl H Hstop Hk.
  apply (run_star_is ws [32%N] tl); [done | by repeat constructor | done | done].
Qed.

(** A text that can be read back whole: it starts with no blank and holds
    no newline. *)
Definition clean (msg : pystr) : Prop :=
  match msg with
  | c :: m => isspace c = false /\ Forall (fun x => dot x = true) (c :: m)
  | [] => False
  end.

Section ReadPosition.
Context {U : UnicodeData}.

Lemma read_positioned_line (head : pystr) (sp : regex) (l p : nat) (c : N)
    (m tl : pystr) :
  passes_blank sp -> isspace c = false ->
  Forall (fun x => dot x = true) (c :: m) -> stops dot tl ->
  exists r,
    rematch (positioned head sp)
      (head ++ [32%N] ++ [40%N] ++ str_nat l ++ [44%N] ++ str_nat p
         ++ [41%N] ++ [58%N] ++ [32%N] ++ (c :: m) ++ tl) = Some r /\
    group' r 1 = str_nat l /\ group' r 2 = str_nat p /\ group' r 3 = c :: m.
Proof.
  intros Hsp Hc Hdot Hstop.
  inversion Hdot as [|? ? Hdc Hdm]; subst.
  destruct (str_nat_shape l) as (d1 & ds1 & E1 & Hd1 & Hds1).
  destruct (str_nat_shape p) as (d2 & ds2 & E2 & Hd2 & Hds2).
  set (text := head ++ [32%N] ++ [40%N] ++ str_nat l ++ [44%N] ++ str_nat p
                 ++ [41%N] ++ [58%N] ++ [32%N] ++ (c :: m) ++ tl).
  assert (exists f, run (positioned head sp) (start_state text) Some = Some f /\
            caps f =
              [ (3, (0 + length head + 1 + 1 + length (str_nat l) + 1
                       + length (str_nat p) + 1 + 1 + 1,
                     0 + length head + 1 + 1 + length (str_nat l) + 1
                       + length (str_nat p) + 1 + 1 + 1 + length (c :: m)));
                (2, (0 + length head + 1 + 1 + length (str_nat l) + 1,
                     0 + length head + 1 + 1 + length (str_nat l) + 1
                       + length (str_nat p)));
                (1, (0 + length head + 1 + 1,
                     0 + length head + 1 + 1 + length (str_nat l))) ])
    as (f & Hrun & Hcaps).
  { eexists. split.
    - unfold positioned. cbn [seqs]. rewrite run_seq.
      set (s0 := start_state text).
      assert (rest s0 = head ++ [32%N] ++ [40%N] ++ (d1 :: ds1) ++ [44%N] ++ (d2 :: ds2)
                          ++ [41%N] ++ [58%N] ++ [32%N] ++ (c :: m) ++ tl) as R0.
      { subst s0 text. simpl rest. by rewrite E1, E2. }
      eapply run_str_is; [exact R0|]. apply rest_after in R0.
      cbv beta; rewrite run_seq.
      eapply Hsp; [exact R0 | reflexivity |]. apply (rest_after [32%N]) in R0.
      cbv beta; rewrite run_seq.
      eapply run_ch_is; [exact R0|]. apply (rest_after [40%N]) in R0.
      cbv beta; rewrite run_seq, run_group.
      eapply (run_plus_is _ d1 ds1);
        [exact R0 | by apply ascii_digit_digit | by apply ascii_digits_digit
        | reflexivity |].
      apply (rest_after (d1 :: ds1)) in R0.
      cbv beta; rewrite run_seq.
      eapply run_ch_is; [rewrite rest_close_group; exact R0|].
      match goal with
      | |- context [after ?s [44%N]] =>
        assert (rest (after s [44%N]) =
                (d2 :: ds2) ++ [41%N] ++ [58%N] ++ [32%N] ++ (c :: m) ++ tl)
          as R1 by (apply (rest_after [44%N]); rewrite rest_close_group; exact R0)
      end.
      cbv beta; rewrite run_seq, run_group.
      eapply (run_plus_is _ d2 ds2);
        [exact R1 | by apply ascii_digit_digit | by apply ascii_digits_digit
        | reflexivity |].
      apply (rest_after (d2 :: ds2)) in R1.
      cbv beta; rewrite run_seq.
      eapply run_ch_is; [rewrite rest_close_group; exact R1|].
      match goal with
      | |- context [after ?s [41%N]] =>
        assert (rest (after s [41%N]) = [58%N] ++ [32%N] ++ (c :: m) ++ tl)
          as R2 by (apply (rest_after [41%N]); rewrite rest_close_group; exact R1)
      end.
      cbv beta; rewrite run_seq.
      eapply run_ch_is; [exact R2|]. apply (rest_after [58%N]) in R2.
      cbv beta; rewrite run_seq.
      eapply Hsp; [exact R2 | exact Hc |]. apply (rest_after [32%N]) in R2.
      cbv beta; rewrite run_group.
      eapply (run_plus_is _ c m tl); [exact R2 | exact Hdc | exact Hdm | exact Hstop |].
      reflexivity.
    - cbn [caps close_group]. rewrite !caps_after. cbn [caps close_group].
      rewrite !caps_after. cbn [caps close_group]. rewrite !caps_after.
      cbn [caps close_group start_state].
      repeat (rewrite !mpos_after; cbn [mpos close_group start_state]).
      rewrite <- E1, <- E2. reflexivity. }
  unfold rematch. rewrite Hrun. cbn [mbind option_bind]. eexists. split; [reflexivity|].
  unfold group', group. cbn [final subject]. rewrite Hcaps.
  cbn [List.find fst snd Nat.eqb].
  split; [|split].
  - subst text.
    replace (head ++ [32%N] ++ [40%N] ++ str_nat l ++ [44%N] ++ str_nat p
               ++ [41%N] ++ [58%N] ++ [32%N] ++ (c :: m) ++ tl)
      with ((head ++ [32%N] ++ [40%N]) ++ str_nat l ++ [44%N] ++ str_nat p
               ++ [41%N] ++ [58%N] ++ [32%N] ++ (c :: m) ++ tl)
      by (rewrite <- !app_assoc; reflexivity).
    apply slice_piece; rewrite ?length_app; simpl; lia.
  - subst text.
    replace (head ++ [32%N] ++ [40%N] ++ str_nat l ++ [44%N] ++ str_nat p
               ++ [41%N] ++ [58%N] ++ [32%N] ++ (c :: m) ++ tl)
      with ((head ++ [32%N] ++ [40%N] ++ str_nat l ++ [44%N]) ++ str_nat p
               ++ [41%N] ++ [58%N] ++ [32%N] ++ (c :: m) ++ tl)
      by (rewrite <- !app_assoc; reflexivity).
    apply slice_piece; rewrite ?length_app; simpl; lia.
  - subst text.
    replace (head ++ [32%N] ++ [40%N] ++ str_nat l ++ [44%N] ++ str_nat p
               ++ [41%N] ++ [58%N] ++ [32%N] ++ (c :: m) ++ tl)
      with ((head ++ [32%N] ++ [40%N] ++ str_nat l ++ [44%N] ++ str_nat p
               ++ [41%N] ++ [58%N] ++ [32%N]) ++ (c :: m) ++ tl)
      by (rewrite <- !app_assoc; reflexivity).
    apply slice_piece; rewrite ?length_app; simpl; lia.
Qed.

Lemma read_positioned (head : pystr) (sp : regex) (l p : nat) (msg : pystr) :
  passes_blank sp -> clean msg ->
  exists r,
    rematch (positioned head sp)
      (head ++ [32%N] ++ [40%N] ++ str_nat l ++ [44%N] ++ str_nat p
         ++ [41%N] ++ [58%N] ++ [32%N] ++ msg) = Some r /\
    group' r 1 = str_nat l /\ group' r 2 = str_nat p /\ group' r 3 = msg.
Proof.
  intros Hsp Hclean. destruct msg as [|c m]; [done|]. destruct Hclean as [Hc Hdot].
  destruct (read_positioned_line head sp l p c m [] Hsp Hc Hdot I) as (r & Hr & H).
  exists r. split; [|exact H]. by rewrite app_nil_r in Hr.
Qed.

End ReadPosition.

(* ===================================================================== *)
(** * The scanner: a scan as a sequence of elementary steps *)
(* ===================================================================== *)

(** The delimiters with their codes *)
Definition delimiter (code : nat) (c : N) : Prop :=
  (code = 1 /\ c = Lexer.c_lparen) \/ (code = 2 /\ c = Lexer.c_rparen) \/
  (code = 3 /\ c = Lexer.c_semi) \/ (code = 4 /\ c = Lexer.c_colon).

(** The message [error] records for the text [msg] *)
Definition lexical_error (st : Lexer.lexer) (msg : pystr) : pystr :=
  Lexer.error_prefix ++ str_nat (Lexer.line_num st) ++ lit ","
    ++ str_nat (Lexer.char_pos st) ++ lit "): " ++ msg.

(** What [scan] does to the scanner, one step at a time: it moves, it
    records an error at the place where it stands, or it appends a token: a
    keyword with its code, a delimiter with its code, or a payload with the
    number its text is interned under. *)
Inductive lex_step : Lexer.lexer -> Lexer.lexer -> Prop :=
| lex_advance (st : Lexer.lexer) : lex_step st (Lexer.advance st)
| lex_set_buffer (b : pystr) (st : Lexer.lexer) : lex_step st (Lexer.set_buffer b st)
| lex_set_position (p : nat) (st : Lexer.lexer) : lex_step st (Lexer.set_position p st)
| lex_error (msg : pystr) (st : Lexer.lexer) :
    clean msg -> lex_step st (Lexer.add_error (lexical_error st msg) st)
| lex_keyword (code : nat) (text : pystr) (l p : nat) (st : Lexer.lexer) :
    1 <= code <= 13 -> lex_step st (Lexer.make_token 1 code text l p st)
| lex_delimiter (code : nat) (c : N) (l p : nat) (st : Lexer.lexer) :
    delimiter code c -> lex_step st (Lexer.make_token 2 code [c] l p st)
| lex_action (content : pystr) (l p : nat) (st : Lexer.lexer) :
    content <> [] ->
    lex_step st (Lexer.make_token 4 (fst (Lexer.intern_identifier content st)) content l p
                   (snd (Lexer.intern_identifier content st)))
| lex_condition (content : pystr) (l p : nat) (st : Lexer.lexer) :
    content <> [] ->
    lex_step st (Lexer.make_token 5 (fst (Lexer.intern_constant content st)) content l p
                   (snd (Lexer.intern_constant content st))).

Definition lex_steps : Lexer.lexer -> Lexer.lexer -> Prop := rtc lex_step.

Lemma Forall_lstrip (P : N -> Prop) (s : pystr) : Forall P s -> Forall P (lstrip s).
Proof.
  induction 1 as [|c s Hc Hs IH]; simpl; [constructor|].
  destruct (isspace c); [done | by constructor].
Qed.

Lemma Forall_strip (P : N -> Prop) (s : pystr) : Forall P s -> Forall P (strip s).
Proof.
  intros H. unfold strip, rstrip.
  apply List.Forall_rev, Forall_lstrip, List.Forall_rev, Forall_lstrip, H.
Qed.

Lemma forallb_dot (s : pystr) : forallb dot s = true -> Forall (fun x => dot x = true) s.
Proof. intros H. apply List.Forall_forall. by apply List.forallb_forall. Qed.

Lemma keyword_code (word : pystr) (code : nat) :
  Lexer.assoc Lexer.keywords word = Some code -> 1 <= code <= 13.
Proof.
  unfold Lexer.keywords. cbn [Lexer.assoc].
  repeat (destruct (eqb _ word); [intros [= <-]; lia|]). done.
Qed.

Section ScanSteps.
Context {U : UnicodeData}.
Import Lexer.

Lemma word_char_dot (c : N) : word_char c = true -> dot c = true.
Proof.
  intros H. unfold dot. apply negb_true_iff, N.eqb_neq. intros ->.
  by vm_compute in H.
Qed.

Lemma not_space_dot (c : N) : isspace c = false -> dot c = true.
Proof.
  intros H. unfold dot. apply negb_true_iff, N.eqb_neq. intros ->.
  by vm_compute in H.
Qed.

Lemma advance_while_steps (fuel : nat) (cond : N -> bool) :
  forall st st', advance_while fuel cond st = Some st' ->
    lex_steps st st' /\ cond (current_char st') = false.
Proof.
  induction fuel as [|fuel IH]; intros st st' H; simpl in H;
    destruct (cond (current_char st)) eqn:E; try done.
  - injection H as <-. split; [apply rtc_refl | done].
  - apply IH in H as [H1 H2]. split; [|done].
    eapply rtc_l; [apply lex_advance | exact H1].
  - injection H as <-. split; [apply rtc_refl | done].
Qed.

Lemma collect_while_steps (fuel : nat) (cond : N -> bool) :
  forall st st', collect_while fuel cond st = Some st' ->
    lex_steps st st' /\ cond (current_char st') = false /\
    exists w, buffer st' = buffer st ++ w /\ Forall (fun c => cond c = true) w.
Proof.
  induction fuel as [|fuel IH]; intros st st' H; simpl in H;
    destruct (cond (current_char st)) eqn:E; try done.
  - injection H as <-. split; [apply rtc_refl|]. split; [done|].
    exists []. by rewrite app_nil_r.
  - apply IH in H as (H1 & H2 & w & Hw & Fw). split; [|split; [done|]].
    + eapply rtc_l; [apply (lex_set_buffer (buffer st ++ [current_char st]))|].
      eapply rtc_l; [apply lex_advance | exact H1].
    + exists (current_char st :: w). simpl in Hw. rewrite Hw, <- app_assoc.
      split; [done | by constructor].
  - injection H as <-. split; [apply rtc_refl|]. split; [done|].
    exists []. by rewrite app_nil_r.
Qed.

Lemma error_steps (msg : pystr) (st st' : lexer) :
  clean msg -> error msg st = Some st' -> lex_steps st st'.
Proof.
  intros Hc H. unfold error in H. apply advance_while_steps in H as [H _].
  eapply rtc_l; [apply (lex_error msg st Hc) | exact H].
Qed.

Lemma plain_word_steps (word : pystr) (l p : nat) (st st' : lexer) :
  Forall (fun c => word_char c = true) word ->
  plain_word word l p st = Some st' -> lex_steps st st'.
Proof.
  intros Hw H. unfold plain_word in H.
  destruct (assoc keywords (lower word)) as [code|] eqn:E.
  - injection H as <-. apply rtc_once. constructor. by apply (keyword_code (lower word)).
  - apply error_steps in H; [done|].
    unfold clean. norm_lit. simpl. split; [reflexivity|].
    constructor; [reflexivity|].
    repeat (constructor; [reflexivity|]).
    apply Forall_app. split; [|by repeat constructor].
    eapply Forall_impl; [exact Hw|]. apply word_char_dot.
Qed.

Lemma scan_word_steps (st st' : lexer) : scan_word st = Some st' -> lex_steps st st'.
Proof.
  unfold scan_word. intros H.
  destruct (collect_while _ _ _) as [st1|] eqn:E1; [|done]. cbn [mbind option_bind] in H.
  apply collect_while_steps in E1 as (S1 & _ & w & Hw & Fw). simpl in Hw. subst.
  assert (lex_steps st st1) as S01.
  { eapply rtc_l; [apply (lex_set_buffer [])| exact S1]. }
  assert (Forall (fun c => word_char c = true) (strip (buffer st1))) as Fs.
  { by apply Forall_strip. }
  unfold after_word in H.
  destruct (eqb _ kw_repeat && isspace _);
    [|eapply rtc_trans; [exact S01 | by eapply plain_word_steps]].
  destruct (skip_whitespace st1) as [st2|] eqn:E2; [|done]. cbn [mbind option_bind] in H.
  apply advance_while_steps in E2 as [S2 _].
  destruct (isalpha _ && _).
  - destruct (skip_whitespace _) as [st4|] eqn:E4; [|done]. cbn [mbind option_bind] in H.
    apply advance_while_steps in E4 as [S4 _].
    destruct (advance_while _ _ st4) as [st5|] eqn:E5; [|done].
    cbn [mbind option_bind] in H. injection H as <-.
    apply advance_while_steps in E5 as [S5 _].
    eapply rtc_trans; [exact S01|]. eapply rtc_trans; [exact S2|].
    eapply rtc_l; [apply lex_set_position|]. eapply rtc_trans; [exact S4|].
    eapply rtc_trans; [exact S5|]. apply rtc_once. constructor. lia.
  - eapply rtc_trans; [exact S01|]. eapply rtc_trans; [exact S2|].
    by eapply plain_word_steps.
Qed.

End ScanSteps.

Section ScanStepsOn.
Context {U : UnicodeData}.
Import Lexer.

Lemma fixed_message_clean (s : string) :
  match lit s with
  | c :: m => negb (isspace c) && forallb dot (c :: m)
  | [] => false
  end = true ->
  clean (lit s).
Proof.
  unfold clean. destruct (lit s) as [|c m]; [done|]. intros H.
  apply andb_true_iff in H as [H1 H2]. split; [by apply negb_true_iff|].
  by apply forallb_dot.
Qed.

Lemma scan_action_steps (st st' : lexer) : scan_action st = Some st' -> lex_steps st st'.
Proof.
  unfold scan_action. intros H.
  unfold scan_payload in H. cbv zeta in H.
  destruct (collect_while _ _ _) as [st1|] eqn:E1; [|done].
  cbn [mbind option_bind] in H.
  apply collect_while_steps in E1 as (S1 & _ & _).
  eapply rtc_l; [apply (lex_delimiter delim_colon c_colon); unfold delimiter; tauto|].
  eapply rtc_l; [apply lex_advance|].
  eapply rtc_l; [apply (lex_set_buffer [])|].
  eapply rtc_trans; [exact S1|].
  destruct (strip (buffer st1)) as [|c0 content] eqn:Ec.
  - destruct (_ =? _)%N.
    + injection H as <-.
      eapply rtc_l; [apply (lex_delimiter delim_semi c_semi); unfold delimiter; tauto|].
      apply rtc_once, lex_advance.
    + apply error_steps in H; [exact H | by apply fixed_message_clean].
  - rewrite (surjective_pairing (intern_identifier (c0 :: content) st1)) in H.
    eapply rtc_l; [apply (lex_action (c0 :: content)); done|].
    destruct (_ =? _)%N.
    + injection H as <-.
      eapply rtc_l; [apply (lex_delimiter delim_semi c_semi); unfold delimiter; tauto|].
      apply rtc_once, lex_advance.
    + apply error_steps in H; [exact H | by apply fixed_message_clean].
Qed.

Lemma scan_condition_steps (st st' : lexer) :
  scan_condition st = Some st' -> lex_steps st st'.
Proof.
  unfold scan_condition. intros H.
  unfold scan_payload in H. cbv zeta in H.
  destruct (collect_while _ _ _) as [st1|] eqn:E1; [|done].
  cbn [mbind option_bind] in H.
  apply collect_while_steps in E1 as (S1 & _ & _).
  eapply rtc_l; [apply (lex_delimiter delim_lparen c_lparen); unfold delimiter; tauto|].
  eapply rtc_l; [apply lex_advance|].
  eapply rtc_l; [apply (lex_set_buffer [])|].
  eapply rtc_trans; [exact S1|].
  destruct (strip (buffer st1)) as [|c0 content] eqn:Ec.
  - destruct (_ =? _)%N.
    + injection H as <-.
      eapply rtc_l; [apply (lex_delimiter delim_rparen c_rparen); unfold delimiter; tauto|].
      apply rtc_once, lex_advance.
    + apply error_steps in H; [exact H | by apply fixed_message_clean].
  - rewrite (surjective_pairing (intern_constant (c0 :: content) st1)) in H.
    eapply rtc_l; [apply (lex_condition (c0 :: content)); done|].
    destruct (_ =? _)%N.
    + injection H as <-.
      eapply rtc_l; [apply (lex_delimiter delim_rparen c_rparen); unfold delimiter; tauto|].
      apply rtc_once, lex_advance.
    + apply error_steps in H; [exact H | by apply fixed_message_clean].
Qed.

Lemma scan_body_steps (st st' : lexer) : scan_body st = Some st' -> lex_steps st st'.
Proof.
  unfold scan_body. intros H.
  destruct (skip_whitespace st) as [st1|] eqn:E1; [|done]. cbn [mbind option_bind] in H.
  apply advance_while_steps in E1 as [S1 Hsp]. cbv zeta in H.
  eapply rtc_trans; [exact S1|].
  destruct (current_char st1 =? NUL)%N eqn:Enul; [injection H as <-; apply rtc_refl|].
  destruct (word_start _); [by apply scan_word_steps|].
  destruct (_ =? c_colon)%N; [by apply scan_action_steps|].
  destruct (_ =? c_lparen)%N; [by apply scan_condition_steps|].
  destruct (_ =? c_semi)%N.
  { injection H as <-.
    eapply rtc_l; [apply (lex_delimiter delim_semi c_semi); unfold delimiter; tauto|].
    apply rtc_once, lex_advance. }
  destruct (error _ st1) as [st2|] eqn:E2; [|done]. cbn [mbind option_bind] in H.
  injection H as <-. apply error_steps in E2.
  - eapply rtc_trans; [exact E2|]. apply rtc_once, lex_advance.
  - assert (isspace (current_char st1) = false) as Hc.
    { unfold is_space_char, not_nul in Hsp. rewrite Enul in Hsp. exact Hsp. }
    unfold clean. norm_lit. simpl. split; [reflexivity|].
    repeat (constructor; [reflexivity|]).
    constructor; [by apply not_space_dot|]. by repeat constructor.
Qed.

Lemma scan_loop_steps (fuel : nat) :
  forall st st', scan_loop fuel st = Some st' -> lex_steps st st'.
Proof.
  induction fuel as [|fuel IH]; intros st st' H; rewrite scan_loop_eq in H;
    (destruct (_ =? NUL)%N; [injection H as <-; apply rtc_refl|]); [done|].
  destruct (scan_body st) as [st1|] eqn:E; [|done]. cbn [mbind option_bind] in H.
  eapply rtc_trans; [by apply scan_body_steps | by apply IH].
Qed.

(** A scan is a sequence of steps from the initial scanner. *)
Lemma scan_steps (src : pystr) (st : lexer) :
  scan src = Some st -> lex_steps (init src) st.
Proof. unfold scan. apply scan_loop_steps. Qed.

End ScanStepsOn.

(* ===================================================================== *)
(** * The scanner: what every scan keeps *)
(* ===================================================================== *)

(** A chained table holds what the dictionary beside it holds, each number
    with the two defaults of [put]. *)
Definition mirrors (tbl : Lexer.ChainHashMap) (dict : gmap pystr nat) : Prop :=
  chm_ok tbl /\
  forall k, Lexer.chm_get tbl k = (fun n => (n, lit "string", true)) <$> dict !! k.

(** The numbers of a dictionary are those from 1 up to the counter, the
    counter left out, each given to one text. *)
Definition numbered (dict : gmap pystr nat) (counter : nat) : Prop :=
  1 <= counter /\
  (forall k n, dict !! k = Some n -> 1 <= n < counter) /\
  (forall k k' n, dict !! k = Some n -> dict !! k' = Some n -> k = k') /\
  (forall n, 1 <= n < counter -> exists k, dict !! k = Some n).

(** A token of the table: a keyword with a code of the keyword table, a
    delimiter with its code and its character as text, or a payload with a
    text that is not empty and the number this text has in the dictionary
    of its class. *)
Definition token_ok (ids consts : gmap pystr nat) (t : Lexer.Token) : Prop :=
  match Lexer.tclass t with
  | 1 => 1 <= Lexer.tvalue t <= 13
  | 2 => exists c, delimiter (Lexer.tvalue t) c /\ Lexer.ttext t = [c]
  | 4 => Lexer.ttext t <> [] /\ ids !! Lexer.ttext t = Some (Lexer.tvalue t)
  | 5 => Lexer.ttext t <> [] /\ consts !! Lexer.ttext t = Some (Lexer.tvalue t)
  | _ => False
  end.

(** Every entry of a dictionary is the payload of a token of its class. *)
Definition listed (cls : nat) (dict : gmap pystr nat) (tokens : list Lexer.Token) : Prop :=
  forall k n, dict !! k = Some n ->
    exists t, In t tokens /\ Lexer.tclass t = cls /\ Lexer.ttext t = k /\ Lexer.tvalue t = n.

Definition interned (st : Lexer.lexer) : Prop :=
  mirrors (Lexer.identifier_table st) (Lexer.identifiers st) /\
  numbered (Lexer.identifiers st) (Lexer.id_counter st) /\
  listed 4 (Lexer.identifiers st) (Lexer.lex_table st) /\
  mirrors (Lexer.constant_table st) (Lexer.constants st) /\
  numbered (Lexer.constants st) (Lexer.const_counter st) /\
  listed 5 (Lexer.constants st) (Lexer.lex_table st) /\
  Forall (token_ok (Lexer.identifiers st) (Lexer.constants st)) (Lexer.lex_table st).

Section ScanInvariants.
Context {U : UnicodeData}.
Import Lexer.

Lemma mirrors_new : mirrors (chm_new 10) ∅.
Proof.
  split; [apply chm_new_ok; lia|]. intros k.
  rewrite lookup_empty. apply chm_new_empty.
Qed.

Lemma mirrors_put (tbl : ChainHashMap) (dict : gmap pystr nat) (k : pystr) (c : nat) :
  mirrors tbl dict -> mirrors (chm_put tbl k c) (<[k := c]> dict).
Proof.
  intros [Hok H]. change (chm_put tbl k c) with (chm_put_as tbl k c (lit "string") true).
  split; [by apply chm_put_as_ok|]. intros k'.
  destruct (decide (k' = k)) as [->|Hk].
  - rewrite lookup_insert_eq. by apply chm_put_as_same.
  - rewrite lookup_insert_ne by done. rewrite chm_put_as_other by done. apply H.
Qed.

Lemma numbered_new : numbered ∅ 1.
Proof.
  split; [lia|]. split; [|split].
  - intros k n H. by rewrite lookup_empty in H.
  - intros k k' n H. by rewrite lookup_empty in H.
  - intros n Hn. lia.
Qed.

Lemma numbered_insert (dict : gmap pystr nat) (c : nat) (k : pystr) :
  numbered dict c -> dict !! k = None -> numbered (<[k := c]> dict) (S c).
Proof.
  intros (Hc & Hr & Hi & Hs) Hk. split; [lia|]. split; [|split].
  - intros k' n. destruct (decide (k' = k)) as [->|Hne].
    + rewrite lookup_insert_eq. intros [= <-]. lia.
    + rewrite lookup_insert_ne by done. intros H. apply Hr in H. lia.
  - intros k1 k2 n.
    destruct (decide (k1 = k)) as [->|H1]; destruct (decide (k2 = k)) as [->|H2].
    + done.
    + rewrite lookup_insert_eq. rewrite lookup_insert_ne by done.
      intros [= <-] H. apply Hr in H. lia.
    + rewrite lookup_insert_eq. rewrite lookup_insert_ne by done.
      intros H [= <-]. apply Hr in H. lia.
    + rewrite !lookup_insert_ne by done. apply Hi.
  - intros n Hn. destruct (decide (n = c)) as [->|Hne].
    + exists k. by rewrite lookup_insert_eq.
    + destruct (Hs n) as [k' Hk']; [lia|]. exists k'.
      rewrite lookup_insert_ne; [done|]. intros <-. congruence.
Qed.

Lemma token_ok_mono (ids ids' consts consts' : gmap pystr nat) (t : Token) :
  ids ⊆ ids' -> consts ⊆ consts' -> token_ok ids consts t -> token_ok ids' consts' t.
Proof.
  intros Hi Hc. unfold token_ok.
  destruct (tclass t) as [|[|[|[|[|[|]]]]]]; try done.
  - intros [H1 H2]. split; [done|]. by eapply lookup_weaken.
  - intros [H1 H2]. split; [done|]. by eapply lookup_weaken.
Qed.

Lemma listed_app (cls : nat) (dict : gmap pystr nat) (tokens more : list Token) :
  listed cls dict tokens -> listed cls dict (tokens ++ more).
Proof.
  intros H k n Hk. destruct (H k n Hk) as (t & Ht & Hrest).
  exists t. split; [apply in_or_app; by left | done].
Qed.

Lemma listed_insert (cls : nat) (dict : gmap pystr nat) (tokens : list Token)
    (k : pystr) (n l p : nat) :
  listed cls dict tokens ->
  listed cls (<[k := n]> dict)
    (tokens ++ [{| tclass := cls; tvalue := n; ttext := k; tline := l; tpos := p |}]).
Proof.
  intros H k' n'. destruct (decide (k' = k)) as [->|Hne].
  - rewrite lookup_insert_eq. intros [= <-].
    eexists. split; [apply in_or_app; right; by left | done].
  - rewrite lookup_insert_ne by done. intros Hk. by apply (listed_app cls dict).
Qed.

Lemma init_interned (src : pystr) : interned (init src).
Proof.
  unfold interned, init.
  cbn [identifier_table identifiers id_counter constant_table constants
         const_counter lex_table].
  split; [apply mirrors_new|]. split; [apply numbered_new|].
  split; [intros k n H; by rewrite lookup_empty in H|].
  split; [apply mirrors_new|]. split; [apply numbered_new|].
  split; [intros k n H; by rewrite lookup_empty in H | constructor].
Qed.

Lemma token_appended (st : lexer) (t : Token) :
  interned st -> token_ok (identifiers st) (constants st) t ->
  tclass t <> 4 -> tclass t <> 5 ->
  interned (make_token (tclass t) (tvalue t) (ttext t) (tline t) (tpos t) st).
Proof.
  intros (H1 & H2 & H3 & H4 & H5 & H6 & H7) Ht N4 N5.
  unfold interned. cbn [identifier_table identifiers id_counter constant_table constants
                          const_counter lex_table make_token].
  split; [done|]. split; [done|]. split; [by apply listed_app|].
  split; [done|]. split; [done|]. split; [by apply listed_app|].
  apply Forall_app. split; [done|]. constructor; [|constructor].
  by destruct t.
Qed.

Lemma step_interned (st st' : lexer) : lex_step st st' -> interned st -> interned st'.
Proof.
  intros Hstep H. destruct Hstep as [st|b st|p st|msg st Hm|code text l p st Hc
                                     |code c l p st Hd|content l p st Hc|content l p st Hc].
  - exact H.
  - exact H.
  - exact H.
  - exact H.
  - apply (token_appended st {| tclass := 1; tvalue := code; ttext := text;
                                tline := l; tpos := p |}); [done | exact Hc | done | done].
  - apply (token_appended st {| tclass := 2; tvalue := code; ttext := [c];
                                tline := l; tpos := p |}); [done | | done | done].
    by exists c.
  - destruct H as (H1 & H2 & H3 & H4 & H5 & H6 & H7).
    unfold intern_identifier. destruct (identifiers st !! content) as [n|] eqn:E;
      cbn [fst snd]; unfold interned;
      cbn [identifier_table identifiers id_counter constant_table constants
             const_counter lex_table make_token].
    + split; [done|]. split; [done|]. split; [by apply listed_app|].
      split; [done|]. split; [done|]. split; [by apply listed_app|].
      apply Forall_app. split; [done|]. constructor; [|constructor]. by split.
    + split; [by apply mirrors_put|]. split; [by apply numbered_insert|].
      split; [by apply listed_insert|].
      split; [done|]. split; [done|]. split; [by apply listed_app|].
      apply Forall_app. split.
      * eapply Forall_impl; [exact H7|]. intros t. apply token_ok_mono; [|done].
        by apply insert_subseteq.
      * constructor; [|constructor]. split; [done|]. cbn. by rewrite lookup_insert_eq.
  - destruct H as (H1 & H2 & H3 & H4 & H5 & H6 & H7).
    unfold intern_constant. destruct (constants st !! content) as [n|] eqn:E;
      cbn [fst snd]; unfold interned;
      cbn [identifier_table identifiers id_counter constant_table constants
             const_counter lex_table make_token].
    + split; [done|]. split; [done|]. split; [by apply listed_app|].
      split; [done|]. split; [done|]. split; [by apply listed_app|].
      apply Forall_app. split; [done|]. constructor; [|constructor]. by split.
    + split; [done|]. split; [done|]. split; [by apply listed_app|].
      split; [by apply mirrors_put|]. split; [by apply numbered_insert|].
      split; [by apply listed_insert|].
      apply Forall_app. split.
      * eapply Forall_impl; [exact H7|]. intros t. apply token_ok_mono; [done|].
        by apply insert_subseteq.
      * constructor; [|constructor]. split; [done|]. cbn. by rewrite lookup_insert_eq.
Qed.

Lemma steps_interned (st st' : lexer) : lex_steps st st' -> interned st -> interned st'.
Proof.
  induction 1 as [|x y z Hxy _ IH]; [done|]. intros H. by apply IH, (step_interned x).
Qed.

Lemma scan_interned (src : pystr) (st : lexer) : scan src = Some st -> interned st.
Proof.
  intros H. apply (steps_interned (init src)); [by apply scan_steps | apply init_interned].
Qed.

End ScanInvariants.

(** A diagram with the same action twice and the same label twice *)
Definition repeated_payloads : pystr :=
  lit "@startuml start :x := 1; if (x > 0) then (да) :x := 1; else (да) :y := 2; endif stop @enduml".

(** X13: after a scan of any text, every token of the table is a keyword
    with a code from 1 to 13, a delimiter with its code and its character as
    text, or a payload of class 4 or 5 whose text is not empty and whose
    value is the number of this text in the dictionary of its class; two
    payloads of one class carry the same number exactly when they carry the
    same text. *)
Theorem scan_numbers_payloads (U : UnicodeData) (src : pystr) (st : Lexer.lexer)
    (H : Lexer.scan src = Some st) :
  Forall (token_ok (Lexer.identifiers st) (Lexer.constants st)) (Lexer.get_lex_table st) /\
  (forall t1 t2,
     In t1 (Lexer.get_lex_table st) -> In t2 (Lexer.get_lex_table st) ->
     Lexer.tclass t1 = Lexer.tclass t2 -> Lexer.tclass t1 = 4 \/ Lexer.tclass t1 = 5 ->
     (Lexer.tvalue t1 = Lexer.tvalue t2 <-> Lexer.ttext t1 = Lexer.ttext t2)).
Proof.
  destruct (scan_interned src st H) as (_ & (_ & _ & Hi & _) & _ & _ & (_ & _ & Hc & _) & _ & Ht).
  split; [exact Ht|]. unfold Lexer.get_lex_table.
  intros t1 t2 H1 H2 Hcls Hpay.
  pose proof (proj1 (List.Forall_forall _ _) Ht t1 H1) as T1.
  pose proof (proj1 (List.Forall_forall _ _) Ht t2 H2) as T2.
  unfold token_ok in T1, T2. rewrite <- Hcls in T2.
  destruct Hpay as [E|E]; rewrite E in T1, T2; destruct T1 as [_ T1], T2 as [_ T2].
  - split; intros Heq.
    + rewrite Heq in T1. by apply (Hi _ _ _ T1 T2).
    + rewrite Heq in T1. congruence.
  - split; intros Heq.
    + rewrite Heq in T1. by apply (Hc _ _ _ T1 T2).
    + rewrite Heq in T1. congruence.
Qed.

Lemma scan_numbers_payloads_witness :
  exists st,
    Lexer.scan (U := cyrillic) repeated_payloads = Some st /\
    Forall (token_ok (Lexer.identifiers st) (Lexer.constants st)) (Lexer.get_lex_table st) /\
    (forall t1 t2,
       In t1 (Lexer.get_lex_table st) -> In t2 (Lexer.get_lex_table st) ->
       Lexer.tclass t1 = Lexer.tclass t2 -> Lexer.tclass t1 = 4 \/ Lexer.tclass t1 = 5 ->
       (Lexer.tvalue t1 = Lexer.tvalue t2 <-> Lexer.ttext t1 = Lexer.ttext t2)).
Proof.
  destruct (Lexer.scan (U := cyrillic) repeated_payloads) as [st|] eqn:E;
    [|vm_compute in E; discriminate].
  exists st. split; [reflexivity|].
  exact (scan_numbers_payloads cyrillic repeated_payloads st E).
Defined.

(** X14: after a scan of any text, the chained table of identifiers
    holds exactly the action payloads of the token table and the chained
    table of constants exactly the condition and label payloads: [get] of a
    text returns the number of a token with this text, the type "string" and
    the flag [True], and nothing for any other text.  The numbers given out
    are those from 1 up to the counter, no number twice. *)
Theorem scan_tables_hold_the_payloads (U : UnicodeData) (src : pystr) (st : Lexer.lexer)
    (H : Lexer.scan src = Some st) :
  (forall k r,
     Lexer.chm_get (Lexer.identifier_table st) k = Some r <->
     exists t, In t (Lexer.get_lex_table st) /\ Lexer.tclass t = 4 /\ Lexer.ttext t = k /\
               r = (Lexer.tvalue t, lit "string", true)) /\
  (forall k r,
     Lexer.chm_get (Lexer.constant_table st) k = Some r <->
     exists t, In t (Lexer.get_lex_table st) /\ Lexer.tclass t = 5 /\ Lexer.ttext t = k /\
               r = (Lexer.tvalue t, lit "string", true)) /\
  numbered (Lexer.identifiers st) (Lexer.id_counter st) /\
  numbered (Lexer.constants st) (Lexer.const_counter st).
Proof.
  destruct (scan_interned src st H) as ((_ & Mi) & Ni & Li & (_ & Mc) & Nc & Lc & Ht).
  unfold Lexer.get_lex_table.
  split; [|split; [|by split]].
  - intros k r. rewrite Mi. split.
    + destruct (Lexer.identifiers st !! k) as [n|] eqn:E; [|done]. intros [= <-].
      destruct (Li k n E) as (t & Hin & Hcls & Htext & Hval).
      exists t. by rewrite Hval.
    + intros (t & Hin & Hcls & <- & ->).
      pose proof (proj1 (List.Forall_forall _ _) Ht t Hin) as T.
      unfold token_ok in T. rewrite Hcls in T. destruct T as [_ T]. by rewrite T.
  - intros k r. rewrite Mc. split.
    + destruct (Lexer.constants st !! k) as [n|] eqn:E; [|done]. intros [= <-].
      destruct (Lc k n E) as (t & Hin & Hcls & Htext & Hval).
      exists t. by rewrite Hval.
    + intros (t & Hin & Hcls & <- & ->).
      pose proof (proj1 (List.Forall_forall _ _) Ht t Hin) as T.
      unfold token_ok in T. rewrite Hcls in T. destruct T as [_ T]. by rewrite T.
Qed.

Lemma scan_tables_hold_the_payloads_witness :
  exists st,
    Lexer.scan (U := cyrillic) repeated_payloads = Some st /\
    Lexer.chm_get (Lexer.identifier_table st) (lit "x := 1") = Some (1, lit "string", true) /\
    Lexer.id_counter st = 3 /\ Lexer.const_counter st = 3 /\
    numbered (Lexer.identifiers st) (Lexer.id_counter st).
Proof.
  destruct (Lexer.scan (U := cyrillic) repeated_payloads) as [st|] eqn:E;
    [|vm_compute in E; discriminate].
  exists st. split; [reflexivity|].
  split; [vm_compute in E; injection E as <-; vm_compute; reflexivity|].
  split; [vm_compute in E; injection E as <-; reflexivity|].
  split; [vm_compute in E; injection E as <-; reflexivity|].
  exact (proj1 (proj2 (proj2 (scan_tables_hold_the_payloads cyrillic repeated_payloads st E)))).
Defined.

(* ===================================================================== *)
(** * The scanner: every lexical error keeps its place *)
(* ===================================================================== *)

(** A message as [error] writes it: a line from 1 on, a column, and a text
    that can be read back whole *)
Definition placed (msg : pystr) : Prop :=
  exists (l p : nat) (m : pystr), 1 <= l /\ clean m /\
    msg = Lexer.error_prefix ++ str_nat l ++ lit "," ++ str_nat p ++ lit "): " ++ m.

(** The diagnostic of a lexical error at a line and a column *)
Definition lexer_diagnostic (l p : nat) (m : pystr) : diagnostic :=
  {| d_type := Error; d_line := Z.of_nat l; d_pos := Z.of_nat p; d_message := m;
     d_source := SrcLexer |}.

Definition positions (st : Lexer.lexer) : Prop :=
  1 <= Lexer.line_num st /\ Forall placed (Lexer.errors st).

Section Placed.
Context {U : UnicodeData}.
Import Lexer.

Lemma error_text (l p : nat) (m : pystr) :
  error_prefix ++ str_nat l ++ lit "," ++ str_nat p ++ lit "): " ++ m
  = lit "Ошибка" ++ [32%N] ++ [40%N] ++ str_nat l ++ [44%N] ++ str_nat p
      ++ [41%N] ++ [58%N] ++ [32%N] ++ m.
Proof.
  replace error_prefix with (lit "Ошибка" ++ [32%N; 40%N]) by (vm_compute; reflexivity).
  replace (lit ",") with [44%N] by (vm_compute; reflexivity).
  replace (lit "): ") with [41%N; 58%N; 32%N] by (vm_compute; reflexivity).
  rewrite <- !app_assoc. reflexivity.
Qed.

(** What [get_detailed_errors] makes of the messages of [error] *)
Lemma get_detailed_errors_add (msg : pystr) (l p : nat) (st : lexer) :
  clean msg ->
  get_detailed_errors
    (add_error (error_prefix ++ str_nat l ++ lit "," ++ str_nat p ++ lit "): " ++ msg) st)
  = get_detailed_errors st ++ [lexer_diagnostic l p msg].
Proof.
  intros Hc. unfold get_detailed_errors. cbn [errors add_error].
  rewrite map_app. f_equal. cbn [map]. f_equal.
  destruct (read_positioned (lit "Ошибка") (Star ws) l p msg blanks_pass_blank Hc)
    as (r & Hr & H1 & H2 & H3).
  rewrite error_text.
  change RE_ERROR with (positioned (lit "Ошибка") (Star ws)).
  rewrite Hr, H1, H2, H3, !int_of_str_nat. reflexivity.
Qed.

Lemma placed_read (errs : list pystr) (st : lexer) :
  Forall placed errs -> errors st = errs ->
  Forall2 (fun msg d => exists l p m, 1 <= l /\ clean m /\
                          msg = error_prefix ++ str_nat l ++ lit "," ++ str_nat p
                                  ++ lit "): " ++ m /\
                          d = lexer_diagnostic l p m)
          errs (get_detailed_errors st).
Proof.
  intros H E. unfold get_detailed_errors. rewrite E. clear E.
  induction H as [|msg errs (l & p & m & Hl & Hc & ->) _ IH]; cbn [map]; constructor; [|done].
  exists l, p, m. split; [done|]. split; [done|]. split; [done|].
  pose proof (get_detailed_errors_add m l p (init []) Hc) as Hadd.
  unfold get_detailed_errors in Hadd. cbn [errors add_error init app map] in Hadd.
  by injection Hadd.
Qed.

Lemma advance_while_errors (fuel : nat) (cond : N -> bool) :
  forall st st', advance_while fuel cond st = Some st' ->
    errors st' = errors st /\ lex_table st' = lex_table st.
Proof.
  induction fuel as [|fuel IH]; intros st st' H; rewrite advance_while_eq in H;
    destruct (cond (current_char st)); try done; try (by injection H as <-).
  by apply IH in H.
Qed.

Lemma step_positions (st st' : lexer) : lex_step st st' -> positions st -> positions st'.
Proof.
  intros Hstep [Hl He].
  destruct Hstep as [st|b st|p st|msg st Hm|code text l p st Hc
                     |code c l p st Hd|content l p st Hc|content l p st Hc];
    try (split; [exact Hl | exact He]).
  - split; [|exact He]. cbn [line_num advance]. destruct (_ =? LF)%N; lia.
  - split; [exact Hl|]. cbn [errors add_error]. apply Forall_app. split; [done|].
    constructor; [|constructor]. by exists (line_num st), (char_pos st), msg.
  - unfold intern_identifier. by destruct (identifiers st !! content).
  - unfold intern_constant. by destruct (constants st !! content).
Qed.

Lemma steps_positions (st st' : lexer) : lex_steps st st' -> positions st -> positions st'.
Proof.
  induction 1 as [|x y z Hxy _ IH]; [done|]. intros H. by apply IH, (step_positions x).
Qed.

End Placed.

(** A diagram with a word that is no keyword on its second line *)
Definition unknown_word : pystr :=
  Eval vm_compute in
    lit "@startuml" ++ [LF] ++ lit "start" ++ [LF] ++ lit "  begin" ++ [LF] ++ lit "stop @enduml".

(** X15: after a scan of any text, [get_detailed_errors] returns one
    diagnostic per recorded message, in their order, and each is an error
    of the source [lexer] that carries the line, from 1 on, and the column
    written into the message, and as its message the whole text behind the
    position: no lexical error is reported at line -1 and pos -1. *)
Theorem lexical_errors_keep_their_place (U : UnicodeData) (src : pystr) (st : Lexer.lexer)
    (H : Lexer.scan src = Some st) :
  Forall2 (fun msg d => exists l p m, 1 <= l /\ clean m /\
                          msg = Lexer.error_prefix ++ str_nat l ++ lit "," ++ str_nat p
                                  ++ lit "): " ++ m /\
                          d = lexer_diagnostic l p m)
          (Lexer.errors st) (Lexer.get_detailed_errors st).
Proof.
  apply placed_read; [|done].
  apply (steps_positions (Lexer.init src)); [by apply scan_steps|].
  split; [done | constructor].
Qed.

Lemma lexical_errors_keep_their_place_witness :
  exists st,
    Lexer.scan (U := cyrillic) unknown_word = Some st /\
    Lexer.get_detailed_errors (U := cyrillic) st
      = [lexer_diagnostic 3 7 (lit "Неизвестное ключевое слово: 'begin'")] /\
    Forall2 (fun msg d => exists l p m, 1 <= l /\ clean m /\
                            msg = Lexer.error_prefix ++ str_nat l ++ lit "," ++ str_nat p
                                    ++ lit "): " ++ m /\
                            d = lexer_diagnostic l p m)
            (Lexer.errors st) (Lexer.get_detailed_errors (U := cyrillic) st).
Proof.
  destruct (Lexer.scan (U := cyrillic) unknown_word) as [st|] eqn:E;
    [|vm_compute in E; discriminate].
  exists st. split; [reflexivity|].
  split; [vm_compute in E; injection E as <-; vm_compute; reflexivity|].
  exact (lexical_errors_keep_their_place cyrillic unknown_word st E).
Defined.

(** X16: [error] with a text that starts with no blank and holds no
    newline, called in any state of the scanner, adds exactly one
    diagnostic to those [get_detailed_errors] returns: an error of the
    source [lexer] at the line and the column where the scanner stood, with
    the text as its message.  It appends no token, and it leaves the scanner
    on a blank, a delimiter, ["@"] or the end. *)
Theorem error_is_read_back (U : UnicodeData) (msg : pystr) (st st' : Lexer.lexer)
    (Hc : clean msg) (H : Lexer.error msg st = Some st') :
  Lexer.get_detailed_errors st'
    = Lexer.get_detailed_errors st
        ++ [lexer_diagnostic (Lexer.line_num st) (Lexer.char_pos st) msg] /\
  Lexer.get_lex_table st' = Lexer.get_lex_table st /\
  Lexer.error_skip (Lexer.current_char st') = false.
Proof.
  unfold Lexer.error in H.
  pose proof (advance_while_errors _ _ _ _ H) as [He Ht].
  apply advance_while_steps in H as [_ Hstop].
  split; [|by split].
  rewrite <- (get_detailed_errors_add msg (Lexer.line_num st) (Lexer.char_pos st) st Hc).
  unfold Lexer.get_detailed_errors. by rewrite He.
Qed.

Lemma error_is_read_back_witness :
  exists st',
    Lexer.error (lit "Ожидается ';' в конце действия")
      (Lexer.init (lit "@startuml start :x")) = Some st' /\
    Lexer.get_detailed_errors (U := cyrillic) st'
      = [lexer_diagnostic 1 0 (lit "Ожидается ';' в конце действия")].
Proof.
  destruct (Lexer.error (lit "Ожидается ';' в конце действия")
              (Lexer.init (lit "@startuml start :x"))) as [st'|] eqn:E;
    [|vm_compute in E; discriminate].
  exists st'. split; [reflexivity|].
  exact (proj1 (error_is_read_back cyrillic (lit "Ожидается ';' в конце действия")
                  (Lexer.init (lit "@startuml start :x")) st'
                  ltac:(vm_compute; split; [reflexivity | repeat constructor]) E)).
Defined.

(* ===================================================================== *)
(** * The analyzer: every issue keeps its place *)
(* ===================================================================== *)

(** The first line of a text: what [.+] takes of it *)
Fixpoint first_line (m : pystr) : pystr :=
  match m with
  | c :: m' => if dot c then c :: first_line m' else []
  | [] => []
  end.

(** The diagnostic of a message of the analyzer *)
Definition semantic_diagnostic (sev : severity) (ln ps : nat) (m : pystr) : diagnostic :=
  {| d_type := sev; d_line := Z.of_nat ln; d_pos := Z.of_nat ps;
     d_message := first_line m; d_source := SrcSemantic |}.

(** A message that was written with the header of a position *)
Definition written (header : nat -> nat -> pystr) (msg : pystr) : Prop :=
  exists ln ps m, plain m /\ msg = header ln ps ++ m.

(** Such a message and the diagnostic that carries its position *)
Definition issue_placed (header : nat -> nat -> pystr) (sev : severity)
    (msg : pystr) (d : diagnostic) : Prop :=
  exists ln ps m, plain m /\ msg = header ln ps ++ m /\ d = semantic_diagnostic sev ln ps m.

Definition all_written (a : Sema.analyzer) : Prop :=
  Forall (written Sema.error_at) (Sema.errors a) /\
  Forall (written Sema.warning_at) (Sema.warnings a).

Section IssuePlaces.
Context {U : UnicodeData}.
Import Sema.

Lemma first_line_split (m : pystr) :
  exists tl, m = first_line m ++ tl /\ Forall (fun x => dot x = true) (first_line m) /\
             stops dot tl.
Proof.
  induction m as [|c m (tl & E & Hd & Hs)]; [by exists []|]. simpl.
  destruct (dot c) eqn:Ec.
  - exists tl. split; [simpl; by rewrite <- E|]. split; [by constructor | done].
  - exists (c :: m). by repeat split.
Qed.

Lemma issue_of_positioned (sev : severity) (head : pystr) (ln ps : nat) (m : pystr) :
  plain m ->
  issue_of sev head
    (head ++ [32%N] ++ [40%N] ++ str_nat ln ++ [44%N] ++ str_nat ps
       ++ [41%N] ++ [58%N] ++ [32%N] ++ m)
  = [semantic_diagnostic sev ln ps m].
Proof.
  intros Hp. destruct m as [|c m]; [done|]. simpl in Hp.
  destruct (first_line_split (c :: m)) as (tl & E & Hd & Hs).
  assert (first_line (c :: m) = c :: first_line m) as Hf.
  { simpl. by rewrite (not_space_dot c Hp). }
  rewrite Hf in E, Hd.
  destruct (read_positioned_line head (ch 32) ln ps c (first_line m) tl
              blank_passes_blank Hp Hd Hs) as (r & Hr & H1 & H2 & H3).
  unfold issue_of, semantic_diagnostic. rewrite Hf.
  change (RE_ISSUE head) with (positioned head (ch 32)).
  by rewrite E, Hr, H1, H2, H3, !int_of_str_nat.
Qed.

Lemma issue_of_error (ln ps : nat) (m : pystr) :
  plain m -> issue_of Error (lit "Ошибка") (error_at ln ps ++ m)
             = [semantic_diagnostic Error ln ps m].
Proof.
  intros Hp. rewrite <- (issue_of_positioned Error (lit "Ошибка") ln ps m Hp). f_equal.
  unfold error_at. norm_lit. rewrite <- !app_assoc. reflexivity.
Qed.

Lemma issue_of_warning (ln ps : nat) (m : pystr) :
  plain m -> issue_of Warning (lit "Предупреждение") (warning_at ln ps ++ m)
             = [semantic_diagnostic Warning ln ps m].
Proof.
  intros Hp.
  rewrite <- (issue_of_positioned Warning (lit "Предупреждение") ln ps m Hp). f_equal.
  unfold warning_at. norm_lit. rewrite <- !app_assoc. reflexivity.
Qed.

Lemma written_issues (sev : severity) (head : pystr) (header : nat -> nat -> pystr)
    (msgs : list pystr) :
  (forall ln ps m, plain m ->
     issue_of sev head (header ln ps ++ m) = [semantic_diagnostic sev ln ps m]) ->
  Forall (written header) msgs ->
  Forall2 (issue_placed header sev) msgs (flat_map (issue_of sev head) msgs).
Proof.
  intros Hread. induction 1 as [|msg msgs (ln & ps & m & Hp & ->) _ IH]; [constructor|].
  cbn [flat_map]. rewrite (Hread ln ps m Hp). cbn [app]. constructor; [|exact IH].
  by exists ln, ps, m.
Qed.

Lemma steps_written (a a' : analyzer) : sema_steps a a' -> all_written a -> all_written a'.
Proof.
  induction 1 as [a|a a1 a2 Hs _ IH]; [done|]. intros [He Hw]. apply IH.
  destruct Hs as [nm ty arr decl ln ps a0 | ln ps msg a0 Hp | ln ps msg a0 Hp].
  - by split.
  - split; [|done]. simpl. apply Forall_app. split; [done|].
    constructor; [by exists ln, ps, msg | constructor].
  - split; [done|]. simpl. apply Forall_app. split; [done|].
    constructor; [by exists ln, ps, msg | constructor].
Qed.

End IssuePlaces.

(** An output of a name that was never assigned, then a block of no form
    that runs over two lines *)
Definition warned_then_refused : Parser.Node :=
  Parser.mkNode Parser.t_program None
    [ Parser.mkNode Parser.t_action_content (Some (lit "Вывод: y")) [] 1 17;
      Parser.mkNode Parser.t_action_content (Some (lit "???" ++ [LF] ++ lit "!!!")) [] 2 1 ]
    1 1.

(** X3: [get_all_issues] drops none of the messages an analysis has
    recorded: it returns one diagnostic per error, then one per warning, in
    their order, each of the source [semantic] with the line and the
    position written into the header of the message.  The message of the
    diagnostic is the text behind the header up to its first line break: a
    payload quoted in it that runs over several lines is cut there. *)
Theorem every_issue_is_reported (U : UnicodeData) (root : option Parser.Node)
    (a : Sema.analyzer) (H : Sema.analyze root = Some a) :
  exists es ws,
    Sema.get_all_issues a = es ++ ws /\
    Forall2 (issue_placed Sema.error_at Error) (Sema.errors a) es /\
    Forall2 (issue_placed Sema.warning_at Warning) (Sema.warnings a) ws.
Proof.
  assert (all_written a) as [He Hw].
  { destruct root as [root|]; simpl in H.
    - destruct (visit_steps root {| Sema.symbol_table := ∅; Sema.errors := [];
                                    Sema.warnings := [] |}) as (a1 & E & Hsteps).
      rewrite E in H. injection H as <-.
      apply (steps_written _ _ Hsteps). by split.
    - injection H as <-. by split. }
  do 2 eexists. split; [reflexivity|]. split.
  - apply written_issues; [apply issue_of_error | exact He].
  - apply written_issues; [apply issue_of_warning | exact Hw].
Qed.

Lemma every_issue_is_reported_witness :
  exists a,
    Sema.analyze (U := cyrillic) (Some warned_then_refused) = Some a /\
    map (fun d => (d_type d, d_line d, d_pos d)) (Sema.get_all_issues (U := cyrillic) a)
      = [(Error, 2%Z, 1%Z); (Warning, 1%Z, 17%Z)] /\
    exists es ws,
      Sema.get_all_issues (U := cyrillic) a = es ++ ws /\
      Forall2 (issue_placed Sema.error_at Error) (Sema.errors a) es /\
      Forall2 (issue_placed Sema.warning_at Warning) (Sema.warnings a) ws.
Proof.
  destruct (Sema.analyze (U := cyrillic) (Some warned_then_refused)) as [a|] eqn:E;
    [|vm_compute in E; discriminate].
  exists a. split; [reflexivity|].
  split; [vm_compute in E; injection E as <-; vm_compute; reflexivity|].
  exact (every_issue_is_reported cyrillic (Some warned_then_refused) a E).
Defined.

(* ===================================================================== *)
(** * The parser: [expect] and the diagnostic of its message *)
(* ===================================================================== *)

(** The shape of the pattern of [get_detailed_errors]: the word [head],
    blanks, what stands in the brackets, a colon, blanks, the text. *)
Definition informed {U : UnicodeData} (head : pystr) : regex :=
  seqs [str head; Star ws; ch 40; Group 1 (plus (fun c => negb (c =? 41)%N));
        ch 41; ch 58; Star ws; Group 2 (plus dot)].

(** The diagnostic of a syntax error *)
Definition parser_diagnostic (l p : Z) (m : pystr) : diagnostic :=
  {| d_type := Error; d_line := l; d_pos := p; d_message := m; d_source := SrcParser |}.

Section ReadInfo.
Context {U : UnicodeData}.

Lemma read_info (head : pystr) (i : N) (info msg : pystr) :
  Forall (fun x => negb (x =? 41)%N = true) (i :: info) -> clean msg ->
  exists r,
    rematch (informed head)
      (head ++ [32%N] ++ [40%N] ++ (i :: info) ++ [41%N] ++ [58%N] ++ [32%N] ++ msg)
      = Some r /\
    group' r 1 = i :: info /\ group' r 2 = msg.
Proof.
  intros Hinfo Hclean. destruct msg as [|c m]; [done|]. destruct Hclean as [Hc Hdot].
  inversion Hdot as [|? ? Hdc Hdm]; subst. inversion Hinfo as [|? ? Hi His]; subst.
  set (text := head ++ [32%N] ++ [40%N] ++ (i :: info) ++ [41%N] ++ [58%N] ++ [32%N]
                 ++ c :: m).
  assert (exists f, run (informed head) (start_state text) Some = Some f /\
            caps f =
              [ (2, (0 + length head + 1 + 1 + length (i :: info) + 1 + 1 + 1,
                     0 + length head + 1 + 1 + length (i :: info) + 1 + 1 + 1
                       + length (c :: m)));
                (1, (0 + length head + 1 + 1,
                     0 + length head + 1 + 1 + length (i :: info))) ])
    as (f & Hrun & Hcaps).
  { eexists. split.
    - unfold informed. cbn [seqs]. rewrite run_seq.
      set (s0 := start_state text).
      assert (rest s0 = head ++ [32%N] ++ [40%N] ++ (i :: info) ++ [41%N] ++ [58%N]
                          ++ [32%N] ++ (c :: m) ++ []) as R0.
      { subst s0 text. simpl rest. by rewrite app_nil_r. }
      eapply run_str_is; [exact R0|]. apply rest_after in R0.
      cbv beta; rewrite run_seq.
      eapply blanks_pass_blank; [exact R0 | reflexivity |]. apply (rest_after [32%N]) in R0.
      cbv beta; rewrite run_seq.
      eapply run_ch_is; [exact R0|]. apply (rest_after [40%N]) in R0.
      cbv beta; rewrite run_seq, run_group.
      eapply (run_plus_is _ i info); [exact R0 | exact Hi | exact His | reflexivity |].
      apply (rest_after (i :: info)) in R0.
      cbv beta; rewrite run_seq.
      eapply run_ch_is; [rewrite rest_close_group; exact R0|].
      match goal with
      | |- context [after ?s [41%N]] =>
        assert (rest (after s [41%N]) = [58%N] ++ [32%N] ++ (c :: m) ++ [])
          as R2 by (apply (rest_after [41%N]); rewrite rest_close_group; exact R0)
      end.
      cbv beta; rewrite run_seq.
      eapply run_ch_is; [exact R2|]. apply (rest_after [58%N]) in R2.
      cbv beta; rewrite run_seq.
      eapply blanks_pass_blank; [exact R2 | exact Hc |]. apply (rest_after [32%N]) in R2.
      cbv beta; rewrite run_group.
      eapply (run_plus_is _ c m []); [exact R2 | exact Hdc | exact Hdm | exact I |].
      reflexivity.
    - cbn [caps close_group]. rewrite !caps_after. cbn [caps close_group].
      rewrite !caps_after. cbn [caps close_group start_state].
      repeat (rewrite !mpos_after; cbn [mpos close_group start_state]).
      reflexivity. }
  unfold rematch. rewrite Hrun. cbn [mbind option_bind]. eexists. split; [reflexivity|].
  unfold group', group. cbn [final subject]. rewrite Hcaps.
  cbn [List.find fst snd Nat.eqb].
  split.
  - subst text.
    replace (head ++ [32%N] ++ [40%N] ++ (i :: info) ++ [41%N] ++ [58%N] ++ [32%N] ++ c :: m)
      with ((head ++ [32%N] ++ [40%N]) ++ (i :: info) ++ [41%N] ++ [58%N] ++ [32%N] ++ c :: m)
      by (rewrite <- !app_assoc; reflexivity).
    apply slice_piece; rewrite ?length_app; simpl; lia.
  - subst text.
    replace (head ++ [32%N] ++ [40%N] ++ (i :: info) ++ [41%N] ++ [58%N] ++ [32%N] ++ c :: m)
      with ((head ++ [32%N] ++ [40%N] ++ (i :: info) ++ [41%N] ++ [58%N] ++ [32%N])
              ++ (c :: m) ++ [])
      by (rewrite <- !app_assoc, app_nil_r; reflexivity).
    apply slice_piece; rewrite ?length_app; simpl; lia.
Qed.

(** "(\d+),(\d+)" reads the two numbers of a position. *)
Lemma read_pair (l p : nat) :
  exists r,
    rematch Parser.RE_POSITION (str_nat l ++ [44%N] ++ str_nat p) = Some r /\
    group' r 1 = str_nat l /\ group' r 2 = str_nat p.
Proof.
  destruct (str_nat_shape l) as (d1 & ds1 & E1 & Hd1 & Hds1).
  destruct (str_nat_shape p) as (d2 & ds2 & E2 & Hd2 & Hds2).
  set (text := str_nat l ++ [44%N] ++ str_nat p).
  assert (exists f, run Parser.RE_POSITION (start_state text) Some = Some f /\
            caps f =
              [ (2, (0 + length (str_nat l) + 1,
                     0 + length (str_nat l) + 1 + length (str_nat p)));
                (1, (0, 0 + length (str_nat l))) ])
    as (f & Hrun & Hcaps).
  { eexists. split.
    - unfold Parser.RE_POSITION. cbn [seqs]. rewrite run_seq, run_group.
      set (s0 := start_state text).
      assert (rest s0 = (d1 :: ds1) ++ [44%N] ++ (d2 :: ds2) ++ []) as R0.
      { subst s0 text. simpl rest. by rewrite E1, E2, app_nil_r. }
      eapply (run_plus_is _ d1 ds1);
        [exact R0 | by apply ascii_digit_digit | by apply ascii_digits_digit
        | reflexivity |].
      apply (rest_after (d1 :: ds1)) in R0.
      cbv beta; rewrite run_seq.
      eapply run_ch_is; [rewrite rest_close_group; exact R0|].
      match goal with
      | |- context [after ?s [44%N]] =>
        assert (rest (after s [44%N]) = (d2 :: ds2) ++ [])
          as R1 by (apply (rest_after [44%N]); rewrite rest_close_group; exact R0)
      end.
      cbv beta; rewrite run_group.
      eapply (run_plus_is _ d2 ds2 []);
        [exact R1 | by apply ascii_digit_digit | by apply ascii_digits_digit | exact I |].
      reflexivity.
    - cbn [caps close_group]. rewrite !caps_after. cbn [caps close_group].
      rewrite !caps_after. cbn [caps close_group start_state].
      repeat (rewrite !mpos_after; cbn [mpos close_group start_state]).
      rewrite <- E1, <- E2. reflexivity. }
  unfold rematch. rewrite Hrun. cbn [mbind option_bind]. eexists. split; [reflexivity|].
  unfold group', group. cbn [final subject]. rewrite Hcaps.
  cbn [List.find fst snd Nat.eqb].
  split.
  - subst text. change (str_nat l ++ [44%N] ++ str_nat p)
      with ([] ++ str_nat l ++ [44%N] ++ str_nat p).
    apply slice_piece; simpl; lia.
  - subst text.
    replace (str_nat l ++ [44%N] ++ str_nat p)
      with ((str_nat l ++ [44%N]) ++ str_nat p ++ [])
      by (rewrite <- !app_assoc, app_nil_r; reflexivity).
    apply slice_piece; rewrite ?length_app; simpl; lia.
Qed.

Lemma ascii_digit_dot (c : N) : ascii_digit c -> dot c = true.
Proof.
  unfold ascii_digit, is_ascii_digit, in_range, dot. intros H.
  apply andb_true_iff in H as [H1 _]. apply N.leb_le in H1.
  apply negb_true_iff, N.eqb_neq. unfold LF. lia.
Qed.

Lemma str_nat_dot (n : nat) : Forall (fun x => dot x = true) (str_nat n).
Proof.
  destruct (str_nat_shape n) as (d & ds & -> & Hd & Hds).
  constructor; [by apply ascii_digit_dot|].
  eapply Forall_impl; [exact Hds|]. apply ascii_digit_dot.
Qed.

Lemma ascii_digit_inside (c : N) : ascii_digit c -> negb (c =? 41)%N = true.
Proof.
  unfold ascii_digit, is_ascii_digit, in_range. intros H.
  apply andb_true_iff in H as [H1 _]. apply N.leb_le in H1.
  apply negb_true_iff, N.eqb_neq. lia.
Qed.

Lemma clean_app (a b : pystr) :
  clean a -> Forall (fun x => dot x = true) b -> clean (a ++ b).
Proof.
  destruct a as [|c a]; [done|]. intros [Hc Ha] Hb. split; [done|].
  change (Forall (fun x => dot x = true) ((c :: a) ++ b)). apply Forall_app. by split.
Qed.

(** A message of [expect] at a token is reported at the place of the
    token. *)
Lemma detailed_error_at (l p : nat) (msg : pystr) :
  clean msg ->
  Parser.detailed_error (Parser.at_pos l p ++ msg)
  = parser_diagnostic (Z.of_nat l) (Z.of_nat p) msg.
Proof.
  intros Hc.
  destruct (str_nat_shape l) as (d1 & ds1 & E1 & Hd1 & Hds1).
  destruct (str_nat_shape p) as (d2 & ds2 & E2 & Hd2 & Hds2).
  assert (Forall (fun x => negb (x =? 41)%N = true) (d1 :: ds1 ++ [44%N] ++ str_nat p))
    as Hinfo.
  { constructor; [by apply ascii_digit_inside|]. apply Forall_app. split.
    - eapply Forall_impl; [exact Hds1|]. apply ascii_digit_inside.
    - constructor; [reflexivity|]. rewrite E2. constructor; [by apply ascii_digit_inside|].
      eapply Forall_impl; [exact Hds2|]. apply ascii_digit_inside. }
  destruct (read_info (lit "Ошибка") d1 (ds1 ++ [44%N] ++ str_nat p) msg Hinfo Hc)
    as (r & Hr & H1 & H2).
  destruct (read_pair l p) as (r' & Hr' & H1' & H2').
  unfold Parser.detailed_error.
  change Parser.RE_ERROR with (informed (lit "Ошибка")).
  replace (Parser.at_pos l p ++ msg)
    with (lit "Ошибка" ++ [32%N] ++ [40%N] ++ (d1 :: ds1 ++ [44%N] ++ str_nat p)
            ++ [41%N] ++ [58%N] ++ [32%N] ++ msg).
  - rewrite Hr. cbv zeta. rewrite H1, H2.
    assert (eqb (lower (d1 :: ds1 ++ [44%N] ++ str_nat p)) (lit "конец файла") = false)
      as ->.
    { apply eqb_neq. unfold lower. cbn [flat_map]. unfold lower_char at 1.
      unfold ascii_digit, is_ascii_digit, is_ascii_upper, in_range in *.
      apply andb_true_iff in Hd1 as [A1 A2]. apply N.leb_le in A1, A2.
      assert ((d1 <? 128)%N = true) as -> by (apply N.ltb_lt; lia).
      assert (((65 <=? d1) && (d1 <=? 90))%N = false) as ->.
      { apply andb_false_iff. left. apply N.leb_gt. lia. }
      intros E. vm_compute (lit _) in E. injection E as E _. lia. }
    change (d1 :: ds1 ++ [44%N] ++ str_nat p) with ((d1 :: ds1) ++ [44%N] ++ str_nat p).
    rewrite <- E1, Hr', H1', H2', !int_of_str_nat. reflexivity.
  - unfold Parser.at_pos.
    replace Lexer.error_prefix with (lit "Ошибка" ++ [32%N; 40%N])
      by (vm_compute; reflexivity).
    replace (lit ",") with [44%N] by (vm_compute; reflexivity).
    replace (lit "): ") with [41%N; 58%N; 32%N] by (vm_compute; reflexivity).
    rewrite E1. rewrite <- ?app_assoc. cbn [app]. rewrite <- ?app_assoc. cbn [app].
    reflexivity.
Qed.

(** A message of [expect] at the end of the table is reported without a
    place. *)
Lemma detailed_error_at_eof (msg : pystr) :
  lower (lit "конец файла") = lit "конец файла" -> clean msg ->
  Parser.detailed_error (Parser.at_eof ++ msg) = parser_diagnostic (-1) (-1) msg.
Proof.
  intros Hlower Hc.
  assert (exists i info, lit "конец файла" = i :: info /\
            Forall (fun x => negb (x =? 41)%N = true) (i :: info))
    as (i & info & Ei & Hinfo).
  { do 2 eexists. split; [vm_compute; reflexivity|]. repeat constructor. }
  destruct (read_info (lit "Ошибка") i info msg Hinfo Hc) as (r & Hr & H1 & H2).
  unfold Parser.detailed_error.
  change Parser.RE_ERROR with (informed (lit "Ошибка")).
  replace (Parser.at_eof ++ msg)
    with (lit "Ошибка" ++ [32%N] ++ [40%N] ++ (i :: info) ++ [41%N] ++ [58%N] ++ [32%N]
            ++ msg).
  - rewrite Hr. cbv zeta. rewrite H1, H2, <- Ei, Hlower, eqb_refl. reflexivity.
  - rewrite <- Ei.
    replace Parser.at_eof
      with (lit "Ошибка" ++ [32%N] ++ [40%N] ++ lit "конец файла" ++ [41%N; 58%N; 32%N])
      by (vm_compute; reflexivity).
    rewrite <- !app_assoc. reflexivity.
Qed.

Lemma or_default_clean (message : option pystr) (default : pystr) :
  (forall m, message = Some m -> m = [] \/ clean m) -> clean default ->
  clean (Parser.or_default message default).
Proof.
  intros Hm Hd. destruct message as [[|c m]|]; [done| |done].
  destruct (Hm (c :: m) eq_refl) as [?|H]; [done | exact H].
Qed.

End ReadInfo.

(** A table whose second token is not the one expected *)
Definition start_missing : Parser.parser :=
  {| Parser.p_lex_table :=
       [ {| Lexer.tclass := 1; Lexer.tvalue := 1; Lexer.ttext := lit "@startuml";
            Lexer.tline := 1; Lexer.tpos := 0 |};
         {| Lexer.tclass := 2; Lexer.tvalue := 4; Lexer.ttext := lit ":";
            Lexer.tline := 2; Lexer.tpos := 3 |} ];
     Parser.p_position := 1; Parser.p_errors := [] |}.

(** X17: [expect] returns the current token and steps over it exactly
    when [match] holds for it, and then records nothing.  Otherwise it
    stays where it is and adds exactly one diagnostic to those
    [get_detailed_errors] returns: an error of the source [parser] with the
    line and the position of the current token, or with -1 and -1 when the
    table is at its end, and as its message the text passed to [expect], or
    the default text when none was passed.  (The texts are such that start
    with no blank and hold no newline; the first hypothesis says that
    lowering the lower-case words "конец файла" changes nothing, as it does
    in Python.) *)
Theorem expect_reports_the_token (U : UnicodeData) (c : nat) (v : option nat)
    (message : option pystr) (st : Parser.parser)
    (Hlower : lower (lit "конец файла") = lit "конец файла")
    (Hm : forall m, message = Some m -> m = [] \/ clean m) :
  match Parser.expect c v message st with
  | (Some t, st') =>
    Parser.matches c v st = true /\ Parser.current_token st = Some t /\
    Parser.p_position st' = S (Parser.p_position st) /\
    Parser.get_detailed_errors st' = Parser.get_detailed_errors st
  | (None, st') =>
    Parser.matches c v st = false /\
    Parser.p_position st' = Parser.p_position st /\
    exists text,
      (forall m, message = Some m -> m <> [] -> text = m) /\
      Parser.get_detailed_errors st'
      = Parser.get_detailed_errors st
          ++ [match Parser.current_token st with
              | Some t => parser_diagnostic (Z.of_nat (Lexer.tline t))
                            (Z.of_nat (Lexer.tpos t)) text
              | None => parser_diagnostic (-1) (-1) text
              end]
  end.
Proof.
  assert (forall default, (forall m, message = Some m -> m <> [] ->
                             Parser.or_default message default = m)) as Htext.
  { intros default m -> Hne. by destruct m. }
  assert (forall msg, Parser.get_detailed_errors (Parser.p_error msg st)
                      = Parser.get_detailed_errors st ++ [Parser.detailed_error msg])
    as Hadd.
  { intros msg. unfold Parser.get_detailed_errors. cbn [Parser.p_errors Parser.p_error].
    by rewrite map_app. }
  unfold Parser.expect, Parser.matches, Parser.next_token.
  destruct (Parser.current_token st) as [t|] eqn:Et.
  - destruct (Lexer.tclass t =? c) eqn:Ec; cbn [negb andb].
    + destruct v as [x|].
      * destruct (Lexer.tvalue t =? x) eqn:Ev; cbn [negb]; [by repeat split|].
        split; [done|]. split; [done|]. eexists. split; [apply Htext|].
        rewrite Hadd, detailed_error_at; [reflexivity|].
        apply or_default_clean; [exact Hm|].
        apply clean_app; [by vm_compute; split; [|repeat constructor]|].
        apply Forall_app. split; [apply str_nat_dot|].
        apply Forall_app. split; [by apply forallb_dot | apply str_nat_dot].
      * by repeat split.
    + split; [done|]. split; [done|]. eexists. split; [apply Htext|].
      rewrite Hadd, detailed_error_at; [reflexivity|].
      apply or_default_clean; [exact Hm|].
      apply clean_app; [by vm_compute; split; [|repeat constructor]|].
      apply Forall_app. split; [apply str_nat_dot|].
      apply Forall_app. split; [by apply forallb_dot | apply str_nat_dot].
  - split; [done|]. split; [done|]. eexists. split; [apply Htext|].
    rewrite Hadd, detailed_error_at_eof; [reflexivity | exact Hlower |].
    apply or_default_clean; [exact Hm|].
    apply clean_app; [by vm_compute; split; [|repeat constructor]|].
    apply str_nat_dot.
Qed.

Lemma expect_reports_the_token_witness :
  Parser.get_detailed_errors (U := cyrillic)
    (snd (Parser.expect 1 (Some 2) (Some (lit "Ожидается 'start'")) start_missing))
  = [parser_diagnostic 2 3 (lit "Ожидается 'start'")].
Proof.
  pose proof (expect_reports_the_token cyrillic 1 (Some 2) (Some (lit "Ожидается 'start'"))
                start_missing ltac:(vm_compute; reflexivity)
                ltac:(intros m [= <-]; right; vm_compute; split;
                      [reflexivity | repeat constructor])) as H.
  destruct (Parser.expect 1 (Some 2) (Some (lit "Ожидается 'start'")) start_missing)
    as [[t|] st'] eqn:E; [vm_compute in E; discriminate|].
  destruct H as (_ & _ & text & Htext & H). cbn [snd]. rewrite H.
  rewrite (Htext _ eq_refl ltac:(vm_compute; discriminate)). reflexivity.
Defined.

(* ===================================================================== *)
(** * The generator: texts without a literal, and bare keywords *)
(* ===================================================================== *)

Section Literals.
Import CodeGen.

(** No literal starts where no quotation mark stands. *)
Lemma no_literal_at (c : N) (tl : pystr) (s : mstate) :
  rest s = c :: tl -> quote c = false -> run RE_LITERAL s Some = None.
Proof.
  intros H Hc. unfold RE_LITERAL. cbn [seqs]. rewrite run_group, run_seq.
  cbn [run]. by rewrite (step_after c tl s H), Hc.
Qed.

Lemma no_literal_in (ahead : pystr) :
  Forall (fun c => quote c = false) ahead ->
  forall (s : mstate) (skip : nat), rest s = ahead ->
    matches_from RE_LITERAL ahead s skip = [].
Proof.
  induction 1 as [|c ahead Hc _ IH]; intros s skip H; [done|].
  cbn [matches_from]. rewrite (step_after c ahead s H).
  destruct skip as [|k].
  - rewrite (no_literal_at c ahead s H Hc). apply IH. by apply (rest_after [c]).
  - apply IH. by apply (rest_after [c]).
Qed.

End Literals.

(** X18: [_process_string_literals], the function applied to the two
    bounds of a counting loop, returns a text that holds neither an
    apostrophe nor a double quotation mark as it is. *)
Theorem text_without_literal_is_kept (expr : pystr)
    (H : Forall (fun c => quote c = false) expr) :
  CodeGen.process_string_literals expr = expr.
Proof.
  destruct expr as [|c e]; [done|].
  unfold CodeGen.process_string_literals, split.
  rewrite (no_literal_in (c :: e) H (start_state (c :: e)) 0 eq_refl).
  cbn [split_pieces drop List.filter nonempty map concat].
  assert (rematch Sema.RE_QUOTED (c :: e) = None) as ->.
  { inversion H as [|? ? Hc _]; subst. unfold rematch, Sema.RE_QUOTED. cbn [seqs].
    rewrite run_seq. cbn [run start_state mpos Nat.eqb step rest]. by rewrite Hc. }
  cbn [matched]. by rewrite app_nil_r.
Qed.

Lemma text_without_literal_is_kept_witness :
  CodeGen.process_string_literals (lit "n - 1") = lit "n - 1".
Proof.
  exact (text_without_literal_is_kept (lit "n - 1")
           ltac:(vm_compute; repeat constructor)).
Defined.

(** X19: an action that holds the word of an input and nothing behind it
    passes the analysis without an error, a warning or a symbol, and the
    generator writes no line for it and records the error of an empty list
    of variables at the line of the action.  An action that holds the word
    of an output and nothing behind it makes the analysis warn of an empty
    output, and the generator writes [writeln();] and records nothing. *)
Theorem bare_input_and_output (U : UnicodeData) (content : pystr) (ln ps : nat)
    (a : Sema.analyzer) (g : CodeGen.gen) :
  (strip content = lit "Ввод:" ->
   Sema.analyze_action_content content ln ps a = Some a /\
   CodeGen.generate_action (Some content) ln g
   = CodeGen.record_error (lit "Пустой список переменных в Ввод:") (Z.of_nat ln) g) /\
  (strip content = lit "Вывод:" ->
   Sema.analyze_action_content content ln ps a
   = Some (Sema.add_warning (Sema.warning_at ln ps ++ lit "Пустой вывод") a) /\
   CodeGen.generate_action (Some content) ln g = CodeGen.add_line (lit "writeln();") g).
Proof.
  split; intros H.
  - split.
    + unfold Sema.analyze_action_content. cbv zeta. rewrite H.
      replace (startswith Sema.in_input (lit "Ввод:")) with true by (vm_compute; reflexivity).
      replace (List.filter nonempty
                 (map strip (split Sema.RE_COMMA false (strip (drop 5 (lit "Ввод:"))))))
        with ([] : list pystr) by (vm_compute; reflexivity).
      reflexivity.
    + destruct content as [|c content]; [vm_compute in H; discriminate|].
      unfold CodeGen.generate_action. cbn [Sema.truthy]. cbv zeta. rewrite H.
      replace (replace Sema.neq_py Sema.neq_pascal (lit "Ввод:")) with (lit "Ввод:")
        by (vm_compute; reflexivity).
      replace (startswith Sema.in_input (lit "Ввод:")) with true by (vm_compute; reflexivity).
      replace (strip (drop 5 (lit "Ввод:"))) with ([] : pystr) by (vm_compute; reflexivity).
      reflexivity.
  - split.
    + unfold Sema.analyze_action_content. cbv zeta. rewrite H.
      replace (startswith Sema.in_input (lit "Вывод:")) with false
        by (vm_compute; reflexivity).
      replace (startswith Sema.in_output (lit "Вывод:")) with true
        by (vm_compute; reflexivity).
      replace (strip (drop 6 (lit "Вывод:"))) with ([] : pystr) by (vm_compute; reflexivity).
      reflexivity.
    + destruct content as [|c content]; [vm_compute in H; discriminate|].
      unfold CodeGen.generate_action. cbn [Sema.truthy]. cbv zeta. rewrite H.
      replace (replace Sema.neq_py Sema.neq_pascal (lit "Вывод:")) with (lit "Вывод:")
        by (vm_compute; reflexivity).
      replace (startswith Sema.in_input (lit "Вывод:")) with false
        by (vm_compute; reflexivity).
      replace (startswith Sema.in_output (lit "Вывод:")) with true
        by (vm_compute; reflexivity).
      replace (strip (drop 6 (lit "Вывод:"))) with ([] : pystr) by (vm_compute; reflexivity).
      reflexivity.
Qed.

Lemma bare_input_and_output_witness :
  CodeGen.generate_action (Some (lit "  Ввод:  ")) 3
    {| CodeGen.code_lines := []; CodeGen.gerrors := []; CodeGen.indent_level := 1 |}
  = CodeGen.record_error (lit "Пустой список переменных в Ввод:") 3
      {| CodeGen.code_lines := []; CodeGen.gerrors := []; CodeGen.indent_level := 1 |}.
Proof.
  exact (proj2 (proj1 (bare_input_and_output cyrillic (lit "  Ввод:  ") 3 0
                         {| Sema.symbol_table := ∅; Sema.errors := []; Sema.warnings := [] |}
                         {| CodeGen.code_lines := []; CodeGen.gerrors := [];
                            CodeGen.indent_level := 1 |})
                  ltac:(vm_compute; reflexivity))).
Defined.

(* ===================================================================== *)
(** * The analyzer: how a symbol is filed *)
(* ===================================================================== *)

(** A symbol as the analysis files it: under its own name, with the bounds
    [define] gives when none are passed, and with a line and a position *)
Definition filed (nm : pystr) (s : Sema.Symbol) : Prop :=
  Sema.name s = nm /\ Sema.array_size s = (0, 100) /\
  is_Some (Sema.line s) /\ is_Some (Sema.pos s).

Definition all_filed (a : Sema.analyzer) : Prop :=
  forall nm s, Sema.symbol_table a !! nm = Some s -> filed nm s.

Section Filing.
Context {U : UnicodeData}.
Import Sema.

Lemma define_filed (nm ty : pystr) (arr decl : bool) (ln ps : nat) (t : SymbolTable) :
  (forall k s, t !! k = Some s -> filed k s) ->
  forall k s, define nm ty arr None decl (Some ln) (Some ps) t !! k = Some s -> filed k s.
Proof.
  intros Ht k s. unfold define. destruct (t !! nm) as [existing|] eqn:E.
  - destruct (decide (k = nm)) as [->|Hne].
    + rewrite lookup_insert_eq. intros [= <-].
      destruct (Ht nm existing E) as (N & Sz & L & P).
      split; [exact N|]. split; [cbn; by destruct arr|].
      destruct L as [l0 El]. cbn [line pos]. rewrite El.
      destruct (ln <? l0); (split; [by eexists | first [exact P | by eexists]]).
    + rewrite lookup_insert_ne by done. apply Ht.
  - destruct (decide (k = nm)) as [->|Hne].
    + rewrite lookup_insert_eq. intros [= <-].
      split; [done|]. split; [done|]. split; by eexists.
    + rewrite lookup_insert_ne by done. apply Ht.
Qed.

Lemma steps_filed (a a' : analyzer) : sema_steps a a' -> all_filed a -> all_filed a'.
Proof.
  induction 1 as [a|a a1 a2 Hs _ IH]; [done|]. intros H. apply IH.
  destruct Hs as [nm ty arr decl ln ps a0 | ln ps msg a0 Hp | ln ps msg a0 Hp];
    [|exact H|exact H].
  intros k s. apply define_filed. exact H.
Qed.

End Filing.

(** An assignment to an element beyond the bounds every array is given *)
Definition far_element : Parser.Node :=
  Parser.mkNode Parser.t_action_content (Some (lit "arr[150] := 1")) [] 4 2.

(** X20: after the analysis of any tree, every symbol of the table is
    filed under its own name and carries a line and a position, and the
    bounds of every array are 0 and 100, whatever indices the diagram uses:
    the type declared for a symbol is its base type, or
    [array[0..100] of] its base type. *)
Theorem analysis_files_symbols (U : UnicodeData) (root : option Parser.Node)
    (a : Sema.analyzer) (H : Sema.analyze root = Some a) :
  forall nm s, Sema.symbol_table a !! nm = Some s ->
    filed nm s /\
    Sema.type_of s
    = (if Sema.is_array s then lit "array[0..100] of " else []) ++ Sema.base_type s.
Proof.
  assert (all_filed a) as Ha.
  { destruct root as [root|]; simpl in H.
    - destruct (visit_steps root {| Sema.symbol_table := ∅; Sema.errors := [];
                                    Sema.warnings := [] |}) as (a1 & E & Hsteps).
      rewrite E in H. injection H as <-.
      apply (steps_filed _ _ Hsteps). intros nm s Hs. simpl in Hs.
      by rewrite lookup_empty in Hs.
    - injection H as <-. intros nm s Hs. simpl in Hs. by rewrite lookup_empty in Hs. }
  intros nm s Hs. pose proof (Ha nm s Hs) as Hf. split; [exact Hf|].
  destruct Hf as (_ & Sz & _). unfold Sema.type_of. rewrite Sz.
  destruct (Sema.is_array s); [|reflexivity].
  rewrite !app_assoc. by f_equal.
Qed.

Lemma analysis_files_symbols_witness :
  exists a s,
    Sema.analyze (U := cyrillic) (Some far_element) = Some a /\
    Sema.symbol_table a !! lit "arr" = Some s /\
    Sema.type_of s = lit "array[0..100] of integer".
Proof.
  destruct (Sema.analyze (U := cyrillic) (Some far_element)) as [a|] eqn:E;
    [|vm_compute in E; discriminate].
  destruct (Sema.symbol_table a !! lit "arr") as [s|] eqn:Es;
    [|vm_compute in E; injection E as <-; vm_compute in Es; discriminate].
  exists a, s. split; [reflexivity|]. split; [exact Es|].
  destruct (analysis_files_symbols cyrillic (Some far_element) a E (lit "arr") s Es)
    as [_ ->].
  vm_compute in E. injection E as <-. vm_compute in Es. injection Es as <-.
  vm_compute. reflexivity.
Defined.
